(** * Drain log-template miner (pkg/loggerinfo/drain/drain.go)

    A shallow embedding of the clustering engine: the time-bucketed
    [Volume], the LRU-backed [LogClusterCache], the prefix tree of [Node]s
    and the [Drain] operations [Train] and [Match], followed by the
    properties of the engine.

    Conventions.
    - Go [int]/[int64] values are [Z]; arithmetic that can leave the 64-bit
      range is wrapped with [wrap64].
    - A Go panic is the [Panic] outcome of the [result] monad.
    - [*LogCluster] pointers are only reachable through the cache, so the
      cache holds the records themselves and a mutation through a pointer
      is an in-place update of the cache entry.
    - [*Node] pointers form a tree (a node is linked into exactly one map
      slot when it is created), so the tree is a value and a mutation below
      a node rebuilds the path to it. *)

From Stdlib Require Import ZArith QArith Lia Lqa Ascii String Sorting.Sorted.
From Stdlib Require Import Floats Uint63.
From stdpp Require Import base option list gmap strings pretty.

#[local] Open Scope Z_scope.
#[local] Set Warnings "-register-all".

(* ===================================================================== *)
(** ** Machine integers *)

Definition max_int : Z := 2 ^ 63 - 1.

(** Two's-complement wrap-around of a 64-bit signed integer. *)
Definition wrap64 (z : Z) : Z := (z + 2 ^ 63) mod 2 ^ 64 - 2 ^ 63.

Definition add64 (a b : Z) : Z := wrap64 (a + b).

(** [len(s)] of a slice. *)
Definition len {A} (l : list A) : Z := Z.of_nat (length l).

(* ===================================================================== *)
(** ** Panics *)

(** The panics of the package, by the place that raises them. *)
Inductive panic : Type :=
| LenMismatch   (* panic("seq1 seq2 be of same length") *)
| NilCache      (* nil pointer dereference: a method of the nil *LRU *)
| NilNode       (* nil pointer dereference: a field of a nil *Node *)
| NoCandidate   (* index out of range: curNode.clusterIDs[0] *)
| NoBucket      (* index out of range: x.Values[0] *)
| BadDepth.     (* panic("depth argument must be at least 3") *)

Inductive result (A : Type) : Type :=
| Ok (a : A)
| Panic (p : panic).
Arguments Ok {A} a.
Arguments Panic {A} p.

#[global] Instance result_ret : MRet result := fun _ a => Ok a.

#[global] Instance result_bind : MBind result := fun _ _ f m =>
  match m with
  | Ok a => f a
  | Panic p => Panic p
  end.

(* ===================================================================== *)
(** ** float64

    IEEE 754 binary64 values and the operations the engine uses on them:
    conversion from [int], division and the comparisons.  A finite value is
    kept as the rational it denotes; division rounds to nearest, ties to
    even, at 53 bits of precision.  Negative zero is not represented: it
    cannot arise from dividing converted non-negative integers, and it
    compares equal to zero. *)

Module F64.

Inductive float64 : Type :=
| NaN
| Inf (neg : bool)
| Fin (q : Q).

(** nearest integer to [a / b] for [b > 0], ties to even *)
Definition half_even (a b : Z) : Z :=
  let q := a / b in
  match 2 * (a mod b) ?= b with
  | Lt => q
  | Gt => q + 1
  | Eq => if Z.even q then q else q + 1
  end.

Definition pow2Q (e : Z) : Q :=
  if 0 <=? e then 2 ^ e # 1 else 1 # Z.to_pos (2 ^ (- e)).

(** floor of the binary logarithm of [n / d], for [n > 0] *)
Definition ilog2 (n : Z) (d : positive) : Z :=
  let e0 := Z.log2 n - Z.log2 (Zpos d) in
  match Qcompare (n # d) (pow2Q e0) with
  | Lt => e0 - 1
  | _ => e0
  end.

(** rounding of the positive rational [n / d] *)
Definition round_pos (n : Z) (d : positive) : float64 :=
  let e := Z.max (ilog2 n d) (-1022) in
  let s := 52 - e in
  let m := if 0 <=? s then half_even (n * 2 ^ s) (Zpos d)
           else half_even n (Zpos d * 2 ^ (- s)) in
  let r := Qred (Qmult (m # 1) (pow2Q (- s))) in
  match Qcompare r (pow2Q 1024) with
  | Lt => Fin r
  | _ => Inf false
  end.

Definition fneg (x : float64) : float64 :=
  match x with
  | NaN => NaN
  | Inf s => Inf (negb s)
  | Fin q => Fin (Qred (Qopp q))
  end.

Definition round_red (q : Q) : float64 :=
  match Qnum q with
  | Z0 => Fin 0
  | Zpos _ => round_pos (Qnum q) (Qden q)
  | Zneg p => fneg (round_pos (Zpos p) (Qden q))
  end.

Definition round64 (q : Q) : float64 := round_red (Qred q).

(** [float64(z)] for an [int] z: exact up to 2^53, rounded above. *)
Definition of_int (z : Z) : float64 :=
  let a := Z.abs z in
  let k := Z.log2 a - 52 in
  if k <=? 0 then Fin (z # 1)
  else Fin (Z.sgn z * half_even a (2 ^ k) * 2 ^ k # 1).

Definition is_zero (q : Q) : bool :=
  match Qnum q with Z0 => true | _ => false end.

Definition is_neg (q : Q) : bool :=
  match Qnum q with Zneg _ => true | _ => false end.

(** [x / y] *)
Definition div (x y : float64) : float64 :=
  match x, y with
  | NaN, _ | _, NaN => NaN
  | Inf _, Inf _ => NaN
  | Inf s, Fin b => Inf (xorb s (is_neg b))
  | Fin a, Inf _ => Fin 0
  | Fin a, Fin b =>
      if is_zero b then (if is_zero a then NaN else Inf (is_neg a))
      else round64 (a / b)
  end.

(** [x < y] *)
Definition ltb (x y : float64) : bool :=
  match x, y with
  | NaN, _ | _, NaN => false
  | Inf sx, Inf sy => sx && negb sy
  | Inf sx, Fin _ => sx
  | Fin _, Inf sy => negb sy
  | Fin a, Fin b => match Qcompare a b with Lt => true | _ => false end
  end.

(** [x == y] *)
Definition eqb (x y : float64) : bool :=
  match x, y with
  | NaN, _ | _, NaN => false
  | Inf sx, Inf sy => Bool.eqb sx sy
  | Inf _, Fin _ | Fin _, Inf _ => false
  | Fin a, Fin b => match Qcompare a b with Eq => true | _ => false end
  end.

(** [x > y], [x <= y], [x >= y] *)
Definition gtb (x y : float64) : bool := ltb y x.
Definition leb (x y : float64) : bool := ltb x y || eqb x y.
Definition geb (x y : float64) : bool := leb y x.

(** a decimal literal such as [0.4]: the nearest binary64 value *)
Definition lit (q : Q) : float64 := round64 q.

Definition one : float64 := Fin 1.
Definition neg_one : float64 := Fin (-1 # 1).

(** The value of a kernel binary64 float, used to test the definitions
    above against the hardware operations. *)
Definition of_prim (f : PrimFloat.float) : float64 :=
  match Prim2SF f with
  | S754_nan => NaN
  | S754_infinity s => Inf s
  | S754_zero _ => Fin 0
  | S754_finite s m e =>
      Fin (Qred (Qmult ((if s then Zneg m else Zpos m) # 1) (pow2Q e)))
  end.

Definition prim_div (a b : Z) : PrimFloat.float :=
  PrimFloat.div (PrimFloat.of_uint63 (Uint63.of_Z a))
                (PrimFloat.of_uint63 (Uint63.of_Z b)).

(** same value, or both NaN *)
Definition same (x y : float64) : bool :=
  match x, y with
  | NaN, NaN => true
  | _, _ => eqb x y
  end.

End F64.

Import F64.

(* ===================================================================== *)
(** ** Functions of the Go standard library *)

(** [strings.TrimSpace], [strings.Replace], the UTF-8 decoding performed
    by [range] over a string, and [unicode.IsNumber].  Their Unicode tables
    are not part of the engine; the engine is stated over any
    implementation of them. *)
Class GoStdlib : Type := {
  TrimSpace : string -> string;
  Replace : string -> string -> string -> Z -> string;
  runes : string -> list Z;
  IsNumber : Z -> bool
}.

(** [strings.Split(s, sep)] for a one-byte separator: the pieces of [s]
    between the occurrences of [sep]; [n] separators give [n + 1] pieces. *)
Fixpoint Split (s : string) (sep : ascii) : list string :=
  match s with
  | EmptyString => [EmptyString]
  | String c s' =>
      if Ascii.eqb c sep then EmptyString :: Split s' sep
      else match Split s' sep with
           | [] => [String c EmptyString]
           | w :: ws => String c w :: ws
           end
  end.

(** [strconv.Itoa] *)
Definition Itoa (n : Z) : string := pretty n.

(** [sort.Search(n, f)]: binary search for the least index in [0, n) at
    which [f] holds, for a monotone [f].  The loop runs while [i < j]; the
    distance [j - i] shrinks at each turn, so [n] turns are enough. *)
Fixpoint search_loop (fuel : nat) (f : Z -> bool) (i j : Z) : Z :=
  match fuel with
  | O => i
  | S fuel =>
      if i <? j then
        let h := (i + j) / 2 in
        if negb (f h) then search_loop fuel f (h + 1) j
        else search_loop fuel f i h
      else i
  end.

Definition Search (n : Z) (f : Z -> bool) : Z :=
  search_loop (Z.to_nat n) f 0 n.

(** [slices.Insert(s, i, v)] *)
Definition slices_Insert {A} (s : list A) (i : Z) (v : A) : list A :=
  take (Z.to_nat i) s ++ v :: drop (Z.to_nat i) s.

(* ===================================================================== *)
(** ** Volume *)

Definition timeResolution : Z := 10 * 1000000000.
Definition maxSamples : Z := 10.

(** [ts - ts%timeResolution]; Go's [%] truncates toward zero. *)
Definition truncateTimestamp (ts : Z) : Z := ts - Z.rem ts timeResolution.

(** [Values [][2]int64]: timestamp, count. *)
Record Volume : Type := mkVolume { Values : list (Z * Z) }.

Definition initVolume (ts : Z) : Volume := mkVolume [(ts, 1)].

Definition Matches (x : Volume) : Z :=
  fold_left (fun m v => add64 m v.2) (Values x) 0.

(** [x.Values[i][1]++] *)
Definition incr_count (vs : list (Z * Z)) (i : nat) : list (Z * Z) :=
  alter (fun v => (v.1, add64 v.2 1)) i vs.

(** [x.Values[i][1]] *)
Definition count_at (vs : list (Z * Z)) (i : Z) : Z :=
  match vs !! Z.to_nat i with
  | Some v => v.2
  | None => 0
  end.

Definition Add (x : Volume) (ts : Z) : result Volume :=
  let vs := Values x in
  let t := truncateTimestamp ts in
  match head vs, last vs with
  | Some first, Some last =>
      if last.1 =? t then
        Ok (mkVolume (incr_count vs (length vs - 1)))
      else if t <? first.1 then
        (* slices.Grow leaves the length as it is; copy moves the first
           len-1 elements up by one; then index 0 is overwritten *)
        Ok (mkVolume (<[0%nat := (t, 1)]> (take 1 vs ++ take (length vs - 1) vs)))
      else if last.1 <? t then
        Ok (mkVolume (vs ++ [(t, 1)]))
      else
        let index := Search (len vs) (fun i => t <=? count_at vs i) in
        if (index <? len vs) && (count_at vs index =? t) then
          Ok (mkVolume (incr_count vs (Z.to_nat index)))
        else
          Ok (mkVolume (slices_Insert vs index (t, 1)))
  | _, _ => Panic NoBucket
  end.

(* ===================================================================== *)
(** ** LogCluster *)

Record LogCluster : Type := mkLogCluster {
  cluster_id : Z;            (* id *)
  Size : Z;
  Tokens : list string;
  Samples : list string;
  cluster_Volume : Volume    (* Volume *)
}.

Definition LogCluster_append (c : LogCluster) (content : string) (ts : Z)
  : result LogCluster :=
  v ← Add (cluster_Volume c) ts;
  Ok (mkLogCluster (cluster_id c) (Size c) (Tokens c)
        (if len (Samples c) <? maxSamples then Samples c ++ [content]
         else Samples c)
        v).

(* ===================================================================== *)
(** ** simplelru.LRU and LogClusterCache

    [evictList] is the recency list, most recently used entry first; the
    [items] index of the library maps a key to its element of that list and
    is the lookup below. *)

Record LRU : Type := mkLRU {
  lru_size : Z;
  evictList : list (Z * LogCluster)
}.

Definition NewLRU (size : Z) : option LRU :=
  if size <=? 0 then None else Some (mkLRU size []).

Fixpoint items (l : list (Z * LogCluster)) (key : Z) : option LogCluster :=
  match l with
  | [] => None
  | e :: l' => if bool_decide (e.1 = key) then Some e.2 else items l' key
  end.

Definition remove_key (l : list (Z * LogCluster)) (key : Z)
  : list (Z * LogCluster) :=
  filter (fun e => e.1 ≠ key) l.

Definition MoveToFront (l : list (Z * LogCluster)) (key : Z) (v : LogCluster)
  : list (Z * LogCluster) :=
  (key, v) :: remove_key l key.

Definition LRU_Add (c : LRU) (key : Z) (value : LogCluster) : LRU :=
  match items (evictList c) key with
  | Some _ => mkLRU (lru_size c) (MoveToFront (evictList c) key value)
  | None =>
      let l := (key, value) :: evictList c in
      if lru_size c <? len l then mkLRU (lru_size c) (removelast l)
      else mkLRU (lru_size c) l
  end.

Definition LRU_Get (c : LRU) (key : Z) : option LogCluster * LRU :=
  match items (evictList c) key with
  | Some v => (Some v, mkLRU (lru_size c) (MoveToFront (evictList c) key v))
  | None => (None, c)
  end.

Definition LRU_Peek (c : LRU) (key : Z) : option LogCluster :=
  items (evictList c) key.

(** oldest to newest *)
Definition LRU_Keys (c : LRU) : list Z := rev (evictList c).*1.

(** [cache] is [None] for the nil [*LRU] that [NewLRU] returns with its
    error. *)
Record LogClusterCache : Type := mkCache { cache : option LRU }.

Definition createLogClusterCache (maxSize : Z) : LogClusterCache :=
  let maxSize := if maxSize =? 0 then max_int else maxSize in
  mkCache (NewLRU maxSize).

Definition Cache_Values (c : LogClusterCache) : result (list LogCluster) :=
  match cache c with
  | None => Panic NilCache
  | Some l => Ok (omap (LRU_Peek l) (LRU_Keys l))
  end.

Definition Cache_Keys (c : LogClusterCache) : result (list Z) :=
  match cache c with
  | None => Panic NilCache
  | Some l => Ok (LRU_Keys l)
  end.

Definition Cache_Set (c : LogClusterCache) (key : Z) (cluster : LogCluster)
  : result LogClusterCache :=
  match cache c with
  | None => Panic NilCache
  | Some l => Ok (mkCache (Some (LRU_Add l key cluster)))
  end.

Definition Cache_Get (c : LogClusterCache) (key : Z)
  : result (option LogCluster * LogClusterCache) :=
  match cache c with
  | None => Panic NilCache
  | Some l => let '(v, l') := LRU_Get l key in Ok (v, mkCache (Some l'))
  end.

(** A field assignment through a [*LogCluster] held by the cache: the
    entry changes where it stands. *)
Definition Cache_store (c : LogClusterCache) (cluster : LogCluster)
  : LogClusterCache :=
  match cache c with
  | None => c
  | Some l =>
      mkCache (Some (mkLRU (lru_size l)
        (map (fun e => if bool_decide (e.1 = cluster_id cluster)
                       then (e.1, cluster) else e) (evictList l))))
  end.

(* ===================================================================== *)
(** ** Config, Node, Drain *)

Record Config : Type := mkConfig {
  maxNodeDepth : Z;
  LogClusterDepth : Z;
  SimTh : float64;
  MaxChildren : Z;
  ExtraDelimiters : list string;
  MaxClusters : Z;
  ParamString : string
}.

Definition DefaultConfig : Config :=
  mkConfig 0 4 (lit (4 # 10)) 100 [] 0 "<*>".

Inductive Node : Type := mkNode {
  keyToChildNode : gmap string Node;
  clusterIDs : list Z
}.

Definition createNode : Node := mkNode ∅ [].

Record Drain : Type := mkDrain {
  config : Config;
  rootNode : Node;
  idToCluster : LogClusterCache;
  clustersCounter : Z
}.

Definition New (config : Config) : result Drain :=
  if LogClusterDepth config <? 3 then Panic BadDepth
  else
    let config := mkConfig (LogClusterDepth config - 2) (LogClusterDepth config)
                    (SimTh config) (MaxChildren config) (ExtraDelimiters config)
                    (MaxClusters config) (ParamString config) in
    Ok (mkDrain config createNode
          (createLogClusterCache (MaxClusters config)) 0).

Definition Clusters (d : Drain) : result (list LogCluster) :=
  Cache_Values (idToCluster d).

(** [len(n.keyToChildNode)] *)
Definition children (n : Node) : Z := Z.of_nat (size (keyToChildNode n)).

(* ===================================================================== *)
(** ** The matching engine *)

Section Engine.
Context `{GoStdlib}.

Definition getContentAsTokens (cfg : Config) (content : string) : list string :=
  let content := TrimSpace content in
  let content :=
    fold_left (fun content extraDelimiter => Replace content extraDelimiter " " (-1))
      (ExtraDelimiters cfg) content in
  Split content " ".

Definition hasNumbers (s : string) : bool := existsb IsNumber (runes s).

(** The counting loop of [getSeqDistance]: [(simTokens, paramCount)]. *)
Fixpoint seqCount (param : string) (seq1 seq2 : list string)
    (simTokens paramCount : Z) : Z * Z :=
  match seq1, seq2 with
  | token1 :: seq1, token2 :: seq2 =>
      if bool_decide (token1 = param) then
        seqCount param seq1 seq2 simTokens (paramCount + 1)
      else if bool_decide (token1 = token2) then
        seqCount param seq1 seq2 (simTokens + 1) paramCount
      else seqCount param seq1 seq2 simTokens paramCount
  | _, _ => (simTokens, paramCount)
  end.

(** [getSeqDistance] past its length check. *)
Definition seqDistance (cfg : Config) (seq1 seq2 : list string)
    (includeParams : bool) : float64 * Z :=
  let '(simTokens, paramCount) := seqCount (ParamString cfg) seq1 seq2 0 0 in
  let simTokens := if includeParams then simTokens + paramCount else simTokens in
  (div (of_int simTokens) (of_int (len seq1)), paramCount).

Definition getSeqDistance (cfg : Config) (seq1 seq2 : list string)
    (includeParams : bool) : result (float64 * Z) :=
  if bool_decide (length seq1 ≠ length seq2) then Panic LenMismatch
  else Ok (seqDistance cfg seq1 seq2 includeParams).

Definition createTemplate (cfg : Config) (seq1 seq2 : list string)
  : result (list string) :=
  if bool_decide (length seq1 ≠ length seq2) then Panic LenMismatch
  else
    Ok (zip_with (fun t1 t2 => if bool_decide (t1 ≠ t2) then ParamString cfg else t2)
          seq1 seq2).

(** The running maximum of [fastMatch]. *)
Record best : Type := mkBest {
  maxSim : float64;
  maxParamCount : Z;
  maxCluster : option LogCluster
}.

(** The test of [fastMatch] that makes a candidate the new maximum. *)
Definition beats (cur : float64 * Z) (maxSim : float64) (maxParamCount : Z) : bool :=
  gtb cur.1 maxSim || (eqb cur.1 maxSim && (maxParamCount <? cur.2)).

Definition fastMatch_step (cfg : Config) (tokens : list string)
    (includeParams : bool) (st : best * LogClusterCache) (clusterID : Z)
  : result (best * LogClusterCache) :=
  let '(b, c) := st in
  '(cluster, c) ← Cache_Get c clusterID;
  match cluster with
  | None => Ok (b, c)
  | Some cluster =>
      cur ← getSeqDistance cfg (Tokens cluster) tokens includeParams;
      if beats cur (maxSim b) (maxParamCount b)
      then Ok (mkBest cur.1 cur.2 (Some cluster), c)
      else Ok (b, c)
  end.

Fixpoint fastMatch_loop (cfg : Config) (tokens : list string)
    (includeParams : bool) (clusterIDs : list Z) (st : best * LogClusterCache)
  : result (best * LogClusterCache) :=
  match clusterIDs with
  | [] => Ok st
  | clusterID :: clusterIDs =>
      st ← fastMatch_step cfg tokens includeParams st clusterID;
      fastMatch_loop cfg tokens includeParams clusterIDs st
  end.

Definition fastMatch (d : Drain) (clusterIDs : list Z) (tokens : list string)
    (simTh : float64) (includeParams : bool)
  : result (option LogCluster * Drain) :=
  '(b, c) ← fastMatch_loop (config d) tokens includeParams clusterIDs
              (mkBest neg_one (-1) None, idToCluster d);
  let matchCluster := if geb (maxSim b) simTh then maxCluster b else None in
  Ok (matchCluster, mkDrain (config d) (rootNode d) c (clustersCounter d)).

(** The descent of [treeSearch]; [None] is its [return nil]. *)
Fixpoint searchLoop (cfg : Config) (tokenCount : Z) (tokens : list string)
    (curNodeDepth : Z) (curNode : Node) : option Node :=
  match tokens with
  | [] => Some curNode
  | token :: tokens =>
      if maxNodeDepth cfg <=? curNodeDepth then Some curNode
      else if curNodeDepth =? tokenCount then Some curNode
      else
        match keyToChildNode curNode !! token with
        | Some n => searchLoop cfg tokenCount tokens (curNodeDepth + 1) n
        | None =>
            match keyToChildNode curNode !! ParamString cfg with
            | Some n => searchLoop cfg tokenCount tokens (curNodeDepth + 1) n
            | None => None
            end
        end
  end.

Definition treeSearch (d : Drain) (root : Node) (tokens : list string)
    (simTh : float64) (includeParams : bool)
  : result (option LogCluster * Drain) :=
  let tokenCount := len tokens in
  match keyToChildNode root !! Itoa tokenCount with
  | None => Ok (None, d)
  | Some curNode =>
      if tokenCount =? 0 then
        match clusterIDs curNode with
        | [] => Panic NoCandidate
        | clusterID :: _ =>
            '(cluster, c) ← Cache_Get (idToCluster d) clusterID;
            Ok (cluster, mkDrain (config d) (rootNode d) c (clustersCounter d))
        end
      else
        match searchLoop (config d) tokenCount tokens 1 curNode with
        | None => Ok (None, d)
        | Some curNode => fastMatch d (clusterIDs curNode) tokens simTh includeParams
        end
  end.

(** The clean-up of a leaf: the IDs that still resolve, in order. *)
Fixpoint liveIDs (clusterIDs : list Z) (c : LogClusterCache)
  : result (list Z * LogClusterCache) :=
  match clusterIDs with
  | [] => Ok ([], c)
  | clusterID :: clusterIDs =>
      '(cluster, c) ← Cache_Get c clusterID;
      '(newClusterIDs, c) ← liveIDs clusterIDs c;
      Ok (match cluster with
          | Some _ => clusterID :: newClusterIDs
          | None => newClusterIDs
          end, c)
  end.

(** The loop of [addSeqToPrefixTree] from [curNode] on: the node as the
    loop leaves it, and the cache.  Where the code moves [curNode] to a
    child, the child is rebuilt and put back under its key.  A [curNode]
    that became nil faults at the next turn of the loop. *)
Fixpoint addLoop (cfg : Config) (cluster : LogCluster) (tokenCount : Z)
    (tokens : list string) (currentDepth : Z) (curNode : Node)
    (c : LogClusterCache) : result (Node * LogClusterCache) :=
  match tokens with
  | [] => Ok (curNode, c)
  | token :: tokens =>
      let into (key : string) (child : option Node) :=
        match child with
        | Some n =>
            '(n, c) ← addLoop cfg cluster tokenCount tokens (currentDepth + 1) n c;
            Ok (mkNode (<[key := n]> (keyToChildNode curNode)) (clusterIDs curNode), c)
        | None =>
            match tokens with
            | [] => Ok (curNode, c)
            | _ :: _ => Panic NilNode
            end
        end in
      if (maxNodeDepth cfg <=? currentDepth) || (tokenCount <=? currentDepth) then
        '(newClusterIDs, c) ← liveIDs (clusterIDs curNode) c;
        Ok (mkNode (keyToChildNode curNode) (newClusterIDs ++ [cluster_id cluster]), c)
      else
        match keyToChildNode curNode !! token with
        | None =>
            if negb (hasNumbers token) then
              match keyToChildNode curNode !! ParamString cfg with
              | Some _ =>
                  if children curNode <? MaxChildren cfg then
                    into token (Some createNode)
                  else
                    into (ParamString cfg) (keyToChildNode curNode !! ParamString cfg)
              | None =>
                  if children curNode + 1 <? MaxChildren cfg then
                    into token (Some createNode)
                  else if children curNode + 1 =? MaxChildren cfg then
                    into (ParamString cfg) (Some createNode)
                  else
                    into (ParamString cfg) (keyToChildNode curNode !! ParamString cfg)
              end
            else
              match keyToChildNode curNode !! ParamString cfg with
              | None => into (ParamString cfg) (Some createNode)
              | Some n => into (ParamString cfg) (Some n)
              end
        | Some n => into token (Some n)
        end
  end.

Definition addSeqToPrefixTree (d : Drain) (root : Node) (cluster : LogCluster)
  : result Drain :=
  let tokenCount := len (Tokens cluster) in
  let tokenCountStr := Itoa tokenCount in
  let firstLayerNode :=
    match keyToChildNode root !! tokenCountStr with
    | Some n => n
    | None => createNode
    end in
  if tokenCount =? 0 then
    let n := mkNode (keyToChildNode firstLayerNode)
               (clusterIDs firstLayerNode ++ [cluster_id cluster]) in
    Ok (mkDrain (config d)
          (mkNode (<[tokenCountStr := n]> (keyToChildNode root)) (clusterIDs root))
          (idToCluster d) (clustersCounter d))
  else
    '(n, c) ← addLoop (config d) cluster tokenCount (Tokens cluster) 1
                firstLayerNode (idToCluster d);
    Ok (mkDrain (config d)
          (mkNode (<[tokenCountStr := n]> (keyToChildNode root)) (clusterIDs root))
          c (clustersCounter d)).

Definition Train (d : Drain) (content : string) (ts : Z)
  : result (LogCluster * Drain) :=
  let contentTokens := getContentAsTokens (config d) content in
  '(matchCluster, d) ← treeSearch d (rootNode d) contentTokens (SimTh (config d)) false;
  match matchCluster with
  | None =>
      let clustersCounter := add64 (clustersCounter d) 1 in
      let clusterID := clustersCounter in
      let matchCluster :=
        mkLogCluster clusterID 1 contentTokens [content] (initVolume ts) in
      c ← Cache_Set (idToCluster d) clusterID matchCluster;
      d ← addSeqToPrefixTree (mkDrain (config d) (rootNode d) c clustersCounter)
             (rootNode d) matchCluster;
      Ok (matchCluster, d)
  | Some matchCluster =>
      newTemplateTokens ← createTemplate (config d) contentTokens (Tokens matchCluster);
      matchCluster ←
        LogCluster_append
          (mkLogCluster (cluster_id matchCluster) (add64 (Size matchCluster) 1)
             newTemplateTokens (Samples matchCluster) (cluster_Volume matchCluster))
          content ts;
      '(_, c) ← Cache_Get (Cache_store (idToCluster d) matchCluster)
                  (cluster_id matchCluster);
      Ok (matchCluster, mkDrain (config d) (rootNode d) c (clustersCounter d))
  end.

Definition Match (d : Drain) (content : string)
  : result (option LogCluster * Drain) :=
  let contentTokens := getContentAsTokens (config d) content in
  treeSearch d (rootNode d) contentTokens one true.

(** A caller's sequence of calls on one engine; a panic ends it. *)
Inductive call : Type :=
| CallTrain (content : string) (ts : Z)
| CallMatch (content : string).

Definition step (d : Drain) (c : call) : result (option LogCluster * Drain) :=
  match c with
  | CallTrain content ts => '(c, d) ← Train d content ts; Ok (Some c, d)
  | CallMatch content => Match d content
  end.

Fixpoint run (d : Drain) (calls : list call)
  : result (list (option LogCluster) * Drain) :=
  match calls with
  | [] => Ok ([], d)
  | c :: calls =>
      '(o, d) ← step d c;
      '(os, d) ← run d calls;
      Ok (o :: os, d)
  end.

End Engine.

(* ===================================================================== *)
(** ** An implementation of the library functions for ASCII text

    Exact on strings of 7-bit characters, where a rune is a byte, white
    space is one of tab, newline, vertical tab, form feed, carriage return
    and space, and the numbers are the decimal digits.  It instantiates the
    engine for the examples below. *)

Module AsciiStdlib.

Definition asciiSpace (c : ascii) : bool :=
  let n := nat_of_ascii c in
  ((9 <=? n) && (n <=? 13))%nat || (n =? 32)%nat.

Fixpoint trimLeft (s : string) : string :=
  match s with
  | String c s' => if asciiSpace c then trimLeft s' else s
  | EmptyString => EmptyString
  end.

(** [s] without its trailing white space *)
Fixpoint trimRight (s : string) : string :=
  match s with
  | EmptyString => EmptyString
  | String c s' =>
      match trimRight s' with
      | EmptyString => if asciiSpace c then EmptyString else String c EmptyString
      | r => String c r
      end
  end.

Definition TrimSpace (s : string) : string := trimRight (trimLeft s).

(** [s] with its first [k] non-overlapping occurrences of the non-empty
    [old] replaced; [fuel] bounds the bytes skipped after a match. *)
Fixpoint replaceN (fuel : nat) (s old new : string) (skip : nat) (k : nat) : string :=
  match fuel with
  | O => s
  | S fuel =>
      match s with
      | EmptyString => EmptyString
      | String c s' =>
          match skip with
          | S skip => replaceN fuel s' old new skip k
          | O =>
              match k with
              | O => s
              | S k' =>
                  if String.prefix old s then
                    new +:+ replaceN fuel s' old new (String.length old - 1) k'
                  else String c (replaceN fuel s' old new 0 k)
              end
          end
      end
  end.

(** an empty [old] matches before every rune and at the end *)
Fixpoint intersperse (s new : string) (k : nat) : string :=
  match k with
  | O => s
  | S k' =>
      match s with
      | EmptyString => new
      | String c s' => new +:+ String c (intersperse s' new k')
      end
  end.

Definition Replace (s old new : string) (n : Z) : string :=
  let k := if n <? 0 then S (String.length s) else Z.to_nat n in
  match old with
  | EmptyString => intersperse s new k
  | _ => replaceN (S (String.length s)) s old new 0 k
  end.

Definition runes (s : string) : list Z :=
  (fun c => Z.of_nat (nat_of_ascii c)) <$> list_ascii_of_string s.

Definition IsNumber (r : Z) : bool := (48 <=? r) && (r <=? 57).

#[export] Instance stdlib : GoStdlib :=
  Build_GoStdlib TrimSpace Replace runes IsNumber.

End AsciiStdlib.

(* ===================================================================== *)
(** ** Definitions used to state the properties *)

(** [raises P m]: if [m] panics, its panic satisfies [P]. *)
Definition raises {A} (P : panic -> Prop) (m : result A) : Prop :=
  forall p, m = Panic p -> P p.

(** [c.cache.Peek(key)], or nothing for the nil cache *)
Definition resolve (c : LogClusterCache) (key : Z) : option LogCluster :=
  match cache c with
  | Some l => items (evictList l) key
  | None => None
  end.

(** [P] holds at a node and at every node below it. *)
Inductive Forall_nodes (P : Node -> Prop) : Node -> Prop :=
| Forall_nodes_intro m ids :
    P (mkNode m ids) ->
    (forall k n, m !! k = Some n -> Forall_nodes P n) ->
    Forall_nodes P (mkNode m ids).

(** The branching cap of a node: at most [MaxChildren] children, and
    strictly fewer while the wildcard child is missing. *)
Definition capped (cfg : Config) (n : Node) : Prop :=
  children n <= MaxChildren cfg /\
  (keyToChildNode n !! ParamString cfg = None -> children n < MaxChildren cfg).

(** Every candidate of the node is a cluster whose template has [n]
    tokens, according to the ledger [G] of the clusters created so far. *)
Definition candidates_of_length (G : gmap Z nat) (n : nat) (nd : Node) : Prop :=
  forall id, id ∈ clusterIDs nd -> G !! id = Some n.

(** The state of an engine that [Train] and [Match] maintain.  [G] records,
    for every cluster identifier handed out so far, the token count of its
    template. *)
Record Inv (G : gmap Z nat) (d : Drain) : Prop := mkInv {
  inv_cache : forall id v, resolve (idToCluster d) id = Some v ->
    cluster_id v = id /\ G !! id = Some (length (Tokens v));
  inv_ids : forall id n, G !! id = Some n -> 1 <= id <= clustersCounter d;
  inv_counter : 0 <= clustersCounter d;
  inv_size : forall l, cache (idToCluster d) = Some l -> 0 < lru_size l;
  inv_tree : forall key nd, keyToChildNode (rootNode d) !! key = Some nd ->
    exists n : nat, key = Itoa (Z.of_nat n)
                    /\ Forall_nodes (candidates_of_length G n) nd
}.

(** What keeps [Train] from faulting besides [Inv]: a cache that is not
    nil and not over its capacity, capped nodes, and clusters whose volume
    has a bucket. *)
Record Sound (d : Drain) : Prop := mkSound {
  sound_cache : exists l, cache (idToCluster d) = Some l
                          /\ len (evictList l) <= lru_size l;
  sound_tree : forall key nd, keyToChildNode (rootNode d) !! key = Some nd ->
    Forall_nodes (capped (config d)) nd;
  sound_volume : forall id v, resolve (idToCluster d) id = Some v ->
    Values (cluster_Volume v) <> []
}.

(** [c'] is [c] after reads: the same entries under the same keys, the
    same capacity, no more elements; only the recency order may differ. *)
Definition touched (c c' : LogClusterCache) : Prop :=
  (forall k, resolve c' k = resolve c k)
  /\ match cache c, cache c' with
     | Some l, Some l' =>
         lru_size l' = lru_size l /\ len (evictList l') <= len (evictList l)
     | None, None => True
     | _, _ => False
     end.

(** The branching policy of [addSeqToPrefixTree] at one node: the key the
    loop moves under, and the node it moves to (a fresh node where the
    code creates one, nothing where the code reads a missing key). *)
Definition route `{GoStdlib} (cfg : Config) (curNode : Node) (token : string)
  : string * option Node :=
  match keyToChildNode curNode !! token with
  | Some n => (token, Some n)
  | None =>
      if negb (hasNumbers token) then
        match keyToChildNode curNode !! ParamString cfg with
        | Some w =>
            if children curNode <? MaxChildren cfg then (token, Some createNode)
            else (ParamString cfg, Some w)
        | None =>
            if children curNode + 1 <? MaxChildren cfg then (token, Some createNode)
            else if children curNode + 1 =? MaxChildren cfg
                 then (ParamString cfg, Some createNode)
                 else (ParamString cfg, None)
        end
      else
        match keyToChildNode curNode !! ParamString cfg with
        | None => (ParamString cfg, Some createNode)
        | Some w => (ParamString cfg, Some w)
        end
  end.

(** [t'] has a wildcard wherever [t] has one. *)
Definition generalizes (param : string) (t t' : list string) : Prop :=
  forall i, t !! i = Some param -> t' !! i = Some param.

(** The cluster [id] of the later cache is a cluster of the earlier one
    whose template it generalizes, or it was created in between. *)
Definition descends (param : string) (counter : Z) (c c' : LogClusterCache) : Prop :=
  forall id m', resolve c' id = Some m' ->
    (exists m, resolve c id = Some m /\ generalizes param (Tokens m) (Tokens m'))
    \/ counter < id.

(** Every node below the root is capped. *)
Definition all_capped (d : Drain) : Prop :=
  forall key nd, keyToChildNode (rootNode d) !! key = Some nd ->
                 Forall_nodes (capped (config d)) nd.

(** The candidates that resolve, in the order of the candidate list, each
    with its score and wildcard count against the line. *)
Definition scored (cfg : Config) (tokens : list string)
    (includeParams : bool) (c : LogClusterCache) (clusterIDs : list Z)
  : list (LogCluster * (float64 * Z)) :=
  omap (fun id => (fun m => (m, seqDistance cfg (Tokens m) tokens includeParams))
                    <$> resolve c id) clusterIDs.

(** The selection rule as the specification words it: the score of [C] is
    strictly the highest among the candidates that resolve, a tie going to
    the higher wildcard count, and it reaches the threshold. *)
Definition strictly_best (simTh : float64)
    (l : list (LogCluster * (float64 * Z))) (C : LogCluster) : Prop :=
  exists s, (C, s) ∈ l
    /\ (forall D sD, (D, sD) ∈ l -> D <> C ->
          ltb sD.1 s.1 = true \/ (eqb sD.1 s.1 = true /\ sD.2 < s.2))
    /\ geb s.1 simTh = true.

(** The selection rule of the code: the candidate at position [k] makes
    every earlier candidate give way and gives way to no later one. *)
Definition first_best (l : list (LogCluster * (float64 * Z))) (k : nat)
    (C : LogCluster) (s : float64 * Z) : Prop :=
  l !! k = Some (C, s)
  /\ (forall j D sD, l !! j = Some (D, sD) -> (j < k)%nat ->
        beats s sD.1 sD.2 = true)
  /\ (forall j D sD, l !! j = Some (D, sD) -> (k < j)%nat ->
        beats sD s.1 s.2 = false).

(** One step of the scan on a candidate that resolves. *)
Definition pick (b : best) (e : LogCluster * (float64 * Z)) : best :=
  if beats e.2 (maxSim b) (maxParamCount b)
  then mkBest e.2.1 e.2.2 (Some e.1) else b.

(** Number of positions whose template token is not the wildcard marker
    and equals the token of the line. *)
Definition literalMatches (param : string) (seq1 seq2 : list string) : Z :=
  len (filter (fun p => p.1 <> param /\ p.1 = p.2) (zip seq1 seq2)).

(** Number of wildcard positions of a template, over the positions it
    shares with the line. *)
Definition wildcards (param : string) (seq1 seq2 : list string) : Z :=
  len (filter (fun p => p.1 = param) (zip seq1 seq2)).

(** Successive merges of the lines into a template. *)
Fixpoint merges (cfg : Config) (template : list string)
    (lines : list (list string)) : result (list string) :=
  match lines with
  | [] => Ok template
  | line :: lines =>
      template ← createTemplate cfg line template;
      merges cfg template lines
  end.

Definition line_of (c : call) : string :=
  match c with
  | CallTrain content _ => content
  | CallMatch content => content
  end.

Fixpoint div_chain (n : nat) (x : float64) (px : PrimFloat.float)
    (y : float64) (py : PrimFloat.float) : bool :=
  match n with
  | O => true
  | S n => same x (of_prim px)
           && div_chain n (F64.div x y) (PrimFloat.div px py) y py
  end.

(** [max_clusters = 2], the other options as in [DefaultConfig] *)
Definition two_clusters : Config :=
  mkConfig 0 4 (lit (4 # 10)) 100 [] 2 "<*>".

(** What a caller reads off a returned cluster. *)
Definition summary (c : LogCluster) : Z * Z * list string * Z :=
  (cluster_id c, Size c, Tokens c, Matches (cluster_Volume c)).

(** The engine [New(DefaultConfig())] returns, and the state of a new
    engine after a list of calls (the new engine itself if they panic). *)
Definition engine0 : Drain :=
  mkDrain (mkConfig 2 4 (lit (4 # 10)) 100 [] 0 "<*>") createNode
    (mkCache (Some (mkLRU max_int []))) 0.

Definition after `{GoStdlib} (calls : list call) : list (option LogCluster) * Drain :=
  match run engine0 calls with
  | Ok r => r
  | Panic _ => ([], engine0)
  end.

(** An engine that holds the two clusters "x a b c d" and "x e f g h". *)
Definition two_candidates : Drain :=
  mkDrain (mkConfig 2 4 (lit (4 # 10)) 100 [] 0 "<*>") createNode
    (mkCache (Some (mkLRU max_int
       [(2, mkLogCluster 2 1 ["x"; "e"; "f"; "g"; "h"] ["x e f g h"] (initVolume 0));
        (1, mkLogCluster 1 1 ["x"; "a"; "b"; "c"; "d"] ["x a b c d"] (initVolume 0))])))
    2.

(** [strings.Join(elems, sep)] *)
Fixpoint Join (elems : list string) (sep : string) : string :=
  match elems with
  | [] => EmptyString
  | [e] => e
  | e :: elems => e +:+ sep +:+ Join elems sep
  end.

(** [getTemplate] of a [LogCluster], which its [String] method returns *)
Definition getTemplate (c : LogCluster) : string := Join (Tokens c) " ".

Definition LogCluster_String (c : LogCluster) : string := getTemplate c.

(** The bytes of a string. *)
Definition bytes (s : string) : list ascii := list_ascii_of_string s.

(** [x.Values[i][0]] *)
Definition timestamp_at (vs : list (Z * Z)) (i : Z) : Z :=
  match vs !! Z.to_nat i with
  | Some v => v.1
  | None => 0
  end.

(** [ForRange]; [None] is the run-time panic of the slice expression
    [x.Values[lo:hi]] when [lo > hi].  The volume returned is a view of
    the same buckets. *)
Definition ForRange (x : Volume) (start end_ : Z) : option Volume :=
  let vs := Values x in
  match head vs, last vs with
  | Some first, Some last =>
      if (end_ <=? start) || (end_ <=? first.1) || (last.1 <? start) then
        Some (mkVolume [])
      else
        let lo :=
          if first.1 <? start
          then Search (len vs) (fun i => start <=? timestamp_at vs i)
          else 0 in
        let hi :=
          if end_ <? last.1
          then Search (len vs) (fun i => end_ <=? timestamp_at vs i)
          else len vs in
        if hi <? lo then None
        else Some (mkVolume (take (Z.to_nat (hi - lo)) (drop (Z.to_nat lo) vs)))
  | _, _ => Some (mkVolume [])
  end.

(** The buckets are in the order of their timestamps, one bucket a
    timestamp. *)
Definition ascending (vs : list (Z * Z)) : Prop :=
  StronglySorted (fun a b => a.1 < b.1) vs.

(** The sum of the counts, unwrapped. *)
Definition total (vs : list (Z * Z)) : Z := foldr (fun v s => v.2 + s) 0 vs.

(** A cache as [simplelru] keeps it: one element a key, no more elements
    than its size, a positive size. *)
Definition wf_LRU (l : LRU) : Prop :=
  NoDup (evictList l).*1
  /\ len (evictList l) <= lru_size l
  /\ 0 < lru_size l.

(** [Iterate]: [fn] is called on the clusters from the oldest on until it
    returns false.  [fn] is a closure; [S] is the state it captures, and
    it does not call back into the engine. *)
Fixpoint iterate_loop {S} (l : LRU) (keys : list Z)
    (fn : LogCluster -> S -> bool * S) (s : S) : S :=
  match keys with
  | [] => s
  | key :: keys =>
      match LRU_Peek l key with
      | Some value =>
          let '(continue, s) := fn value s in
          if continue then iterate_loop l keys fn s else s
      | None => iterate_loop l keys fn s
      end
  end.

Definition Cache_Iterate {S} (c : LogClusterCache)
    (fn : LogCluster -> S -> bool * S) (s : S) : result S :=
  match cache c with
  | None => Panic NilCache
  | Some l => Ok (iterate_loop l (LRU_Keys l) fn s)
  end.

Definition Iterate {S} (d : Drain) (fn : LogCluster -> S -> bool * S) (s : S)
  : result S :=
  Cache_Iterate (idToCluster d) fn s.

(** Calling [fn] on the clusters of a list until it returns false. *)
Fixpoint visit {S} (fn : LogCluster -> S -> bool * S) (values : list LogCluster)
    (s : S) : S :=
  match values with
  | [] => s
  | value :: values =>
      let '(continue, s) := fn value s in
      if continue then visit fn values s else s
  end.

(** The template [t] stands for the line [tokens]: position by position
    it holds the wildcard marker or the token of the line. *)
Definition covers (param : string) (t tokens : list string) : Prop :=
  Forall2 (fun a tok => a = param \/ a = tok) t tokens.

(** The lines that the [Train] calls of a run put into the cluster [id],
    in the order of the calls. *)
Definition trained (id : Z) (calls : list call) (outs : list (option LogCluster))
  : list string :=
  omap (fun p => match p.1, p.2 with
                 | CallTrain content _, Some m =>
                     if bool_decide (cluster_id m = id) then Some content else None
                 | _, _ => None
                 end) (zip calls outs).

(** The clusters of the engine [d] agree with the lines [lines id] put
    into them by at most [n] calls: a cluster that resolves has at least
    one line, its size is their number, its samples are the first
    [maxSamples] of them, and its template stands for each of them. *)
Definition recorded `{GoStdlib} (cfg : Config) (n : Z) (d : Drain)
    (lines : Z -> list string) : Prop :=
  (forall id, clustersCounter d < id -> lines id = [])
  /\ (forall id, len (lines id) <= n)
  /\ forall id v, resolve (idToCluster d) id = Some v ->
       lines id <> []
       /\ Size v = len (lines id)
       /\ Samples v = take (Z.to_nat maxSamples) (lines id)
       /\ Forall (fun line => covers (ParamString cfg) (Tokens v)
                                (getContentAsTokens cfg line)) (lines id).

(** The capacity [createLogClusterCache] gives the cache. *)
Definition capacity (cfg : Config) : Z :=
  if MaxClusters cfg =? 0 then max_int else MaxClusters cfg.

Definition is_Match (c : call) : bool :=
  match c with
  | CallMatch _ => true
  | CallTrain _ _ => false
  end.

(** The identifiers of the clusters that the [Train] calls of a run
    return with [Size] 1, in the order of the calls. *)
Definition created (calls : list call) (outs : list (option LogCluster)) : list Z :=
  omap (fun p => match p.1, p.2 with
                 | CallTrain _ _, Some m =>
                     if Size m =? 1 then Some (cluster_id m) else None
                 | _, _ => None
                 end) (zip calls outs).

(** The engine [New] returns for a configuration (the default engine if
    it panics), and the outcome of a list of calls on an engine (nothing
    if they panic). *)
Definition engine_of (cfg : Config) : Drain :=
  match New cfg with
  | Ok d => d
  | Panic _ => engine0
  end.

Definition run_on `{GoStdlib} (d : Drain) (calls : list call)
  : list (option LogCluster) * Drain :=
  match run d calls with
  | Ok r => r
  | Panic _ => ([], d)
  end.

(** [max_clusters = -1] and [max_children = 0], the other options as in
    [DefaultConfig] *)
Definition no_cache : Config :=
  mkConfig 0 4 (lit (4 # 10)) 100 [] (-1) "<*>".


(** A cache of size 2 that holds the clusters 1 (older) and 2. *)
Definition full_cache : LRU :=
  mkLRU 2 [(2, mkLogCluster 2 1 ["b"; "c"] ["b c"] (initVolume 0));
           (1, mkLogCluster 1 1 ["a"] ["a"] (initVolume 0))].

(* ===================================================================== *)
(** * Properties *)

(** ** The result monad *)

Lemma bind_Ok {A B} (m : result A) (f : A -> result B) (b : B) :
  m ≫= f = Ok b <-> exists a, m = Ok a /\ f a = Ok b.
Proof.
  destruct m as [a|p]; simpl; split.
  - intros Hf. exists a. done.
  - intros (a' & [= <-] & Hf). done.
  - discriminate.
  - intros (a' & [=] & _).
Qed.

Lemma bind_Panic {A B} (m : result A) (f : A -> result B) (p : panic) :
  m ≫= f = Panic p <-> m = Panic p \/ exists a, m = Ok a /\ f a = Panic p.
Proof.
  destruct m as [a|q]; simpl; split.
  - intros Hf. right. exists a. done.
  - intros [[=]|(a' & [= <-] & Hf)]. done.
  - intros [= <-]. by left.
  - intros [[= <-]|(a' & [=] & _)]. done.
Qed.

Lemma raises_Ok {A} (P : panic -> Prop) (a : A) : raises P (Ok a).
Proof. intros p [=]. Qed.

Lemma raises_Panic {A} (P : panic -> Prop) (p : panic) :
  P p -> raises P (@Panic A p).
Proof. intros HP q [= <-]. done. Qed.

Lemma raises_bind {A B} (P : panic -> Prop) (m : result A) (f : A -> result B) :
  raises P m -> (forall a, m = Ok a -> raises P (f a)) -> raises P (m ≫= f).
Proof.
  intros Hm Hf p [Hp|(a & Ha & Hp)]%bind_Panic.
  - by apply Hm.
  - by apply (Hf a).
Qed.

Lemma raises_weaken {A} (P Q : panic -> Prop) (m : result A) :
  (forall p, P p -> Q p) -> raises P m -> raises Q m.
Proof. intros HPQ Hm p Hp. apply HPQ, Hm, Hp. Qed.

Create HintDb raises.
#[local] Hint Resolve raises_Ok : raises.

(** ** float64: the model against the kernel's binary64 *)

(** Repeated division walks through the normal range, the subnormal range
    and underflow to zero, and, dividing by a third, up to overflow. *)
Example div_agrees_with_binary64 :
  div_chain 720 one 1%float (of_int 3) 3%float = true /\
  div_chain 720 one 1%float (of_int (-7)) (-7)%float = true /\
  div_chain 720 one 1%float (F64.div one (of_int 3)) (1 / 3)%float = true /\
  forallb (fun '(a, b) => same (F64.div (of_int a) (of_int b)) (of_prim (prim_div a b)))
    [(2, 5); (1, 3); (2, 3); (5, 7); (0, 0); (0, 5); (5, 0); (7, 7);
     (9007199254740993, 3); (9007199254740993, 1); (9007199254740995, 1);
     (4611686018427387903, 7); (3, 4611686018427387903)] = true.
Proof. vm_compute. done. Qed.

Lemma half_even_lower (a b : Z) : 0 < b -> a / b <= half_even a b.
Proof.
  intros Hb. unfold half_even.
  destruct (2 * (a mod b) ?= b); [destruct (Z.even (a / b))|..]; lia.
Qed.

Lemma of_int_pos (z : Z) : 0 < z -> exists q, of_int z = Fin q /\ (0 < q)%Q.
Proof.
  intros Hz. unfold of_int.
  destruct (Z.leb_spec (Z.log2 (Z.abs z) - 52) 0) as [Hk|Hk].
  - eexists. split; [done|]. unfold Qlt. simpl. lia.
  - eexists. split; [done|]. unfold Qlt. simpl.
    rewrite Z.abs_eq in * by lia.
    assert (Z.sgn z = 1) as -> by lia.
    assert (0 < 2 ^ (Z.log2 z - 52)) by (apply Z.pow_pos_nonneg; lia).
    assert (1 <= z / 2 ^ (Z.log2 z - 52)).
    { apply Z.div_le_lower_bound; [lia|].
      rewrite Z.mul_1_r. etrans; [|apply Z.log2_spec; lia].
      apply Z.pow_le_mono_r; lia. }
    pose proof (half_even_lower z (2 ^ (Z.log2 z - 52))). nia.
Qed.

(** A positive integer divided by itself is exactly one. *)
Lemma div_self (z : Z) : 0 < z -> F64.div (of_int z) (of_int z) = one.
Proof.
  intros (q & -> & Hq)%of_int_pos. unfold F64.div.
  assert (is_zero q = false) as ->.
  { unfold is_zero. destruct q as [[] ?]; done. }
  unfold round64.
  rewrite (Qred_complete (q / q) 1); [done|].
  apply Qmult_inv_r. intros Heq. rewrite Heq in Hq. by apply Qlt_irrefl in Hq.
Qed.

(** ** sort.Search: the fuel is enough *)

Lemma search_loop_fuel (f : Z -> bool) (fuel extra : nat) (i j : Z) :
  j - i <= Z.of_nat fuel ->
  search_loop (fuel + extra) f i j = search_loop fuel f i j.
Proof.
  revert i j. induction fuel as [|fuel IH]; intros i j Hfuel; simpl.
  - destruct extra; simpl; [done|]. destruct (Z.ltb_spec i j); [lia|done].
  - destruct (Z.ltb_spec i j); [|done].
    assert (i <= (i + j) / 2 < j).
    { split; [apply Z.div_le_lower_bound|apply Z.div_lt_upper_bound]; lia. }
    destruct (f _); simpl; apply IH; lia.
Qed.

Lemma search_loop_range (f : Z -> bool) (fuel : nat) (i j : Z) :
  i <= j -> i <= search_loop fuel f i j <= j.
Proof.
  revert i j. induction fuel as [|fuel IH]; intros i j Hij; simpl; [lia|].
  destruct (Z.ltb_spec i j); [|lia].
  assert (i <= (i + j) / 2 < j).
  { split; [apply Z.div_le_lower_bound|apply Z.div_lt_upper_bound]; lia. }
  destruct (f _); simpl.
  - specialize (IH i ((i + j) / 2)). lia.
  - specialize (IH ((i + j) / 2 + 1) j). lia.
Qed.

(** ** Tokenization *)

Lemma Split_nonempty (s : string) (sep : ascii) : Split s sep <> [].
Proof.
  destruct s as [|c s]; simpl; [done|].
  destruct (Ascii.eqb c sep); [done|]. by destruct (Split s sep).
Qed.

(** ** Which panics a function can raise *)

Ltac raises_step :=
  match goal with
  | |- raises _ (Ok _) => apply raises_Ok
  | |- raises _ (Panic _) => apply raises_Panic; done
  | |- raises _ (_ ≫= _) => apply raises_bind; [|intros ? ?]
  | |- raises _ (match ?x with _ => _ end) => destruct x eqn:?
  | |- raises _ (if ?x then _ else _) => destruct x eqn:?
  | |- raises _ (let '(_, _) := ?x in _) => destruct x eqn:?
  end.

Lemma raises_not {A} (q : panic) (m : result A) :
  raises (fun p => p <> q) m -> m <> Panic q.
Proof. intros Hr Hm. by apply Hr in Hm. Qed.


Section Panics.
Context `{GoStdlib}.
Context (P : panic -> Prop).

Lemma Cache_Get_raises c key : P NilCache -> raises P (Cache_Get c key).
Proof. intros. unfold Cache_Get. repeat raises_step. Qed.

Lemma Cache_Set_raises c key v : P NilCache -> raises P (Cache_Set c key v).
Proof. intros. unfold Cache_Set. repeat raises_step. Qed.

Lemma getSeqDistance_raises cfg seq1 seq2 inc :
  P LenMismatch -> raises P (getSeqDistance cfg seq1 seq2 inc).
Proof. intros. unfold getSeqDistance. repeat raises_step. Qed.

Lemma createTemplate_raises cfg seq1 seq2 :
  P LenMismatch -> raises P (createTemplate cfg seq1 seq2).
Proof. intros. unfold createTemplate. repeat raises_step. Qed.

Lemma Add_raises x ts : P NoBucket -> raises P (Add x ts).
Proof. intros. unfold Add. repeat raises_step. Qed.

Lemma LogCluster_append_raises c content ts :
  P NoBucket -> raises P (LogCluster_append c content ts).
Proof.
  intros. unfold LogCluster_append.
  raises_step; [by apply Add_raises|raises_step].
Qed.

Lemma fastMatch_loop_raises cfg tokens inc ids st :
  P NilCache -> P LenMismatch ->
  raises P (fastMatch_loop cfg tokens inc ids st).
Proof.
  intros. revert st. induction ids as [|id ids IH]; intros st; simpl; [raises_step|].
  raises_step; [|apply IH].
  unfold fastMatch_step. destruct st as [b c].
  raises_step; [by apply Cache_Get_raises|].
  repeat first [by apply getSeqDistance_raises | raises_step].
Qed.

Lemma fastMatch_raises d ids tokens simTh inc :
  P NilCache -> P LenMismatch ->
  raises P (fastMatch d ids tokens simTh inc).
Proof.
  intros. unfold fastMatch. raises_step; [by apply fastMatch_loop_raises|].
  repeat raises_step.
Qed.

Lemma treeSearch_raises d root tokens simTh inc :
  P NilCache -> P LenMismatch -> (tokens = [] -> P NoCandidate) ->
  raises P (treeSearch d root tokens simTh inc).
Proof.
  intros ? ? Hne. unfold treeSearch.
  destruct (keyToChildNode root !! Itoa (len tokens)); [|raises_step].
  destruct (Z.eqb_spec (len tokens) 0) as [Hz|Hz].
  - assert (tokens = []) as ->.
    { destruct tokens; [done|]. unfold len in Hz. simpl in Hz. lia. }
    destruct (clusterIDs n); [apply raises_Panic; auto|].
    raises_step; [by apply Cache_Get_raises|]. repeat raises_step.
  - repeat first [by apply fastMatch_raises | raises_step].
Qed.

Lemma liveIDs_raises ids c : P NilCache -> raises P (liveIDs ids c).
Proof.
  intros. revert c. induction ids as [|id ids IH]; intros c; simpl; [raises_step|].
  raises_step; [by apply Cache_Get_raises|]. destruct a.
  raises_step; [apply IH|]. repeat raises_step.
Qed.

Lemma addLoop_raises cfg cluster tokenCount tokens depth curNode c :
  P NilCache -> P NilNode ->
  raises P (addLoop cfg cluster tokenCount tokens depth curNode c).
Proof.
  intros. revert depth curNode c.
  induction tokens as [|token tokens IH]; intros depth curNode c; simpl;
    [raises_step|].
  repeat first [by apply liveIDs_raises | apply IH | raises_step].
Qed.

Lemma addSeqToPrefixTree_raises d root cluster :
  P NilCache -> P NilNode ->
  raises P (addSeqToPrefixTree d root cluster).
Proof.
  intros. unfold addSeqToPrefixTree.
  repeat first [by apply addLoop_raises | raises_step].
Qed.

End Panics.


Section Tokens.
Context `{GoStdlib}.

Lemma getContentAsTokens_nonempty cfg content :
  getContentAsTokens cfg content <> [].
Proof. apply Split_nonempty. Qed.

Lemma len_nonempty {A} (l : list A) : l <> [] -> (len l =? 0) = false.
Proof. destruct l; [done|]. intros _. unfold len. simpl. lia. Qed.

(** C10. Tokenization yields at least one token for every line, the empty
    and the blank ones included, so the [tokenCount == 0] test of
    [treeSearch] and of [addSeqToPrefixTree] is false for the tokens that
    [Train] and [Match] pass on, and neither call can fault at the
    unguarded [curNode.clusterIDs[0]]. *)
Theorem tokenization_never_empty (cfg : Config) (d : Drain)
    (content : string) (ts : Z) :
  1 <= len (getContentAsTokens cfg content) /\
  (len (getContentAsTokens cfg content) =? 0) = false /\
  Match d content <> Panic NoCandidate /\
  Train d content ts <> Panic NoCandidate.
Proof.
  pose proof (getContentAsTokens_nonempty cfg content) as Hne.
  assert (1 <= len (getContentAsTokens cfg content)) as Hlen.
  { unfold len. destruct (getContentAsTokens cfg content); [done|simpl; lia]. }
  split; [done|]. split; [lia|]. split.
  - apply raises_not. unfold Match.
    apply treeSearch_raises; try done.
    intros Hnil. by apply getContentAsTokens_nonempty in Hnil.
  - apply raises_not. unfold Train.
    raises_step.
    { apply treeSearch_raises; try done.
      intros Hnil. by apply getContentAsTokens_nonempty in Hnil. }
    repeat first [by apply Cache_Set_raises | by apply Cache_Get_raises
                 | by apply addSeqToPrefixTree_raises | by apply createTemplate_raises
                 | by apply LogCluster_append_raises | raises_step].
Qed.

End Tokens.


(** ** The cache *)

Lemma items_remove_key l key k :
  items (remove_key l key) k = if bool_decide (k = key) then None else items l k.
Proof.
  unfold remove_key. induction l as [|[k' v] l IH]; simpl.
  - by case_bool_decide.
  - rewrite filter_cons. simpl. destruct (decide (k' ≠ key)) as [Hne|Heq]; simpl.
    + rewrite IH. repeat case_bool_decide; congruence.
    + rewrite IH. apply dec_stable in Heq. repeat case_bool_decide; congruence.
Qed.

Lemma items_MoveToFront l key v k :
  items (MoveToFront l key v) k
  = if bool_decide (k = key) then Some v else items l k.
Proof.
  unfold MoveToFront. simpl. rewrite items_remove_key.
  repeat case_bool_decide; congruence.
Qed.

Lemma items_removelast l k x :
  items (removelast l) k = Some x -> items l k = Some x.
Proof.
  induction l as [|e l IH]; simpl; [done|].
  destruct l as [|e' l]; [done|].
  change (removelast (e' :: l)) with (removelast (e' :: l)) in *.
  simpl items at 1. case_bool_decide; [done|]. apply IH.
Qed.

Lemma items_elem_of l k v : items l k = Some v -> (k, v) ∈ l.
Proof.
  induction l as [|[k' v'] l IH]; simpl; [done|].
  case_bool_decide; simpl in *.
  - intros [= <-]. subst. left.
  - intros Hl. right. by apply IH.
Qed.

Lemma length_removelast {A} (l : list A) :
  length (removelast l) = Nat.pred (length l).
Proof. rewrite removelast_firstn_len, length_take. lia. Qed.

Lemma length_remove_key_le l key :
  (length (remove_key l key) <= length l)%nat.
Proof. apply length_filter. Qed.

Lemma length_remove_key_lt l key v :
  (key, v) ∈ l -> (length (remove_key l key) < length l)%nat.
Proof.
  unfold remove_key. induction l as [|e es IH]; intros Hin.
  - by apply elem_of_nil in Hin.
  - rewrite filter_cons. apply elem_of_cons in Hin as [<-|Hin]; simpl.
    + destruct (decide (key ≠ key)); [done|].
      pose proof (length_remove_key_le es key). unfold remove_key in *. lia.
    + specialize (IH Hin). destruct (decide (e.1 ≠ key)); simpl; lia.
Qed.

Lemma Cache_Get_Ok c key o c' :
  Cache_Get c key = Ok (o, c') ->
  o = resolve c key
  /\ (forall k, resolve c' k = resolve c k)
  /\ exists l l', cache c = Some l /\ cache c' = Some l'
       /\ lru_size l' = lru_size l
       /\ len (evictList l') <= len (evictList l).
Proof.
  unfold Cache_Get, resolve.
  destruct (cache c) as [l|] eqn:Hc; [|done].
  unfold LRU_Get. destruct (items (evictList l) key) as [v|] eqn:Hi;
    intros [= <- <-]; cbn [cache evictList lru_size].
  - split; [done|]. split.
    + intros k. rewrite items_MoveToFront. case_bool_decide; congruence.
    + exists l. eexists. repeat split; try done. simpl.
      apply items_elem_of, length_remove_key_lt in Hi.
      unfold len. simpl. lia.
  - split; [done|]. split; [done|]. exists l, l. repeat split; try done.
Qed.

Lemma Cache_Get_resolve c key :
  is_Some (cache c) -> exists c', Cache_Get c key = Ok (resolve c key, c').
Proof.
  intros [l Hl]. unfold Cache_Get, resolve. rewrite Hl.
  unfold LRU_Get. destruct (items _ _); eauto.
Qed.

Lemma Cache_Set_Ok c key v c' :
  Cache_Set c key v = Ok c' ->
  (forall l, cache c = Some l -> 0 < lru_size l) ->
  resolve c' key = Some v
  /\ (forall k x, k <> key -> resolve c' k = Some x -> resolve c k = Some x)
  /\ exists l l', cache c = Some l /\ cache c' = Some l'
       /\ lru_size l' = lru_size l
       /\ (len (evictList l) <= lru_size l -> len (evictList l') <= lru_size l).
Proof.
  unfold Cache_Set, resolve.
  destruct (cache c) as [l|] eqn:Hc; [|done].
  intros [= <-] Hsize. specialize (Hsize l eq_refl). cbn [cache].
  unfold LRU_Add. destruct (items (evictList l) key) as [v0|] eqn:Hi;
    cbn [cache evictList lru_size].
  - split; [|split].
    + rewrite items_MoveToFront. by rewrite bool_decide_eq_true_2.
    + intros k x Hk. rewrite items_MoveToFront.
      by rewrite bool_decide_eq_false_2.
    + exists l. eexists. repeat split; try done. simpl. intros Hle.
      apply items_elem_of, length_remove_key_lt in Hi.
      unfold len in *. simpl. lia.
  - destruct (Z.ltb_spec (lru_size l) (len ((key, v) :: evictList l))) as [Hlt|Hge];
      cbn [cache evictList lru_size].
    + destruct (evictList l) as [|e es] eqn:He.
      { unfold len in Hlt. simpl in Hlt. lia. }
      split; [|split].
      * change (removelast ((key, v) :: e :: es))
          with ((key, v) :: removelast (e :: es)).
        cbn [items fst snd]. by rewrite bool_decide_eq_true_2.
      * intros k x Hk Hr. apply items_removelast in Hr.
        simpl in Hr. rewrite bool_decide_eq_false_2 in Hr by done. done.
      * exists l. eexists. repeat split; try done. cbn [evictList]. intros Hle.
        unfold len in *. rewrite length_removelast. rewrite He in Hle.
        simpl in *. lia.
    + split; [|split].
      * cbn [items fst snd]. by rewrite bool_decide_eq_true_2.
      * intros k x Hk. cbn [items fst snd]. by rewrite bool_decide_eq_false_2.
      * exists l. eexists. repeat split; try done.
Qed.

Lemma Cache_Set_is_Ok c key v :
  is_Some (cache c) -> exists c', Cache_Set c key v = Ok c'.
Proof. intros [l Hl]. unfold Cache_Set. rewrite Hl. eauto. Qed.

Lemma resolve_Cache_store c m k :
  resolve (Cache_store c m) k
  = if bool_decide (k = cluster_id m) then (fun _ => m) <$> resolve c k
    else resolve c k.
Proof.
  unfold Cache_store, resolve. destruct (cache c) as [l|] eqn:Hc; cbn [cache evictList].
  - induction (evictList l) as [|[k' v'] es IH]; cbn [map items fst snd].
    + destruct (bool_decide _); reflexivity.
    + cbn [fst]. destruct (decide (k' = cluster_id m)) as [->|Hne].
      * rewrite (bool_decide_eq_true_2 (cluster_id m = cluster_id m)) by done.
        cbn [fst snd]. destruct (decide (k = cluster_id m)) as [->|Hk].
        -- by rewrite !bool_decide_eq_true_2.
        -- rewrite !(bool_decide_eq_false_2 (cluster_id m = k)) by done.
           rewrite IH. by rewrite bool_decide_eq_false_2.
      * rewrite (bool_decide_eq_false_2 (k' = cluster_id m)) by done.
        cbn [fst snd]. destruct (decide (k' = k)) as [->|Hk].
        -- rewrite !bool_decide_eq_true_2 by done.
           by rewrite bool_decide_eq_false_2.
        -- rewrite !(bool_decide_eq_false_2 (k' = k)) by done. apply IH.
  - rewrite Hc. destruct (bool_decide _); reflexivity.
Qed.

Lemma cache_Cache_store c m l :
  cache c = Some l ->
  exists l', cache (Cache_store c m) = Some l'
             /\ lru_size l' = lru_size l
             /\ len (evictList l') = len (evictList l).
Proof.
  intros Hc. unfold Cache_store. rewrite Hc. eexists. split; [done|].
  split; [done|]. unfold len. cbn [evictList]. by rewrite length_map.
Qed.

Lemma touched_refl c : touched c c.
Proof. split; [done|]. destruct (cache c); [lia|done]. Qed.

Lemma touched_trans c1 c2 c3 : touched c1 c2 -> touched c2 c3 -> touched c1 c3.
Proof.
  intros [Hr1 Hc1] [Hr2 Hc2]. split.
  - intros k. by rewrite Hr2, Hr1.
  - destruct (cache c1), (cache c2), (cache c3); try done. lia.
Qed.

Lemma Cache_Get_touched c key o c' :
  Cache_Get c key = Ok (o, c') -> o = resolve c key /\ touched c c'.
Proof.
  intros (-> & Hr & l & l' & Hl & Hl' & Hs & Hlen)%Cache_Get_Ok.
  split; [done|]. split; [done|]. by rewrite Hl, Hl'.
Qed.

Lemma touched_is_Some c c' : touched c c' -> is_Some (cache c) -> is_Some (cache c').
Proof. intros [_ H] [l Hl]. rewrite Hl in H. destruct (cache c'); [eauto|done]. Qed.

(** ** Nodes *)

Lemma Forall_nodes_here P n : Forall_nodes P n -> P n.
Proof. by intros []. Qed.

Lemma Forall_nodes_child P n k c :
  Forall_nodes P n -> keyToChildNode n !! k = Some c -> Forall_nodes P c.
Proof. intros [m ids _ Hc]. simpl. apply Hc. Qed.

Lemma Forall_nodes_impl (P Q : Node -> Prop) n :
  (forall n, P n -> Q n) -> Forall_nodes P n -> Forall_nodes Q n.
Proof. intros HPQ. induction 1; constructor; auto. Qed.

Lemma Forall_nodes_createNode (P : Node -> Prop) :
  P createNode -> Forall_nodes P createNode.
Proof. intros HP. constructor; [done|]. intros k n. by rewrite lookup_empty. Qed.

Lemma Forall_nodes_insert P n k c :
  Forall_nodes P n -> Forall_nodes P c ->
  P (mkNode (<[k := c]> (keyToChildNode n)) (clusterIDs n)) ->
  Forall_nodes P (mkNode (<[k := c]> (keyToChildNode n)) (clusterIDs n)).
Proof.
  intros [m ids _ Hm] Hc HP. constructor; [done|].
  intros k' n'. simpl. rewrite lookup_insert. case_decide.
  - by intros [= <-].
  - apply Hm.
Qed.

Lemma Forall_nodes_ids P n ids' :
  Forall_nodes P n -> P (mkNode (keyToChildNode n) ids') ->
  Forall_nodes P (mkNode (keyToChildNode n) ids').
Proof. intros [m ids _ Hm] HP. by constructor. Qed.

Section Tree.
Context `{GoStdlib}.

Lemma searchLoop_Forall P cfg tokenCount tokens depth cur n :
  Forall_nodes P cur ->
  searchLoop cfg tokenCount tokens depth cur = Some n ->
  Forall_nodes P n.
Proof.
  revert depth cur. induction tokens as [|token tokens IH]; intros depth cur Hcur; simpl.
  - by intros [= <-].
  - destruct (maxNodeDepth cfg <=? depth); [by intros [= <-]|].
    destruct (depth =? tokenCount); [by intros [= <-]|].
    destruct (keyToChildNode cur !! token) as [c|] eqn:Hc.
    { apply IH. by eapply Forall_nodes_child. }
    destruct (keyToChildNode cur !! ParamString cfg) as [c|] eqn:Hp; [|done].
    apply IH. by eapply Forall_nodes_child.
Qed.

Lemma liveIDs_Ok ids c ids' c' :
  liveIDs ids c = Ok (ids', c') ->
  touched c c' /\ (forall id, id ∈ ids' <-> id ∈ ids /\ is_Some (resolve c id)).
Proof.
  revert c ids' c'. induction ids as [|id ids IH]; intros c ids' c'; simpl.
  - intros [= <- <-]. split; [apply touched_refl|].
    intros id. split; [by intros ?%elem_of_nil|by intros [?%elem_of_nil _]].
  - intros ([o c1] & Hget & Hrest)%bind_Ok.
    apply bind_Ok in Hrest as ([ids1 c2] & Hlive & [= <- <-]).
    apply Cache_Get_touched in Hget as [-> Ht1].
    apply IH in Hlive as [Ht2 Hids]. split; [by eapply touched_trans|].
    intros id'. destruct Ht1 as [Hr1 _].
    destruct (resolve c id) as [v|] eqn:Hv.
    + rewrite !elem_of_cons, Hids, Hr1. split.
      * intros [->|[? ?]]; [by rewrite Hv; eauto|eauto].
      * intros [[->|?] ?]; eauto.
    + rewrite elem_of_cons, Hids, Hr1. split.
      * intros [? ?]; eauto.
      * intros [[->|?] Hs]; [|eauto]. rewrite Hv in Hs. by destruct Hs.
Qed.

Lemma liveIDs_is_Ok ids c :
  is_Some (cache c) -> exists r, liveIDs ids c = Ok r.
Proof.
  revert c. induction ids as [|id ids IH]; intros c Hc; simpl; [eauto|].
  destruct (Cache_Get_resolve c id Hc) as [c1 Hget]. rewrite Hget. simpl.
  apply Cache_Get_touched in Hget as [_ Ht].
  destruct (IH c1) as [[ids1 c2] Hlive]; [by eapply touched_is_Some|].
  rewrite Hlive. simpl. eauto.
Qed.

(** The clusters of a leaf keep their token count when a cluster of that
    count is added below the node. *)
Lemma addLoop_candidates G n cfg cluster tokenCount tokens depth cur c n' c' :
  G !! cluster_id cluster = Some n ->
  Forall_nodes (candidates_of_length G n) cur ->
  addLoop cfg cluster tokenCount tokens depth cur c = Ok (n', c') ->
  Forall_nodes (candidates_of_length G n) n' /\ touched c c'.
Proof.
  intros HG. revert depth cur c n' c'.
  induction tokens as [|token tokens IH]; intros depth cur c n' c' Hcur; simpl.
  { intros [= <- <-]. split; [done|apply touched_refl]. }
  assert (forall key child,
    (forall ch, child = Some ch -> Forall_nodes (candidates_of_length G n) ch) ->
    match child with
    | Some n0 =>
        '(n1, c1) ← addLoop cfg cluster tokenCount tokens (depth + 1) n0 c;
        Ok (mkNode (<[key := n1]> (keyToChildNode cur)) (clusterIDs cur), c1)
    | None => match tokens with [] => Ok (cur, c) | _ :: _ => Panic NilNode end
    end = Ok (n', c') ->
    Forall_nodes (candidates_of_length G n) n' /\ touched c c') as Hinto.
  { intros key [ch|] Hch.
    - intros ([n1 c1] & Hadd & [= <- <-])%bind_Ok.
      apply IH in Hadd as [Hn1 Ht]; [|by apply Hch]. split; [|done].
      apply Forall_nodes_insert; [done..|]. by apply Forall_nodes_here in Hcur.
    - destruct tokens; [|done]. intros [= <- <-]. split; [done|apply touched_refl]. }
  destruct ((maxNodeDepth cfg <=? depth) || (tokenCount <=? depth)).
  { intros ([ids1 c1] & Hlive & [= <- <-])%bind_Ok.
    apply liveIDs_Ok in Hlive as [Ht Hids]. split; [|done].
    apply Forall_nodes_ids; [done|].
    intros id. simpl. rewrite elem_of_app, list_elem_of_singleton, Hids.
    intros [[Hin _]| ->]; [|done]. by apply (Forall_nodes_here _ _ Hcur). }
  assert (Forall_nodes (candidates_of_length G n) createNode) as Hnew.
  { apply Forall_nodes_createNode. by intros id ?%elem_of_nil. }
  assert (forall key ch, keyToChildNode cur !! key = Some ch ->
            Forall_nodes (candidates_of_length G n) ch) as Hchild.
  { intros key ch. by apply Forall_nodes_child. }
  destruct (keyToChildNode cur !! token) as [ch|] eqn:Htok.
  { apply (Hinto token (Some ch)). intros ? [= <-]. eauto. }
  destruct (negb (hasNumbers token)).
  - destruct (keyToChildNode cur !! ParamString cfg) as [w|] eqn:Hw.
    + destruct (children cur <? MaxChildren cfg).
      * apply (Hinto token (Some createNode)). by intros ? [= <-].
      * apply (Hinto (ParamString cfg) (Some w)). intros ? [= <-]. eauto.
    + destruct (children cur + 1 <? MaxChildren cfg).
      * apply (Hinto token (Some createNode)). by intros ? [= <-].
      * destruct (children cur + 1 =? MaxChildren cfg).
        -- apply (Hinto (ParamString cfg) (Some createNode)). by intros ? [= <-].
        -- apply (Hinto (ParamString cfg) None). done.
  - destruct (keyToChildNode cur !! ParamString cfg) as [w|] eqn:Hw.
    + apply (Hinto (ParamString cfg) (Some w)). intros ? [= <-]. eauto.
    + apply (Hinto (ParamString cfg) (Some createNode)). by intros ? [= <-].
Qed.

End Tree.

Section Insertion.
Context `{GoStdlib}.

Lemma addLoop_cons cfg cluster tokenCount token tokens depth cur c :
  addLoop cfg cluster tokenCount (token :: tokens) depth cur c =
  if (maxNodeDepth cfg <=? depth) || (tokenCount <=? depth) then
    '(ids, c) ← liveIDs (clusterIDs cur) c;
    Ok (mkNode (keyToChildNode cur) (ids ++ [cluster_id cluster]), c)
  else
    match route cfg cur token with
    | (key, Some n0) =>
        '(n1, c1) ← addLoop cfg cluster tokenCount tokens (depth + 1) n0 c;
        Ok (mkNode (<[key := n1]> (keyToChildNode cur)) (clusterIDs cur), c1)
    | (key, None) =>
        match tokens with
        | [] => Ok (cur, c)
        | _ :: _ => Panic NilNode
        end
    end.
Proof.
  unfold route. simpl.
  repeat match goal with
         | |- context [if ?b then _ else _] => destruct b
         | |- context [match ?x with Some _ => _ | None => _ end] => destruct x
         end; reflexivity.
Qed.

(** The key chosen for a token is the token itself or, for a token that
    has no child of its own, the wildcard marker. *)
Lemma route_key cfg cur token key child :
  route cfg cur token = (key, child) ->
  key = token
  \/ (key = ParamString cfg /\ keyToChildNode cur !! token = None).
Proof.
  unfold route.
  repeat match goal with
         | |- context [if ?b then _ else _] => destruct b
         | |- context [match ?x with Some _ => _ | None => _ end] =>
             destruct x eqn:?
         end; intros [= <- <-]; auto.
Qed.

Lemma children_insert n key n1 :
  children (mkNode (<[key := n1]> (keyToChildNode n)) (clusterIDs n))
  = match keyToChildNode n !! key with
    | Some _ => children n
    | None => children n + 1
    end.
Proof.
  unfold children. simpl. rewrite map_size_insert.
  destruct (keyToChildNode n !! key); simpl; lia.
Qed.

Lemma capped_insert_iff cfg n key n1 :
  capped cfg (mkNode (<[key := n1]> (keyToChildNode n)) (clusterIDs n)) <->
  let k := match keyToChildNode n !! key with
           | Some _ => children n
           | None => children n + 1
           end in
  k <= MaxChildren cfg
  /\ (key <> ParamString cfg -> keyToChildNode n !! ParamString cfg = None ->
      k < MaxChildren cfg).
Proof.
  unfold capped. rewrite children_insert. cbn [keyToChildNode].
  rewrite lookup_insert. case_decide as Hk; simpl.
  - subst. split; intros [? ?]; (split; [done|]); intros; done.
  - split; intros [? ?]; (split; [done|]); auto.
Qed.

Lemma capped_insert cfg n key n1 n2 :
  capped cfg (mkNode (<[key := n1]> (keyToChildNode n)) (clusterIDs n)) ->
  capped cfg (mkNode (<[key := n2]> (keyToChildNode n)) (clusterIDs n)).
Proof. by rewrite !capped_insert_iff. Qed.

(** Under the cap, with [MaxChildren >= 1], the loop always has a node to
    move to: an existing child, or a fresh one whose insertion keeps the
    cap. *)
Lemma route_capped cfg cur token :
  1 <= MaxChildren cfg -> capped cfg cur ->
  exists key ch, route cfg cur token = (key, Some ch)
    /\ capped cfg (mkNode (<[key := ch]> (keyToChildNode cur)) (clusterIDs cur))
    /\ (keyToChildNode cur !! key = Some ch \/ ch = createNode).
Proof.
  intros Hmax [Hle Hlt]. unfold route.
  destruct (keyToChildNode cur !! token) as [ch|] eqn:Htok.
  { exists token, ch. split; [done|]. split; [|by left].
    apply capped_insert_iff. rewrite Htok. simpl. split; [done|]. auto. }
  destruct (negb (hasNumbers token)).
  - destruct (keyToChildNode cur !! ParamString cfg) as [w|] eqn:Hw.
    + destruct (Z.ltb_spec (children cur) (MaxChildren cfg)).
      * exists token, createNode. split; [done|]. split; [|by right].
        apply capped_insert_iff. rewrite Htok, Hw. simpl. split; [lia|done].
      * exists (ParamString cfg), w. split; [done|]. split; [|by left].
        apply capped_insert_iff. rewrite Hw. simpl. split; [done|done].
    + specialize (Hlt eq_refl).
      destruct (Z.ltb_spec (children cur + 1) (MaxChildren cfg)).
      * exists token, createNode. split; [done|]. split; [|by right].
        apply capped_insert_iff. rewrite Htok. simpl. split; [lia|]. intros; lia.
      * destruct (Z.eqb_spec (children cur + 1) (MaxChildren cfg)); [|lia].
        exists (ParamString cfg), createNode. split; [done|]. split; [|by right].
        apply capped_insert_iff. rewrite Hw. simpl. split; [lia|done].
  - destruct (keyToChildNode cur !! ParamString cfg) as [w|] eqn:Hw.
    + exists (ParamString cfg), w. split; [done|]. split; [|by left].
      apply capped_insert_iff. rewrite Hw. simpl. split; [done|done].
    + specialize (Hlt eq_refl).
      exists (ParamString cfg), createNode. split; [done|]. split; [|by right].
      apply capped_insert_iff. rewrite Hw. simpl. split; [lia|done].
Qed.

Lemma capped_createNode cfg : 1 <= MaxChildren cfg -> capped cfg createNode.
Proof.
  intros Hmax. unfold capped, children. simpl.
  rewrite map_size_empty. split; [lia|]. intros _. lia.
Qed.

(** Insertion keeps every node under the cap and never meets a nil node. *)
Lemma addLoop_capped cfg cluster tokenCount tokens depth cur c :
  1 <= MaxChildren cfg ->
  is_Some (cache c) ->
  Forall_nodes (capped cfg) cur ->
  exists n' c', addLoop cfg cluster tokenCount tokens depth cur c = Ok (n', c')
                /\ Forall_nodes (capped cfg) n'.
Proof.
  intros Hmax. revert depth cur c.
  induction tokens as [|token tokens IH]; intros depth cur c Hc Hcur.
  { simpl. eauto. }
  rewrite addLoop_cons.
  destruct ((maxNodeDepth cfg <=? depth) || (tokenCount <=? depth)).
  { destruct (liveIDs_is_Ok (clusterIDs cur) c Hc) as [[ids c1] Hlive].
    rewrite Hlive. simpl. eexists _, _. split; [done|].
    apply Forall_nodes_ids; [done|]. by apply Forall_nodes_here in Hcur. }
  destruct (route_capped cfg cur token Hmax (Forall_nodes_here _ _ Hcur))
    as (key & ch & -> & Hcap & Hch).
  destruct (IH (depth + 1) ch c Hc) as (n1 & c1 & Hadd & Hn1).
  { destruct Hch as [Hch| ->].
    - by eapply Forall_nodes_child.
    - by apply Forall_nodes_createNode, capped_createNode. }
  rewrite Hadd. simpl. eexists _, _. split; [done|].
  apply Forall_nodes_insert; [done..|]. by eapply capped_insert.
Qed.

(** Searching for the tokens of a cluster that was just inserted reaches
    the leaf that holds it. *)
Lemma searchLoop_after_addLoop cfg cluster tokenCount tokens depth cur c n' c' :
  tokens <> [] ->
  depth + len tokens = tokenCount + 1 ->
  addLoop cfg cluster tokenCount tokens depth cur c = Ok (n', c') ->
  exists leaf ids, searchLoop cfg tokenCount tokens depth n' = Some leaf
    /\ liveIDs (clusterIDs leaf) c' = liveIDs (ids ++ [cluster_id cluster]) c'
    /\ clusterIDs leaf = ids ++ [cluster_id cluster].
Proof.
  revert depth cur c n' c'.
  induction tokens as [|token tokens IH]; intros depth cur c n' c' Hne Hlen; [done|].
  rewrite addLoop_cons. unfold len in Hlen. simpl length in Hlen.
  cbn [searchLoop].
  destruct (Z.leb_spec (maxNodeDepth cfg) depth) as [Hd|Hd]; simpl.
  { intros ([ids c1] & Hlive & [= <- <-])%bind_Ok. eexists _, ids. done. }
  destruct (Z.leb_spec tokenCount depth) as [Ht|Ht]; simpl.
  { intros ([ids c1] & Hlive & [= <- <-])%bind_Ok.
    assert (depth = tokenCount) as -> by lia. rewrite Z.eqb_refl.
    eexists _, ids. done. }
  destruct (Z.eqb_spec depth tokenCount) as [?|_]; [lia|].
  destruct (route cfg cur token) as [key [ch|]] eqn:Hroute.
  - intros ([n1 c1] & Hadd & [= <- <-])%bind_Ok.
    assert (tokens <> []) as Hne' by (destruct tokens; [simpl in *; lia|done]).
    apply IH in Hadd as (leaf & ids & Hs & Hl); [|done|unfold len; lia].
    exists leaf, ids. split; [|done]. simpl.
    apply route_key in Hroute as [->|[-> Htok]].
    + by rewrite lookup_insert_eq.
    + rewrite lookup_insert. case_decide as Hk; [done|].
      rewrite Htok. by rewrite lookup_insert_eq.
  - destruct tokens; [simpl in *; lia|done].
Qed.

End Insertion.

Lemma Itoa_inj (a b : Z) : Itoa a = Itoa b -> a = b.
Proof. unfold Itoa. apply (inj pretty). Qed.

Lemma add64_small (a : Z) : 0 <= a < max_int -> add64 a 1 = a + 1.
Proof.
  unfold add64, wrap64, max_int. intros Ha.
  rewrite Z.mod_small; lia.
Qed.

Lemma Inv_touched G d c' :
  Inv G d -> touched (idToCluster d) c' ->
  Inv G (mkDrain (config d) (rootNode d) c' (clustersCounter d)).
Proof.
  intros [Hc Hi Hn Hs Ht] [Hr Hl]. split; simpl; try done.
  - intros id v. rewrite Hr. apply Hc.
  - intros l' Hl'. rewrite Hl' in Hl.
    destruct (cache (idToCluster d)) as [l|] eqn:Hcl; [|done].
    destruct Hl as [-> _]. by apply Hs.
Qed.

Lemma Inv_weaken G G' d :
  G ⊆ G' -> (forall id n, G' !! id = Some n -> 1 <= id <= clustersCounter d) ->
  Inv G d -> Inv G' d.
Proof.
  intros Hsub Hids [Hc Hi Hn Hs Ht]. split; try done.
  - intros id v Hv. destruct (Hc id v Hv) as [? HG]. split; [done|].
    by eapply lookup_weaken.
  - intros key nd Hk. destruct (Ht key nd Hk) as (n & -> & Hnd).
    exists n. split; [done|]. eapply Forall_nodes_impl; [|done].
    intros nd' Hnd' id Hid. eapply lookup_weaken; [|done]. by apply Hnd'.
Qed.

Section Matching.
Context `{GoStdlib}.

Lemma getSeqDistance_Ok cfg seq1 seq2 inc :
  length seq1 = length seq2 ->
  getSeqDistance cfg seq1 seq2 inc = Ok (seqDistance cfg seq1 seq2 inc).
Proof. intros Hl. unfold getSeqDistance. by rewrite bool_decide_eq_false_2 by auto. Qed.

Lemma createTemplate_Ok cfg seq1 seq2 :
  length seq1 = length seq2 ->
  exists r, createTemplate cfg seq1 seq2 = Ok r /\ length r = length seq2.
Proof.
  intros Hl. unfold createTemplate. rewrite bool_decide_eq_false_2 by auto.
  eexists. split; [done|]. rewrite length_zip_with. lia.
Qed.

(** The scan of the candidates: it faults only on a nil cache, provided
    the templates of the candidates that resolve have the length of the
    line; its maximum is the initial one or a candidate that resolves. *)
Lemma fastMatch_loop_spec cfg tokens inc ids b c :
  (forall id v, id ∈ ids -> resolve c id = Some v ->
                length (Tokens v) = length tokens) ->
  match fastMatch_loop cfg tokens inc ids (b, c) with
  | Ok (b', c') =>
      touched c c'
      /\ forall m, maxCluster b' = Some m ->
           maxCluster b = Some m \/ exists id, id ∈ ids /\ resolve c id = Some m
  | Panic p => p = NilCache /\ cache c = None /\ ids <> []
  end.
Proof.
  revert b c. induction ids as [|id ids IH]; intros b c Hlen; simpl.
  { split; [apply touched_refl|]. auto. }
  destruct (cache c) as [l|] eqn:Hc.
  2: { unfold Cache_Get. rewrite Hc. simpl. done. }
  destruct (Cache_Get_resolve c id) as [c1 Hget]; [by rewrite Hc|].
  rewrite Hget. simpl.
  apply Cache_Get_touched in Hget as [_ Ht].
  assert (forall id' v, id' ∈ ids -> resolve c1 id' = Some v ->
                        length (Tokens v) = length tokens) as Hlen1.
  { intros id' v Hin. destruct Ht as [-> _]. apply Hlen. by right. }
  assert (exists b1, (forall m, maxCluster b1 = Some m ->
                        maxCluster b = Some m \/ resolve c id = Some m)
            /\ match resolve c id with
               | Some cluster =>
                   cur ← getSeqDistance cfg (Tokens cluster) tokens inc;
                   if beats cur (maxSim b) (maxParamCount b)
                   then Ok (mkBest cur.1 cur.2 (Some cluster), c1)
                   else Ok (b, c1)
               | None => Ok (b, c1)
               end = Ok (b1, c1)) as (b1 & Hb1 & ->).
  { destruct (resolve c id) as [v|] eqn:Hv; [|by eauto].
    rewrite getSeqDistance_Ok by (eapply Hlen; [left|done]). simpl.
    destruct (beats _ _ _); eexists; (split; [|done]); simpl; intros m; auto. }
  simpl. specialize (IH b1 c1 Hlen1).
  destruct (fastMatch_loop cfg tokens inc ids (b1, c1)) as [[b' c']|p].
  - destruct IH as [Ht' Hm]. split; [by eapply touched_trans|].
    intros m Hmax. destruct (Hm m Hmax) as [Hm1|(id' & Hin & Hr)].
    + destruct (Hb1 m Hm1) as [?|?]; [by left|]. right. exists id. split; [left|done].
    + right. exists id'. split; [by right|]. destruct Ht as [<- _]. done.
  - destruct IH as (_ & Hnil & _). destruct Ht as [_ Ht].
    rewrite Hc, Hnil in Ht. done.
Qed.

Lemma fastMatch_spec d ids tokens simTh inc :
  (forall id v, id ∈ ids -> resolve (idToCluster d) id = Some v ->
                length (Tokens v) = length tokens) ->
  match fastMatch d ids tokens simTh inc with
  | Ok (o, d') =>
      config d' = config d /\ rootNode d' = rootNode d
      /\ clustersCounter d' = clustersCounter d
      /\ touched (idToCluster d) (idToCluster d')
      /\ forall m, o = Some m ->
           exists id, id ∈ ids /\ resolve (idToCluster d) id = Some m
  | Panic p => p = NilCache /\ cache (idToCluster d) = None
  end.
Proof.
  intros Hlen. unfold fastMatch.
  pose proof (fastMatch_loop_spec (config d) tokens inc ids
                (mkBest neg_one (-1) None) (idToCluster d) Hlen) as Hloop.
  destruct (fastMatch_loop _ _ _ _ _) as [[b' c']|p]; simpl.
  - destruct Hloop as [Ht Hm]. split_and!; try done.
    intros m Ho. destruct (geb _ _); [|done].
    destruct (Hm m Ho) as [[=]|?]. done.
  - by destruct Hloop as (? & ? & _).
Qed.

(** [treeSearch] on an engine in its invariant. *)
Lemma treeSearch_spec G d tokens simTh inc :
  Inv G d ->
  match treeSearch d (rootNode d) tokens simTh inc with
  | Ok (o, d') =>
      config d' = config d /\ rootNode d' = rootNode d
      /\ clustersCounter d' = clustersCounter d
      /\ touched (idToCluster d) (idToCluster d')
      /\ forall m, o = Some m ->
           resolve (idToCluster d) (cluster_id m) = Some m
           /\ length (Tokens m) = length tokens
  | Panic p => (p = NilCache /\ cache (idToCluster d) = None)
               \/ (p = NoCandidate /\ tokens = [])
  end.
Proof.
  intros HInv. unfold treeSearch.
  destruct (keyToChildNode (rootNode d) !! Itoa (len tokens)) as [nd|] eqn:Hnd.
  2: { split_and!; try done. apply touched_refl. }
  destruct (inv_tree _ _ HInv _ _ Hnd) as (n & Hn & Hall).
  apply Itoa_inj in Hn. unfold len in Hn. apply Nat2Z.inj in Hn. subst n.
  assert (forall leaf id v, Forall_nodes (candidates_of_length G (length tokens)) leaf ->
            id ∈ clusterIDs leaf -> resolve (idToCluster d) id = Some v ->
            cluster_id v = id /\ length (Tokens v) = length tokens) as Hleaf.
  { intros leaf id v Hl Hin Hv. apply Forall_nodes_here in Hl.
    specialize (Hl id Hin). destruct (inv_cache _ _ HInv id v Hv) as [? HG].
    split; [done|]. congruence. }
  destruct (Z.eqb_spec (len tokens) 0) as [Hz|Hz].
  - destruct (clusterIDs nd) as [|id ids] eqn:Hids.
    { right. split; [done|]. destruct tokens; [done|]. unfold len in Hz. simpl in Hz. lia. }
    destruct (cache (idToCluster d)) as [l|] eqn:Hc.
    2: { unfold Cache_Get. rewrite Hc. simpl. by left. }
    destruct (Cache_Get_resolve (idToCluster d) id) as [c1 Hget]; [by rewrite Hc|].
    rewrite Hget. simpl. apply Cache_Get_touched in Hget as [_ Ht].
    split_and!; try done.
    intros m Hm. destruct (Hleaf nd id m Hall) as [<- ?]; [rewrite Hids; left|done|].
    done.
  - destruct (searchLoop (config d) (len tokens) tokens 1 nd) as [leaf|] eqn:Hs.
    2: { split_and!; try done. apply touched_refl. }
    apply (searchLoop_Forall _ _ _ _ _ _ _ Hall) in Hs.
    pose proof (fastMatch_spec d (clusterIDs leaf) tokens simTh inc) as Hfm.
    destruct (fastMatch d (clusterIDs leaf) tokens simTh inc) as [[o d']|p].
    + destruct Hfm as (? & ? & ? & ? & Hm).
      { intros id v Hin Hv. by destruct (Hleaf leaf id v Hs Hin Hv). }
      split_and!; try done.
      intros m Ho. destruct (Hm m Ho) as (id & Hin & Hv).
      by destruct (Hleaf leaf id m Hs Hin Hv) as [<- ?].
    + left. apply Hfm. intros id v Hin Hv. by destruct (Hleaf leaf id v Hs Hin Hv).
Qed.

End Matching.

Lemma Add_Ok x ts :
  Values x <> [] -> exists v, Add x ts = Ok v /\ Values v <> [].
Proof.
  intros Hne. unfold Add.
  destruct (Values x) as [|v0 vs] eqn:Hx; [done|].
  assert (is_Some (last (v0 :: vs))) as [vl Hl].
  { rewrite last_is_Some. done. }
  rewrite Hl. cbn [head].
  assert (forall l : list (Z * Z), (0 < length l)%nat -> l <> []) as Hpos.
  { intros [|? ?]; simpl; [lia|done]. }
  repeat match goal with
         | |- context [if ?b then _ else _] => destruct b
         end; eexists; (split; [done|]); cbn [Values]; apply Hpos.
  - unfold incr_count. rewrite length_alter. simpl. lia.
  - rewrite length_insert, length_app, !length_take. simpl. lia.
  - rewrite length_app. simpl. lia.
  - unfold incr_count. rewrite length_alter. simpl. lia.
  - unfold slices_Insert. rewrite length_app. simpl. lia.
Qed.

Section Training.
Context `{GoStdlib}.

(** Insertion of a cluster whose identifier the ledger knows. *)
Lemma addSeqToPrefixTree_Inv G d cluster d' :
  Inv G d ->
  Tokens cluster <> [] ->
  G !! cluster_id cluster = Some (length (Tokens cluster)) ->
  addSeqToPrefixTree d (rootNode d) cluster = Ok d' ->
  Inv G d' /\ config d' = config d /\ clustersCounter d' = clustersCounter d
  /\ touched (idToCluster d) (idToCluster d').
Proof.
  intros HInv Hne HG. unfold addSeqToPrefixTree.
  rewrite (len_nonempty _ Hne).
  set (key := Itoa (len (Tokens cluster))).
  set (first := match keyToChildNode (rootNode d) !! key with
                | Some n => n | None => createNode end).
  assert (Forall_nodes (candidates_of_length G (length (Tokens cluster))) first) as Hfirst.
  { unfold first. destruct (keyToChildNode (rootNode d) !! key) as [nd|] eqn:Hk.
    - destruct (inv_tree _ _ HInv _ _ Hk) as (n & Hn & Hall).
      apply Itoa_inj in Hn. unfold len in Hn. apply Nat2Z.inj in Hn. by subst n.
    - apply Forall_nodes_createNode. by intros id ?%elem_of_nil. }
  intros ([n' c'] & Hadd & [= <-])%bind_Ok.
  apply (addLoop_candidates G _ _ _ _ _ _ _ _ _ _ HG Hfirst) in Hadd as [Hn' Ht].
  split_and!; try done.
  destruct (Inv_touched G d c' HInv Ht) as [Hc Hi Hn Hs Htree].
  split; try done. simpl. intros k nd. rewrite lookup_insert.
  case_decide as Hk.
  - intros [= <-]. exists (length (Tokens cluster)). by subst k.
  - apply (inv_tree _ _ HInv).
Qed.

(** With a cache and capped nodes, insertion does not fault and keeps the
    nodes capped. *)
Lemma addSeqToPrefixTree_capped d cluster :
  Tokens cluster <> [] ->
  1 <= MaxChildren (config d) ->
  is_Some (cache (idToCluster d)) ->
  (forall key nd, keyToChildNode (rootNode d) !! key = Some nd ->
                  Forall_nodes (capped (config d)) nd) ->
  exists d', addSeqToPrefixTree d (rootNode d) cluster = Ok d'
    /\ forall key nd, keyToChildNode (rootNode d') !! key = Some nd ->
                      Forall_nodes (capped (config d)) nd.
Proof.
  intros Hne Hmax Hc Hall. unfold addSeqToPrefixTree.
  rewrite (len_nonempty _ Hne).
  set (key := Itoa (len (Tokens cluster))).
  set (first := match keyToChildNode (rootNode d) !! key with
                | Some n => n | None => createNode end).
  assert (Forall_nodes (capped (config d)) first) as Hfirst.
  { unfold first.
    destruct (keyToChildNode (rootNode d) !! key) as [nd|] eqn:Hk; [eauto|].
    by apply Forall_nodes_createNode, capped_createNode. }
  destruct (addLoop_capped (config d) cluster (len (Tokens cluster))
              (Tokens cluster) 1 first (idToCluster d) Hmax Hc Hfirst)
    as (n' & c' & -> & Hn').
  simpl. eexists. split; [done|]. simpl. intros k nd. rewrite lookup_insert.
  case_decide; [by intros [= <-]|apply Hall].
Qed.

End Training.

Lemma generalizes_refl param t : generalizes param t t.
Proof. by intros i. Qed.

Lemma generalizes_trans param t1 t2 t3 :
  generalizes param t1 t2 -> generalizes param t2 t3 -> generalizes param t1 t3.
Proof. intros H12 H23 i Hi. by apply H23, H12. Qed.

Lemma merge_generalizes param seq1 seq2 :
  length seq1 = length seq2 ->
  generalizes param seq2
    (zip_with (fun t1 t2 : string => if bool_decide (t1 ≠ t2) then param else t2)
       seq1 seq2).
Proof.
  intros Hlen i Hi. rewrite lookup_zip_with.
  destruct (seq1 !! i) as [t1|] eqn:H1; simpl.
  - rewrite Hi. simpl. by destruct (bool_decide _).
  - apply lookup_ge_None in H1. apply lookup_lt_Some in Hi. lia.
Qed.

Lemma descends_touched param counter c c' :
  touched c c' -> descends param counter c c'.
Proof.
  intros [Hr _] id m' Hm'. left. exists m'. rewrite <- Hr.
  split; [done|apply generalizes_refl].
Qed.

Section Engine_invariant.
Context `{GoStdlib}.

(** [Train] keeps the invariant, for a ledger that grows by the cluster it
    creates, and returns a cluster whose template has the token count of
    the line. *)
Lemma Train_Inv G d content ts c d' :
  Inv G d -> clustersCounter d < max_int ->
  Train d content ts = Ok (c, d') ->
  exists G', G ⊆ G' /\ Inv G' d'
    /\ G' !! cluster_id c = Some (length (getContentAsTokens (config d) content))
    /\ length (Tokens c) = length (getContentAsTokens (config d) content)
    /\ config d' = config d
    /\ clustersCounter d <= clustersCounter d' <= clustersCounter d + 1
    /\ descends (ParamString (config d)) (clustersCounter d)
         (idToCluster d) (idToCluster d').
Proof.
  intros HInv Hmax. unfold Train.
  set (tokens := getContentAsTokens (config d) content).
  pose proof (treeSearch_spec G d tokens (SimTh (config d)) false HInv) as Hts.
  destruct (treeSearch d (rootNode d) tokens (SimTh (config d)) false)
    as [[o d1]|p]; [|done].
  destruct Hts as (Hcfg & Hroot & Hcnt & Ht & Hm). simpl.
  pose proof (Inv_touched G d _ HInv Ht) as HInv1.
  assert (mkDrain (config d) (rootNode d) (idToCluster d1) (clustersCounter d) = d1)
    as Hd1 by (destruct d1; simpl in *; congruence).
  rewrite Hd1 in HInv1.
  destruct o as [m|].
  - (* a cluster matched *)
    destruct (Hm m eq_refl) as [Hres Hlen].
    intros (r & Hr & Hrest)%bind_Ok.
    apply bind_Ok in Hrest as (m2 & Happ & Hrest).
    apply bind_Ok in Hrest as ([o3 c3] & Hget & [= <- <-]).
    unfold createTemplate in Hr. case_bool_decide; [done|]. injection Hr as <-.
    unfold LogCluster_append in Happ.
    apply bind_Ok in Happ as (v & _ & [= <-]).
    apply Cache_Get_touched in Hget as [_ [Hr3 Hl3]].
    cbn [cluster_id Tokens] in *.
    exists G. split; [done|]. split_and!; try done; try lia.
    + destruct Ht as [Hr1 Hl1]. split; simpl; rewrite ?Hcfg, ?Hroot, ?Hcnt.
      * intros id v'. rewrite Hr3, resolve_Cache_store, Hr1. cbn [cluster_id].
        case_bool_decide as Hid.
        -- subst id. rewrite Hres. simpl. intros [= <-]. cbn [cluster_id Tokens].
           split; [done|]. rewrite length_zip_with.
           destruct (inv_cache _ _ HInv _ _ Hres) as [_ HG]. rewrite HG.
           f_equal. lia.
        -- apply (inv_cache _ _ HInv).
      * apply (inv_ids _ _ HInv).
      * apply (inv_counter _ _ HInv).
      * intros l3 Hc3. rewrite Hc3 in Hl3.
        destruct (cache (idToCluster d1)) as [l1|] eqn:Hc1.
        -- match type of Hl3 with
           | context [Cache_store _ ?m2] =>
               destruct (cache_Cache_store (idToCluster d1) m2 l1 Hc1)
                 as (l2 & Hc2 & Hs2 & _)
           end.
           rewrite Hc2 in Hl3. destruct Hl3 as [-> _]. rewrite Hs2.
           by apply (inv_size _ _ HInv1).
        -- unfold Cache_store in Hl3. rewrite Hc1 in Hl3. by rewrite Hc1 in Hl3.
      * apply (inv_tree _ _ HInv).
    + destruct (inv_cache _ _ HInv _ _ Hres) as [_ HG]. by rewrite HG, Hlen.
    + rewrite length_zip_with. lia.
    + simpl. lia.
    + simpl. lia.
    + intros id m'. simpl. destruct Ht as [Hr1 _].
      rewrite Hr3, resolve_Cache_store, Hr1. cbn [cluster_id].
      case_bool_decide as Hid.
      * subst id. rewrite Hres. simpl. intros [= <-]. left. exists m.
        split; [done|]. cbn [Tokens]. rewrite Hcfg. apply merge_generalizes. lia.
      * intros Hm'. left. exists m'. split; [done|apply generalizes_refl].
  - (* a new cluster *)
    rewrite Hcnt, Hcfg, Hroot.
    rewrite add64_small by (pose proof (inv_counter _ _ HInv); lia).
    set (k := clustersCounter d + 1).
    set (new := mkLogCluster k 1 tokens [content] (initVolume ts)).
    intros (c1 & Hset & Hrest)%bind_Ok.
    apply bind_Ok in Hrest as (d2 & Hadd & [= <- <-]).
    apply Cache_Set_Ok in Hset as (Hk & Hother & l & l1 & Hl & Hl1 & Hs1 & _);
      [|by apply (inv_size _ _ HInv1)].
    assert (G !! k = None) as HGk.
    { destruct (G !! k) as [n|] eqn:HG; [|done].
      apply (inv_ids _ _ HInv) in HG. unfold k in HG. lia. }
    set (G' := <[k := length tokens]> G).
    assert (G ⊆ G') as Hsub by by apply insert_subseteq.
    assert (Inv G' (mkDrain (config d) (rootNode d) c1 k)) as HInv2.
    { split; simpl.
      - intros id v Hv. destruct (decide (id = k)) as [->|Hne].
        + rewrite Hk in Hv. injection Hv as <-. split; [done|].
          unfold G'. by rewrite lookup_insert_eq.
        + apply Hother in Hv; [|done].
          destruct (inv_cache _ _ HInv1 _ _ Hv) as [? HG]. split; [done|].
          by eapply lookup_weaken.
      - intros id n. unfold G'. rewrite lookup_insert. case_decide.
        + intros _. pose proof (inv_counter _ _ HInv). lia.
        + intros HG. apply (inv_ids _ _ HInv) in HG. lia.
      - pose proof (inv_counter _ _ HInv). lia.
      - intros l' Hl'. rewrite Hl1 in Hl'. injection Hl' as <-. rewrite Hs1.
        by apply (inv_size _ _ HInv1).
      - intros key nd Hkey. destruct (inv_tree _ _ HInv _ _ Hkey) as (n & -> & Hnd).
        exists n. split; [done|]. eapply Forall_nodes_impl; [|done].
        intros nd' Hnd' id Hid. eapply lookup_weaken; [|done]. by apply Hnd'. }
    apply (addSeqToPrefixTree_Inv G' (mkDrain (config d) (rootNode d) c1 k) new)
      in Hadd as (HInv3 & Hcfg3 & Hcnt3 & [Hr3 _]);
      [|done|apply getContentAsTokens_nonempty|by unfold G'; rewrite lookup_insert_eq].
    exists G'. split; [done|]. split_and!; try done.
    + unfold G'. by rewrite lookup_insert_eq.
    + rewrite Hcnt3. simpl. lia.
    + rewrite Hcnt3. simpl. lia.
    + intros id m'. rewrite Hr3. simpl. intros Hm'.
      destruct (decide (id = k)) as [->|Hne]; [right; unfold k; lia|].
      left. exists m'. split; [|apply generalizes_refl].
      destruct Ht as [<- _]. by apply Hother.
Qed.

(** Under the invariant [Train] cannot raise the length-mismatch panic. *)
Lemma Train_no_LenMismatch G d content ts :
  Inv G d -> Train d content ts <> Panic LenMismatch.
Proof.
  intros HInv. unfold Train.
  set (tokens := getContentAsTokens (config d) content).
  pose proof (treeSearch_spec G d tokens (SimTh (config d)) false HInv) as Hts.
  destruct (treeSearch d (rootNode d) tokens (SimTh (config d)) false)
    as [[o d1]|p]; simpl.
  2: { destruct Hts as [[-> _]|[-> _]]; done. }
  destruct Hts as (Hcfg & Hroot & Hcnt & Ht & Hm).
  cut (raises (fun p => p <> LenMismatch)
         (match o with
          | Some m =>
              r ← createTemplate (config d1) tokens (Tokens m);
              m2 ← LogCluster_append
                     (mkLogCluster (cluster_id m) (add64 (Size m) 1) r
                        (Samples m) (cluster_Volume m)) content ts;
              '(_, c) ← Cache_Get (Cache_store (idToCluster d1) m2) (cluster_id m2);
              Ok (m2, mkDrain (config d1) (rootNode d1) c (clustersCounter d1))
          | None =>
              c ← Cache_Set (idToCluster d1) (add64 (clustersCounter d1) 1)
                    (mkLogCluster (add64 (clustersCounter d1) 1) 1 tokens
                       [content] (initVolume ts));
              d2 ← addSeqToPrefixTree
                     (mkDrain (config d1) (rootNode d1) c
                        (add64 (clustersCounter d1) 1)) (rootNode d1)
                     (mkLogCluster (add64 (clustersCounter d1) 1) 1 tokens
                        [content] (initVolume ts));
              Ok (mkLogCluster (add64 (clustersCounter d1) 1) 1 tokens
                    [content] (initVolume ts), d2)
          end)).
  { intros Hr Hp. by apply Hr in Hp. }
  destruct o as [m|].
  - destruct (Hm m eq_refl) as [_ Hlen].
    destruct (createTemplate_Ok (config d1) tokens (Tokens m)) as (r & -> & _);
      [done|]. simpl.
    repeat first [by apply LogCluster_append_raises | by apply Cache_Get_raises
                 | raises_step].
  - repeat first [by apply Cache_Set_raises | by apply addSeqToPrefixTree_raises
                 | raises_step].
Qed.

Lemma Match_Inv G d content o d' :
  Inv G d -> Match d content = Ok (o, d') ->
  Inv G d' /\ config d' = config d /\ clustersCounter d' = clustersCounter d
  /\ rootNode d' = rootNode d
  /\ touched (idToCluster d) (idToCluster d')
  /\ forall m, o = Some m ->
       G !! cluster_id m = Some (length (getContentAsTokens (config d) content))
       /\ resolve (idToCluster d) (cluster_id m) = Some m.
Proof.
  intros HInv. unfold Match. intros HM.
  pose proof (treeSearch_spec G d (getContentAsTokens (config d) content) one true HInv)
    as Hts.
  rewrite HM in Hts. destruct Hts as (Hcfg & Hroot & Hcnt & Ht & Hm).
  pose proof (Inv_touched G d _ HInv Ht) as HInv1.
  assert (mkDrain (config d) (rootNode d) (idToCluster d') (clustersCounter d) = d')
    as Hd1 by (destruct d'; simpl in *; congruence).
  rewrite Hd1 in HInv1. split_and!; try done.
  intros m Ho. destruct (Hm m Ho) as [Hres Hlen]. split; [|done].
  destruct (inv_cache _ _ HInv _ _ Hres) as [_ HG]. by rewrite HG, Hlen.
Qed.

Lemma Match_no_LenMismatch G d content :
  Inv G d -> Match d content <> Panic LenMismatch.
Proof.
  intros HInv. unfold Match. intros HM.
  pose proof (treeSearch_spec G d (getContentAsTokens (config d) content) one true HInv)
    as Hts.
  rewrite HM in Hts. by destruct Hts as [[? _]|[? _]].
Qed.

End Engine_invariant.

Section Runs.
Context `{GoStdlib}.

Lemma New_Ok cfg d :
  New cfg = Ok d ->
  3 <= LogClusterDepth cfg
  /\ d = mkDrain (mkConfig (LogClusterDepth cfg - 2) (LogClusterDepth cfg)
                    (SimTh cfg) (MaxChildren cfg) (ExtraDelimiters cfg)
                    (MaxClusters cfg) (ParamString cfg))
           createNode (createLogClusterCache (MaxClusters cfg)) 0.
Proof.
  unfold New. destruct (Z.ltb_spec (LogClusterDepth cfg) 3); [done|].
  intros [= <-]. done.
Qed.

Lemma createLogClusterCache_cases maxSize :
  (maxSize < 0 /\ cache (createLogClusterCache maxSize) = None)
  \/ (0 <= maxSize /\ exists size, 0 < size /\
        cache (createLogClusterCache maxSize) = Some (mkLRU size [])).
Proof.
  unfold createLogClusterCache, NewLRU.
  destruct (Z.eqb_spec maxSize 0) as [->|Hz]; simpl.
  - right. split; [done|]. by exists max_int.
  - destruct (Z.leb_spec maxSize 0); [left|right]; simpl.
    + split; [lia|done].
    + split; [lia|]. by exists maxSize.
Qed.

(** A new engine is in the invariant, with an empty ledger. *)
Lemma New_Inv cfg d : New cfg = Ok d -> Inv ∅ d /\ clustersCounter d = 0.
Proof.
  intros [_ ->]%New_Ok. split; [|done].
  split; cbn [idToCluster rootNode clustersCounter config]; try done.
  - intros id v. unfold resolve.
    destruct (createLogClusterCache_cases (MaxClusters cfg))
      as [[_ ->]|(_ & size & _ & ->)]; done.
  - destruct (createLogClusterCache_cases (MaxClusters cfg))
      as [[_ ->]|(_ & size & ? & ->)]; [done|]. by intros l [= <-].
Qed.

Lemma step_Inv G d call o d' :
  Inv G d -> clustersCounter d < max_int ->
  step d call = Ok (o, d') ->
  exists G', G ⊆ G' /\ Inv G' d'
    /\ (forall m, o = Some m ->
          G' !! cluster_id m
          = Some (length (getContentAsTokens (config d) (line_of call))))
    /\ config d' = config d
    /\ clustersCounter d <= clustersCounter d' <= clustersCounter d + 1
    /\ descends (ParamString (config d)) (clustersCounter d)
         (idToCluster d) (idToCluster d').
Proof.
  intros HInv Hmax. destruct call as [content ts|content]; simpl.
  - intros ([c d1] & HT & [= <- <-])%bind_Ok.
    destruct (Train_Inv G d content ts c d1 HInv Hmax HT)
      as (G' & ? & ? & ? & ? & ? & ? & ?).
    exists G'. split_and!; try done; try lia. by intros m [= <-].
  - intros HM. destruct (Match_Inv G d content o d' HInv HM)
      as (? & ? & ? & ? & ? & Hm).
    exists G. split_and!; try done; try lia.
    + intros m Ho. by apply Hm.
    + by apply descends_touched.
Qed.

Lemma step_no_LenMismatch G d call :
  Inv G d -> step d call <> Panic LenMismatch.
Proof.
  intros HInv. destruct call as [content ts|content]; simpl.
  - intros [HT|([c d1] & _ & [=])]%bind_Panic.
    by apply (Train_no_LenMismatch G d content ts).
  - by apply (Match_no_LenMismatch G).
Qed.

(** Every cluster a run returns is in the final ledger with the token
    count of the line it was returned for. *)
Lemma run_Inv G d calls outs d' :
  Inv G d -> clustersCounter d + len calls <= max_int ->
  run d calls = Ok (outs, d') ->
  exists G', G ⊆ G' /\ Inv G' d'
    /\ Forall2 (fun call o => forall m, o = Some m ->
                  G' !! cluster_id m
                  = Some (length (getContentAsTokens (config d) (line_of call))))
         calls outs
    /\ config d' = config d
    /\ clustersCounter d <= clustersCounter d' <= clustersCounter d + len calls
    /\ descends (ParamString (config d)) (clustersCounter d)
         (idToCluster d) (idToCluster d').
Proof.
  revert G d outs d'. induction calls as [|call calls IH]; intros G d outs d' HInv Hmax.
  { simpl. intros [= <- <-]. exists G. split_and!; try done; try (unfold len; simpl; lia).
    apply descends_touched, touched_refl. }
  unfold len in Hmax. simpl length in Hmax. simpl.
  intros ([o d1] & Hstep & Hrest)%bind_Ok.
  apply bind_Ok in Hrest as ([os d2] & Hrun & [= <- <-]).
  destruct (step_Inv G d call o d1 HInv)
    as (G1 & Hsub1 & HInv1 & Ho & Hcfg1 & Hcnt1 & Hd1); [lia|done|].
  destruct (IH G1 d1 os d2 HInv1) as (G2 & Hsub2 & HInv2 & Hos & Hcfg2 & Hcnt2 & Hd2);
    [unfold len; lia|done|].
  exists G2. split_and!; try done.
  - by etrans.
  - constructor.
    + intros m Hm. eapply lookup_weaken; [|done]. by apply Ho.
    + by rewrite <- Hcfg1.
  - congruence.
  - lia.
  - unfold len in *. simpl length. lia.
  - intros id m2 Hm2. rewrite Hcfg1 in Hd2.
    destruct (Hd2 id m2 Hm2) as [(m1 & Hm1 & Hg2)|?]; [|right; lia].
    destruct (Hd1 id m1 Hm1) as [(m & Hm & Hg1)|?]; [|by right].
    left. exists m. split; [done|]. by eapply generalizes_trans.
Qed.

Lemma run_no_LenMismatch G d calls :
  Inv G d -> clustersCounter d + len calls <= max_int ->
  run d calls <> Panic LenMismatch.
Proof.
  revert G d. induction calls as [|call calls IH]; intros G d HInv Hmax; [done|].
  unfold len in Hmax. simpl length in Hmax. simpl.
  intros [Hstep|([o d1] & Hstep & Hrest)]%bind_Panic.
  { by apply (step_no_LenMismatch G d call). }
  destruct (step_Inv G d call o d1 HInv)
    as (G1 & Hsub1 & HInv1 & Ho & Hcfg1 & Hcnt1 & _); [lia|done|].
  apply bind_Panic in Hrest as [Hrun|([os d2] & _ & [=])].
  apply (IH G1 d1 HInv1); [unfold len; lia|done].
Qed.

(** C5. In every run of [Train] and [Match] calls on a new engine, the
    sequences compared by [getSeqDistance] and [createTemplate] have equal
    length, so the run never raises the length-mismatch panic; and two
    calls that return the same cluster were made with lines of the same
    token count.  The engine stays in the invariant [Inv], by which every
    cluster that resolves from a leaf under the token-count key [n] has a
    template of [n] tokens.  The run is shorter than the range of the
    cluster counter. *)
Theorem equal_length_comparisons (cfg : Config) (d0 : Drain) (calls : list call) :
  New cfg = Ok d0 ->
  len calls <= max_int ->
  run d0 calls <> Panic LenMismatch
  /\ forall outs d, run d0 calls = Ok (outs, d) ->
       (exists G, Inv G d)
       /\ forall i j ci cj li lj,
            calls !! i = Some li -> outs !! i = Some (Some ci) ->
            calls !! j = Some lj -> outs !! j = Some (Some cj) ->
            cluster_id ci = cluster_id cj ->
            length (getContentAsTokens (config d0) (line_of li))
            = length (getContentAsTokens (config d0) (line_of lj)).
Proof.
  intros [HInv Hcnt]%New_Inv Hlen. split.
  { apply (run_no_LenMismatch ∅); [done|lia]. }
  intros outs d Hrun.
  destruct (run_Inv ∅ d0 calls outs d HInv) as (G & _ & HInvd & Hall & _);
    [lia|done|].
  split; [by exists G|].
  intros i j ci cj li lj Hi Hoi Hj Hoj Hid.
  pose proof (Forall2_lookup_lr _ _ _ _ _ _ Hall Hi Hoi ci eq_refl) as Hci.
  pose proof (Forall2_lookup_lr _ _ _ _ _ _ Hall Hj Hoj cj eq_refl) as Hcj.
  rewrite Hid in Hci. rewrite Hci in Hcj. by injection Hcj.
Qed.

End Runs.

Section Totality.
Context `{GoStdlib}.

Lemma fastMatch_frame d ids tokens simTh inc o d' :
  fastMatch d ids tokens simTh inc = Ok (o, d') ->
  config d' = config d /\ rootNode d' = rootNode d
  /\ clustersCounter d' = clustersCounter d.
Proof.
  unfold fastMatch. intros ([b c] & _ & [= <- <-])%bind_Ok. done.
Qed.

Lemma treeSearch_frame d tokens simTh inc o d' :
  treeSearch d (rootNode d) tokens simTh inc = Ok (o, d') ->
  config d' = config d /\ rootNode d' = rootNode d
  /\ clustersCounter d' = clustersCounter d.
Proof.
  unfold treeSearch.
  destruct (keyToChildNode (rootNode d) !! _); [|by intros [= <- <-]].
  destruct (len tokens =? 0).
  - destruct (clusterIDs n); [done|].
    by intros ([? ?] & _ & [= <- <-])%bind_Ok.
  - destruct (searchLoop _ _ _ _ _); [|by intros [= <- <-]].
    apply fastMatch_frame.
Qed.

Lemma addLoop_touched cfg cluster tokenCount tokens depth cur c n' c' :
  addLoop cfg cluster tokenCount tokens depth cur c = Ok (n', c') ->
  touched c c'.
Proof.
  revert depth cur c n' c'.
  induction tokens as [|token tokens IH]; intros depth cur c n' c'.
  { simpl. intros [= <- <-]. apply touched_refl. }
  rewrite addLoop_cons.
  destruct ((maxNodeDepth cfg <=? depth) || (tokenCount <=? depth)).
  { intros ([ids c1] & Hlive & [= <- <-])%bind_Ok. by apply liveIDs_Ok in Hlive as [? _]. }
  destruct (route cfg cur token) as [key [ch|]].
  - intros ([n1 c1] & Hadd & [= <- <-])%bind_Ok. by eapply IH.
  - destruct tokens; [|done]. intros [= <- <-]. apply touched_refl.
Qed.

Lemma addSeqToPrefixTree_touched d root cluster d' :
  addSeqToPrefixTree d root cluster = Ok d' ->
  touched (idToCluster d) (idToCluster d')
  /\ config d' = config d /\ clustersCounter d' = clustersCounter d.
Proof.
  unfold addSeqToPrefixTree. destruct (len (Tokens cluster) =? 0).
  - intros [= <-]. simpl. split; [apply touched_refl|done].
  - intros ([n' c'] & Hadd & [= <-])%bind_Ok. simpl.
    split; [by eapply addLoop_touched|done].
Qed.

(** [Train] keeps the nodes capped and never meets a nil node, whatever
    the cache. *)
Lemma Train_capped d content ts :
  1 <= MaxChildren (config d) -> all_capped d ->
  match Train d content ts with
  | Ok (c, d') => all_capped d' /\ config d' = config d
  | Panic p => p <> NilNode
  end.
Proof.
  intros Hmax Hcap. unfold Train.
  set (tokens := getContentAsTokens (config d) content).
  destruct (treeSearch d (rootNode d) tokens (SimTh (config d)) false)
    as [[o d1]|p] eqn:Hts; simpl.
  2: { intros ->. revert Hts. apply raises_not.
       by apply treeSearch_raises. }
  apply treeSearch_frame in Hts as (Hcfg & Hroot & Hcnt).
  destruct o as [m|].
  - assert (raises (fun p => p <> NilNode)
              (createTemplate (config d1) tokens (Tokens m))) as Hr1
      by by apply createTemplate_raises.
    destruct (createTemplate _ _ _) as [r|p]; simpl; [|by apply Hr1].
    match goal with |- context [LogCluster_append ?x ?y ?z] =>
      assert (raises (fun p => p <> NilNode) (LogCluster_append x y z)) as Hr2
        by (by apply LogCluster_append_raises);
      destruct (LogCluster_append x y z) as [m2|p]; simpl; [|by apply Hr2]
    end.
    match goal with |- context [Cache_Get ?x ?y] =>
      assert (raises (fun p => p <> NilNode) (Cache_Get x y)) as Hr3
        by (by apply Cache_Get_raises);
      destruct (Cache_Get x y) as [[o3 c3]|p]; simpl; [|by apply Hr3]
    end.
    split; [|done]. unfold all_capped. simpl. rewrite Hcfg, Hroot. apply Hcap.
  - match goal with |- context [Cache_Set ?x ?y ?z] =>
      destruct (Cache_Set x y z) as [c1|p] eqn:Hset; simpl
    end.
    2: { intros ->. revert Hset. apply raises_not.
         by apply Cache_Set_raises. }
    match goal with |- context [addSeqToPrefixTree ?x _ ?z] =>
      destruct (addSeqToPrefixTree_capped x z) as (d2 & Hadd & Hcap2)
    end.
    + apply getContentAsTokens_nonempty.
    + simpl. by rewrite Hcfg.
    + simpl. unfold Cache_Set in Hset. destruct (cache (idToCluster d1)); [|done].
      injection Hset as <-. simpl. eauto.
    + simpl. rewrite Hcfg, Hroot. apply Hcap.
    + simpl in Hadd. rewrite Hadd. simpl.
      apply addSeqToPrefixTree_touched in Hadd as (_ & Hcfg2 & _).
      simpl in Hcfg2, Hcap2. split; [|congruence].
      unfold all_capped. by rewrite Hcfg2.
Qed.

Lemma Match_capped d content :
  match Match d content with
  | Ok (o, d') => rootNode d' = rootNode d /\ config d' = config d
  | Panic p => p <> NilNode
  end.
Proof.
  unfold Match.
  destruct (treeSearch d (rootNode d) _ one true) as [[o d1]|p] eqn:Hts.
  - by apply treeSearch_frame in Hts as (? & ? & ?).
  - intros ->. revert Hts. apply raises_not. by apply treeSearch_raises.
Qed.

Lemma run_capped d calls :
  1 <= MaxChildren (config d) -> all_capped d ->
  match run d calls with
  | Ok (outs, d') => all_capped d' /\ config d' = config d
  | Panic p => p <> NilNode
  end.
Proof.
  revert d. induction calls as [|call calls IH]; intros d Hmax Hcap; [done|].
  simpl.
  assert (match step d call with
          | Ok (o, d') => all_capped d' /\ config d' = config d
          | Panic p => p <> NilNode
          end) as Hstep.
  { destruct call as [content ts|content]; simpl.
    - pose proof (Train_capped d content ts Hmax Hcap) as HT.
      by destruct (Train d content ts) as [[c d1]|p].
    - pose proof (Match_capped d content) as HM.
      destruct (Match d content) as [[o d1]|p]; [|done].
      destruct HM as [Hroot Hcfg]. split; [|done].
      unfold all_capped. rewrite Hroot, Hcfg. apply Hcap. }
  destruct (step d call) as [[o d1]|p]; simpl; [|done].
  destruct Hstep as [Hcap1 Hcfg1].
  specialize (IH d1). rewrite Hcfg1 in IH. specialize (IH Hmax Hcap1).
  destruct (run d1 calls) as [[os d2]|p]; simpl; [|done].
  destruct IH as [? ?]. split; [done|congruence].
Qed.

Lemma Sound_touched d c' :
  Sound d -> touched (idToCluster d) c' ->
  Sound (mkDrain (config d) (rootNode d) c' (clustersCounter d)).
Proof.
  intros [(l & Hl & Hlen) Ht Hv] [Hr Hc]. split; simpl; try done.
  - rewrite Hl in Hc. destruct (cache c') as [l'|]; [|done].
    exists l'. split; [done|]. lia.
  - intros id v. rewrite Hr. apply Hv.
Qed.

(** On an engine in its invariant, with a cache, capped nodes and
    non-empty volumes, [Train] returns and keeps all of that. *)
Lemma Train_total G d content ts :
  Inv G d -> Sound d -> 1 <= MaxChildren (config d) ->
  exists c d', Train d content ts = Ok (c, d') /\ Sound d'.
Proof.
  intros HInv HS Hmax. unfold Train.
  set (tokens := getContentAsTokens (config d) content).
  pose proof (treeSearch_spec G d tokens (SimTh (config d)) false HInv) as Hts.
  destruct (treeSearch d (rootNode d) tokens (SimTh (config d)) false)
    as [[o d1]|p]; simpl.
  2: { destruct Hts as [[_ Hnil]|[_ Hnil]].
       - destruct (sound_cache _ HS) as (l & Hl & _). congruence.
       - by apply getContentAsTokens_nonempty in Hnil. }
  destruct Hts as (Hcfg & Hroot & Hcnt & Ht & Hm).
  pose proof (Sound_touched d _ HS Ht) as HS1.
  assert (mkDrain (config d) (rootNode d) (idToCluster d1) (clustersCounter d) = d1)
    as Hd1 by (destruct d1; simpl in *; congruence).
  rewrite Hd1 in HS1.
  destruct (sound_cache _ HS1) as (l1 & Hl1 & Hlen1).
  destruct o as [m|].
  - destruct (Hm m eq_refl) as [Hres Hlen].
    destruct (createTemplate_Ok (config d1) tokens (Tokens m)) as (r & -> & _);
      [done|]. simpl.
    unfold LogCluster_append. cbn [cluster_Volume].
    destruct (Add_Ok (cluster_Volume m) ts) as (v & -> & Hv);
      [by apply (sound_volume _ HS _ _ Hres)|]. simpl.
    match goal with |- context [Cache_Get (Cache_store ?c ?m2) ?k] =>
      destruct (cache_Cache_store c m2 l1 Hl1) as (l2 & Hl2 & Hs2 & Hlen2);
      destruct (Cache_Get_resolve (Cache_store c m2) k) as [c3 Hget];
        [by rewrite Hl2|];
      rewrite Hget; pose proof (resolve_Cache_store c m2) as Hstore
    end.
    simpl. eexists _, _. split; [done|].
    apply Cache_Get_touched in Hget as [_ [Hr3 Hc3]]. rewrite Hl2 in Hc3.
    split; simpl.
    + destruct (cache c3) as [l3|]; [|done]. exists l3. split; [done|]. lia.
    + apply (sound_tree _ HS1).
    + intros id v'. rewrite Hr3, Hstore. cbn [cluster_id]. case_bool_decide.
      * destruct (resolve (idToCluster d1) id); [|done]. simpl.
        by intros [= <-].
      * apply (sound_volume _ HS1).
  - match goal with |- context [Cache_Set ?c ?k ?new] =>
      destruct (Cache_Set_is_Ok c k new) as [c1 Hset]; [by rewrite Hl1|];
      rewrite Hset; simpl;
      apply Cache_Set_Ok in Hset as (Hk & Hother & l & l' & Hl & Hl' & Hs' & Hlen')
    end.
    2: { apply (inv_size G). rewrite <- Hd1. by apply Inv_touched. }
    rewrite Hl1 in Hl. injection Hl as <-.
    match goal with |- context [addSeqToPrefixTree ?x _ ?z] =>
      destruct (addSeqToPrefixTree_capped x z) as (d2 & Hadd & Hcap2)
    end.
    + apply getContentAsTokens_nonempty.
    + simpl. by rewrite Hcfg.
    + simpl. by rewrite Hl'.
    + apply (sound_tree _ HS1).
    + simpl in Hadd. rewrite Hadd. simpl. eexists _, _. split; [done|].
      apply addSeqToPrefixTree_touched in Hadd as ([Hr2 Hc2] & Hcfg2 & _).
      simpl in *. split.
      * rewrite Hl' in Hc2. destruct (cache (idToCluster d2)) as [l2|]; [|done].
        exists l2. split; [done|]. specialize (Hlen' Hlen1). lia.
      * by rewrite Hcfg2.
      * intros id v. rewrite Hr2. destruct (decide (id = add64 (clustersCounter d1) 1))
          as [->|Hne].
        -- rewrite Hk. by intros [= <-].
        -- intros Hv. apply Hother in Hv; [|done]. by apply (sound_volume _ HS1) in Hv.
Qed.

Lemma Match_total G d content :
  Inv G d -> Sound d ->
  exists o d', Match d content = Ok (o, d') /\ Sound d'.
Proof.
  intros HInv HS. unfold Match.
  pose proof (treeSearch_spec G d (getContentAsTokens (config d) content) one true HInv)
    as Hts.
  destruct (treeSearch d (rootNode d) _ one true) as [[o d1]|p]; simpl.
  2: { destruct Hts as [[_ Hnil]|[_ Hnil]].
       - destruct (sound_cache _ HS) as (l & Hl & _). congruence.
       - by apply getContentAsTokens_nonempty in Hnil. }
  destruct Hts as (Hcfg & Hroot & Hcnt & Ht & Hm).
  pose proof (Sound_touched d _ HS Ht) as HS1.
  assert (mkDrain (config d) (rootNode d) (idToCluster d1) (clustersCounter d) = d1)
    as Hd1 by (destruct d1; simpl in *; congruence).
  rewrite Hd1 in HS1. eauto.
Qed.

Lemma run_total G d calls :
  Inv G d -> Sound d -> 1 <= MaxChildren (config d) ->
  clustersCounter d + len calls <= max_int ->
  exists outs d', run d calls = Ok (outs, d') /\ Sound d'.
Proof.
  revert G d. induction calls as [|call calls IH]; intros G d HInv HS Hmax Hlen.
  { simpl. eauto. }
  unfold len in Hlen. simpl length in Hlen. simpl.
  assert (exists o d1, step d call = Ok (o, d1) /\ Sound d1) as (o & d1 & Hstep & HS1).
  { destruct call as [content ts|content]; simpl.
    - destruct (Train_total G d content ts HInv HS Hmax) as (c & d1 & -> & ?).
      simpl. eauto.
    - by apply (Match_total G). }
  rewrite Hstep. simpl.
  destruct (step_Inv G d call o d1 HInv) as (G1 & _ & HInv1 & _ & Hcfg1 & Hcnt1 & _);
    [lia|done|].
  destruct (IH G1 d1 HInv1 HS1) as (os & d2 & -> & HS2);
    [by rewrite Hcfg1|unfold len; lia|].
  simpl. eauto.
Qed.

Lemma New_Sound cfg d :
  New cfg = Ok d -> 0 <= MaxClusters cfg -> 1 <= MaxChildren cfg ->
  Sound d /\ all_capped d /\ MaxChildren (config d) = MaxChildren cfg.
Proof.
  intros [_ ->]%New_Ok Hclusters Hchildren.
  assert (forall key nd, keyToChildNode createNode !! key = Some nd -> False) as Hempty.
  { intros key nd. simpl. by rewrite lookup_empty. }
  split; [|split; [|done]].
  - split; cbn [idToCluster rootNode clustersCounter config].
    + destruct (createLogClusterCache_cases (MaxClusters cfg))
        as [[? _]|(_ & size & ? & ->)]; [lia|].
      eexists. split; [done|]. unfold len. simpl. lia.
    + intros key nd Hk. by apply Hempty in Hk.
    + intros id v. unfold resolve.
      destruct (createLogClusterCache_cases (MaxClusters cfg))
        as [[_ ->]|(_ & size & _ & ->)]; done.
  - intros key nd Hk. by apply Hempty in Hk.
Qed.

End Totality.

Section Branching.
Context `{GoStdlib}.

(** At a node that is at capacity, or one short of it with no wildcard
    child yet, a token that has no child of its own is routed under the
    wildcard marker: into the wildcard child, created if it is missing. *)
Lemma route_at_capacity cfg cur token :
  capped cfg cur ->
  keyToChildNode cur !! token = None ->
  MaxChildren cfg <= children cur
  \/ (children cur + 1 = MaxChildren cfg
      /\ keyToChildNode cur !! ParamString cfg = None) ->
  route cfg cur token
  = (ParamString cfg,
     Some (default createNode (keyToChildNode cur !! ParamString cfg))).
Proof.
  intros [Hle Hlt] Htok Hfull. unfold route. rewrite Htok.
  destruct (keyToChildNode cur !! ParamString cfg) as [w|] eqn:Hw; simpl.
  - destruct Hfull as [Hfull|[_ [=]]].
    destruct (negb (hasNumbers token)); [|done].
    destruct (Z.ltb_spec (children cur) (MaxChildren cfg)); [lia|done].
  - specialize (Hlt eq_refl). destruct Hfull as [Hfull|[Hfull _]]; [lia|].
    destruct (negb (hasNumbers token)); [|done].
    destruct (Z.ltb_spec (children cur + 1) (MaxChildren cfg)); [lia|].
    destruct (Z.eqb_spec (children cur + 1) (MaxChildren cfg)); [done|lia].
Qed.

(** C8. With [MaxChildren = N >= 1], in every run of calls on a new engine
    no insertion meets a nil node, and afterwards every node below the
    root has at most [N] children (with [max_clusters >= 0] and a run
    within the range of the cluster counter, the run does return).  At a
    node at capacity, and at a node one child short of it that has no
    wildcard child, the insertion loop moves a token without a child of
    its own under the wildcard marker, into the wildcard child or a newly
    created one; at a node at capacity the wildcard child exists. *)
Theorem children_capped (cfg : Config) (d0 : Drain) (calls : list call) :
  New cfg = Ok d0 ->
  1 <= MaxChildren cfg ->
  run d0 calls <> Panic NilNode
  /\ (forall outs d, run d0 calls = Ok (outs, d) ->
        forall key nd, keyToChildNode (rootNode d) !! key = Some nd ->
          Forall_nodes (fun n => children n <= MaxChildren cfg) nd)
  /\ (0 <= MaxClusters cfg -> len calls <= max_int ->
      exists outs d, run d0 calls = Ok (outs, d))
  /\ (forall cluster tokenCount token rest depth curNode c,
        capped (config d0) curNode ->
        (maxNodeDepth (config d0) <=? depth) || (tokenCount <=? depth) = false ->
        keyToChildNode curNode !! token = None ->
        MaxChildren cfg <= children curNode
        \/ (children curNode + 1 = MaxChildren cfg
            /\ keyToChildNode curNode !! ParamString cfg = None) ->
        (MaxChildren cfg <= children curNode ->
         is_Some (keyToChildNode curNode !! ParamString cfg))
        /\ addLoop (config d0) cluster tokenCount (token :: rest) depth curNode c
           = '(n, c) ← addLoop (config d0) cluster tokenCount rest (depth + 1)
                         (default createNode
                            (keyToChildNode curNode !! ParamString cfg)) c;
             Ok (mkNode (<[ParamString cfg := n]> (keyToChildNode curNode))
                   (clusterIDs curNode), c)).
Proof.
  intros HNew Hmax.
  pose proof (New_Ok _ _ HNew) as [_ Hd0].
  assert (config d0 = mkConfig (LogClusterDepth cfg - 2) (LogClusterDepth cfg)
            (SimTh cfg) (MaxChildren cfg) (ExtraDelimiters cfg)
            (MaxClusters cfg) (ParamString cfg)) as Hcfg by by subst d0.
  assert (all_capped d0) as Hcap.
  { subst d0. intros key nd. simpl. by rewrite lookup_empty. }
  assert (MaxChildren (config d0) = MaxChildren cfg) as HM by by rewrite Hcfg.
  assert (ParamString (config d0) = ParamString cfg) as HP by by rewrite Hcfg.
  pose proof (run_capped d0 calls) as Hrun. rewrite HM in Hrun.
  specialize (Hrun Hmax Hcap).
  split_and!.
  - destruct (run d0 calls) as [[outs d]|p]; [done|]. by intros [= ->].
  - intros outs d Hr. rewrite Hr in Hrun. destruct Hrun as [Hall Hc].
    intros key nd Hk. eapply Forall_nodes_impl; [|by apply (Hall key nd)].
    intros n [Hn _]. by rewrite Hc, HM in Hn.
  - intros Hclusters Hlen.
    destruct (New_Inv _ _ HNew) as [HInv Hcnt].
    destruct (New_Sound _ _ HNew Hclusters Hmax) as (HS & _ & _).
    destruct (run_total ∅ d0 calls HInv HS) as (outs & d & Hr & _); [lia..|eauto].
  - intros cluster tokenCount token rest depth curNode c Hc Hleaf Htok Hfull.
    split.
    + intros Hge. destruct Hc as [_ Hc]. rewrite HP, HM in Hc.
      destruct (keyToChildNode curNode !! ParamString cfg); [eauto|].
      specialize (Hc eq_refl). lia.
    + rewrite addLoop_cons, Hleaf, (route_at_capacity _ _ _ Hc Htok), HP; [done|].
      by rewrite HM, HP.
Qed.

End Branching.

(** ** The order of float64 values *)

Ltac float_cases :=
  repeat match goal with
         | x : float64 |- _ => destruct x as [|[]|?]
         end;
  simpl in *; try done;
  repeat match goal with
         | H : context [Qcompare ?a ?b] |- _ => destruct (Qcompare_spec a b)
         | |- context [Qcompare ?a ?b] => destruct (Qcompare_spec a b)
         end;
  simpl in *; try done; try lra.

Lemma ltb_trans x y z : ltb x y = true -> ltb y z = true -> ltb x z = true.
Proof. float_cases. Qed.

Lemma ltb_eqb_trans x y z : ltb x y = true -> eqb y z = true -> ltb x z = true.
Proof. float_cases. Qed.

Lemma eqb_ltb_trans x y z : eqb x y = true -> ltb y z = true -> ltb x z = true.
Proof. float_cases. Qed.

Lemma eqb_trans x y z : eqb x y = true -> eqb y z = true -> eqb x z = true.
Proof. float_cases. Qed.

Lemma eqb_sym x y : eqb x y = eqb y x.
Proof. float_cases. Qed.

Lemma ltb_asym x y : ltb x y = true -> ltb y x = false.
Proof. float_cases. Qed.

Lemma ltb_not_eqb x y : ltb x y = true -> eqb x y = false.
Proof. float_cases. Qed.

Lemma float_trichotomy x y :
  x <> NaN -> y <> NaN -> ltb x y = true \/ eqb x y = true \/ ltb y x = true.
Proof. float_cases; auto. Qed.

Lemma ltb_not_NaN x y : ltb x y = true -> x <> NaN /\ y <> NaN.
Proof. float_cases. Qed.

Lemma ltb_irrefl (x : float64) : ltb x x = false.
Proof.
  destruct x as [|[]|q]; simpl; try done.
  assert (Qcompare q q = Eq) as -> by (apply Qeq_alt; reflexivity). done.
Qed.

Section Retraining.
Context `{GoStdlib}.

Lemma beats_self (s : float64 * Z) : beats s s.1 s.2 = false.
Proof.
  unfold beats, gtb. rewrite ltb_irrefl, Z.ltb_irrefl.
  by destruct (eqb _ _).
Qed.

Lemma seqCount_self param l a b :
  param ∉ l -> seqCount param l l a b = (a + len l, b).
Proof.
  revert a. induction l as [|t l IH]; intros a Hnot; simpl.
  { f_equal. unfold len. simpl. lia. }
  apply not_elem_of_cons in Hnot as [Hne Hnot].
  rewrite bool_decide_eq_false_2 by done.
  rewrite bool_decide_eq_true_2 by done.
  rewrite IH by done. f_equal. unfold len. simpl. lia.
Qed.

Lemma merge_self (param : string) (l : list string) :
  zip_with (fun t1 t2 : string => if bool_decide (t1 ≠ t2) then param else t2) l l
  = l.
Proof.
  induction l as [|t l IH]; [done|]. cbn [zip_with].
  rewrite bool_decide_eq_false_2 by auto. by rewrite IH.
Qed.

(** A line without the wildcard marker scores exactly 1.0 against
    itself, with no wildcard position. *)
Lemma seqDistance_self cfg tokens :
  tokens <> [] -> ParamString cfg ∉ tokens ->
  seqDistance cfg tokens tokens false = (one, 0).
Proof.
  intros Hne Hnot. unfold seqDistance. rewrite seqCount_self by done.
  rewrite Z.add_0_l, div_self; [done|].
  destruct tokens; [done|]. unfold len. simpl. lia.
Qed.

(** The scan of a candidate list that names one resolvable cluster. *)
Lemma fastMatch_loop_one cfg tokens inc ids b c m :
  (forall id, id ∈ ids -> resolve c id = Some m) ->
  length (Tokens m) = length tokens ->
  exists c', touched c c'
    /\ fastMatch_loop cfg tokens inc ids (b, c)
       = Ok (match ids with
             | [] => b
             | _ :: _ =>
                 let s := seqDistance cfg (Tokens m) tokens inc in
                 if beats s (maxSim b) (maxParamCount b)
                 then mkBest s.1 s.2 (Some m) else b
             end, c').
Proof.
  intros Hall Hlen. revert b c Hall.
  induction ids as [|id ids IH]; intros b c Hall.
  { exists c. split; [apply touched_refl|done]. }
  simpl.
  assert (is_Some (cache c)) as Hc.
  { specialize (Hall id). unfold resolve in Hall.
    destruct (cache c); [eauto|]. by discriminate Hall; left. }
  destruct (Cache_Get_resolve c id Hc) as [c1 Hget]. rewrite Hget.
  apply Cache_Get_touched in Hget as [_ Ht]. simpl.
  rewrite (Hall id) by left. rewrite getSeqDistance_Ok by done. simpl.
  set (s := seqDistance cfg (Tokens m) tokens inc).
  assert (forall id', id' ∈ ids -> resolve c1 id' = Some m) as Hall1.
  { intros id' Hin. destruct Ht as [-> _]. apply Hall. by right. }
  destruct (beats s (maxSim b) (maxParamCount b)) eqn:Hb; simpl.
  - destruct (IH (mkBest s.1 s.2 (Some m)) c1 Hall1) as (c' & Ht' & ->).
    exists c'. split; [by eapply touched_trans|].
    destruct ids; [done|]. simpl. fold s. by rewrite beats_self.
  - destruct (IH b c1 Hall1) as (c' & Ht' & ->).
    exists c'. split; [by eapply touched_trans|].
    destruct ids; [done|]. simpl. fold s. by rewrite Hb.
Qed.

(** C3, as the code has it.  On a new engine with [max_children >= 1],
    [max_clusters >= 0] and a similarity threshold of at most 1.0, training
    a line none of whose tokens is the wildcard marker, twice, returns the
    cluster with identifier 1 both times, of size 1 and then 2. *)
Theorem Train_twice_same_cluster (cfg : Config) (content : string) (t1 t2 : Z) :
  3 <= LogClusterDepth cfg ->
  1 <= MaxChildren cfg ->
  0 <= MaxClusters cfg ->
  leb (SimTh cfg) one = true ->
  ParamString cfg ∉ getContentAsTokens cfg content ->
  exists d0 c1 d1 c2 d2,
    New cfg = Ok d0
    /\ Train d0 content t1 = Ok (c1, d1)
    /\ Train d1 content t2 = Ok (c2, d2)
    /\ cluster_id c1 = 1 /\ cluster_id c2 = 1
    /\ Size c1 = 1 /\ Size c2 = 2.
Proof.
  intros Hdepth Hchildren Hclusters Hth Hparam.
  set (cfg' := mkConfig (LogClusterDepth cfg - 2) (LogClusterDepth cfg)
                 (SimTh cfg) (MaxChildren cfg) (ExtraDelimiters cfg)
                 (MaxClusters cfg) (ParamString cfg)).
  set (tokens := getContentAsTokens cfg content) in *.
  assert (tokens <> []) as Hne by apply getContentAsTokens_nonempty.
  assert (getContentAsTokens cfg' content = tokens) as Htok by done.
  set (new := mkLogCluster 1 1 tokens [content] (initVolume t1)).
  destruct (createLogClusterCache_cases (MaxClusters cfg))
    as [[? _]|(_ & size & Hsize & Hcache)]; [lia|].
  set (c0 := createLogClusterCache (MaxClusters cfg)) in *.
  set (d0 := mkDrain cfg' createNode c0 0).
  assert (New cfg = Ok d0) as HNew.
  { unfold New. destruct (Z.ltb_spec (LogClusterDepth cfg) 3); [lia|done]. }
  (* the first call: a new cluster *)
  set (ca := mkCache (Some (mkLRU size [(1, new)]))).
  assert (Cache_Set c0 1 new = Ok ca) as Hset.
  { unfold Cache_Set. rewrite Hcache. unfold LRU_Add. simpl.
    destruct (Z.ltb_spec size (len [(1, new)])) as [Hlt|_]; [|done].
    unfold len in Hlt. simpl in Hlt. lia. }
  destruct (addLoop_capped cfg' new (len tokens) tokens 1 createNode ca)
    as (n1 & cb & Hadd & _); [done|by eauto|
      by apply Forall_nodes_createNode, capped_createNode|].
  set (key := Itoa (len tokens)).
  set (d1 := mkDrain cfg' (mkNode (<[key := n1]> ∅) []) cb 1).
  assert (Train d0 content t1 = Ok (new, d1)) as HT1.
  { unfold Train. cbn [config d0]. rewrite Htok.
    unfold treeSearch. cbn [rootNode d0 keyToChildNode createNode].
    rewrite lookup_empty. simpl.
    change (add64 0 1) with 1. fold new. rewrite Hset. simpl.
    unfold addSeqToPrefixTree. cbn [Tokens new keyToChildNode createNode config].
    rewrite lookup_empty, (len_nonempty _ Hne). cbn [idToCluster].
    rewrite Hadd. done. }
  (* the state after it *)
  pose proof (addLoop_touched _ _ _ _ _ _ _ _ _ Hadd) as [Hres Hcb].
  assert (forall id v, resolve cb id = Some v -> id = 1 /\ v = new) as Honly.
  { intros id v. rewrite Hres. unfold resolve, ca. simpl.
    case_bool_decide; [|done]. by intros [= <-]. }
  assert (resolve cb 1 = Some new) as Hone.
  { rewrite Hres. unfold resolve, ca. done. }
  destruct (searchLoop_after_addLoop cfg' new (len tokens) tokens 1 createNode ca
              n1 cb Hne) as (leaf & ids & Hsearch & _ & Hleaf); [lia|done|].
  assert (Forall_nodes (candidates_of_length {[1 := length tokens]} (length tokens)) n1)
    as Hn1.
  { eapply (addLoop_candidates {[1 := length tokens]} (length tokens)); [| |done].
    - by rewrite lookup_singleton_eq.
    - apply Forall_nodes_createNode. by intros id ?%elem_of_nil. }
  pose proof (searchLoop_Forall _ _ _ _ _ _ _ Hn1 Hsearch) as Hids%Forall_nodes_here.
  assert (forall id, id ∈ clusterIDs leaf -> resolve cb id = Some new) as Hall.
  { intros id Hin. specialize (Hids id Hin).
    apply lookup_singleton_Some in Hids as [<- _]. done. }
  (* the second call: the cluster matches *)
  destruct (fastMatch_loop_one cfg' tokens false (clusterIDs leaf)
              (mkBest neg_one (-1) None) cb new Hall eq_refl) as (cc & Hcc & Hloop).
  rewrite Hleaf in Hloop at 2.
  assert (match ids ++ [cluster_id new] with
          | [] => mkBest neg_one (-1) None
          | _ :: _ =>
              let s := seqDistance cfg' (Tokens new) tokens false in
              if beats s (maxSim (mkBest neg_one (-1) None))
                   (maxParamCount (mkBest neg_one (-1) None))
              then mkBest s.1 s.2 (Some new) else mkBest neg_one (-1) None
          end = mkBest one 0 (Some new)) as Hbest.
  { destruct (ids ++ [cluster_id new]) eqn:Happ; [by destruct ids|].
    cbn [Tokens new]. rewrite seqDistance_self by done. done. }
  rewrite Hbest in Hloop. clear Hbest.
  assert (Values (initVolume t1) <> []) as Hv0 by done.
  destruct (Add_Ok (initVolume t1) t2 Hv0) as (v & Hv & _).
  set (m2 := mkLogCluster 1 2 tokens
               (if len [content] <? maxSamples then [content] ++ [content]
                else [content]) v).
  assert (is_Some (cache (Cache_store cc m2))) as Hstore.
  { destruct Hcc as [_ Hc]. unfold ca in Hcb. simpl in Hcb.
    destruct (cache cb) as [lb|] eqn:Hlb; [|done].
    destruct (cache cc) as [lc|] eqn:Hlc; [|done].
    destruct (cache_Cache_store cc m2 lc Hlc) as (l' & -> & _). eauto. }
  destruct (Cache_Get_resolve (Cache_store cc m2) 1 Hstore) as [cd Hget].
  exists d0, new, d1, m2, (mkDrain cfg' (mkNode (<[key := n1]> ∅) []) cd 1).
  split_and!; try done.
  unfold Train. cbn [config d1]. rewrite Htok.
  unfold treeSearch. cbn [rootNode d1 keyToChildNode]. fold key.
  rewrite lookup_insert_eq, (len_nonempty _ Hne). cbn [config d1].
  rewrite Hsearch. unfold fastMatch. cbn [config idToCluster d1].
  rewrite Hloop. cbn [mbind result_bind maxSim maxCluster].
  unfold geb. cbn [SimTh cfg']. rewrite Hth.
  cbn [mbind result_bind rootNode clustersCounter config idToCluster d1 Tokens new].
  unfold createTemplate. rewrite bool_decide_eq_false_2 by auto.
  cbn [mbind result_bind].
  rewrite merge_self.
  unfold LogCluster_append. cbn [cluster_Volume Samples new cluster_id Size].
  rewrite Hv. change (add64 1 1) with 2.
  cbn [mbind result_bind cluster_id Size Tokens Samples cluster_Volume].
  fold m2. change (cluster_id m2) with 1. rewrite Hget. done.
Qed.

End Retraining.

Section Selection.
Context `{GoStdlib}.

(** A candidate that makes [b] give way also makes give way whatever [b]
    made give way, and whatever did not make [b] give way. *)
Lemma beats_trans (a b c : float64 * Z) :
  beats a b.1 b.2 = true -> beats b c.1 c.2 = true -> beats a c.1 c.2 = true.
Proof.
  unfold beats, gtb. destruct a as [a1 a2], b as [b1 b2], c as [c1 c2]. simpl.
  intros [Hab|[Hab Hab']%andb_true_iff]%orb_true_iff
         [Hbc|[Hbc Hbc']%andb_true_iff]%orb_true_iff; apply orb_true_iff.
  - left. by eapply ltb_trans.
  - left. rewrite eqb_sym in Hbc. by eapply eqb_ltb_trans.
  - left. rewrite eqb_sym in Hab. by eapply ltb_eqb_trans.
  - right. apply andb_true_iff. split; [by eapply eqb_trans|lia].
Qed.

Lemma beats_total (a b : float64 * Z) :
  a.1 <> NaN -> b.1 <> NaN ->
  beats a b.1 b.2 = false -> beats b a.1 a.2 = false ->
  eqb a.1 b.1 = true /\ a.2 = b.2.
Proof.
  unfold beats, gtb. destruct a as [a1 a2], b as [b1 b2]. simpl.
  intros Ha Hb [Hab Hab']%orb_false_iff [Hba Hba']%orb_false_iff.
  destruct (float_trichotomy a1 b1 Ha Hb) as [Hlt|[Heq|Hgt]]; try congruence.
  rewrite Heq in Hab'. rewrite eqb_sym, Heq in Hba'. simpl in *.
  split; [done|lia].
Qed.

Lemma beats_trans_not (a b c : float64 * Z) :
  a.1 <> NaN -> b.1 <> NaN -> c.1 <> NaN ->
  beats a b.1 b.2 = true -> beats c b.1 b.2 = false -> beats a c.1 c.2 = true.
Proof.
  intros Ha Hb Hc Hab Hcb.
  destruct (beats b c.1 c.2) eqn:Hbc; [by eapply beats_trans|].
  destruct (beats_total b c Hb Hc Hbc Hcb) as [Heq Hpc].
  revert Hab. unfold beats, gtb.
  destruct a as [a1 a2], b as [b1 b2], c as [c1 c2]. simpl in *. subst c2.
  intros [Hab|[Hab Hab']%andb_true_iff]%orb_true_iff; apply orb_true_iff.
  - left. rewrite eqb_sym in Heq. by eapply eqb_ltb_trans.
  - right. apply andb_true_iff. split; [by eapply eqb_trans|done].
Qed.

Lemma beats_asym (a b : float64 * Z) :
  beats a b.1 b.2 = true -> beats b a.1 a.2 = false.
Proof.
  unfold beats, gtb. destruct a as [a1 a2], b as [b1 b2]. simpl.
  intros [Hab|[Hab Hab']%andb_true_iff]%orb_true_iff; apply orb_false_iff.
  - rewrite (ltb_asym _ _ Hab), (ltb_not_eqb _ _ Hab). done.
  - rewrite eqb_sym, Hab. split.
    + destruct (ltb a1 b1) eqn:Hlt; [|done].
      apply ltb_not_eqb in Hlt. congruence.
    + simpl. lia.
Qed.

(** ** Scores *)

Lemma seqCount_spec param seq1 seq2 a b :
  seqCount param seq1 seq2 a b
  = (a + literalMatches param seq1 seq2, b + wildcards param seq1 seq2).
Proof.
  unfold literalMatches, wildcards, len.
  revert seq2 a b. induction seq1 as [|t1 seq1 IH]; intros [|t2 seq2] a b; simpl;
    try (f_equal; lia).
  rewrite !filter_cons. simpl.
  destruct (decide (t1 = param)) as [->|Hne].
  - rewrite bool_decide_eq_true_2 by done. rewrite IH.
    destruct (decide (param <> param /\ param = t2)) as [[? _]|_]; [done|].
    simpl. f_equal; lia.
  - rewrite bool_decide_eq_false_2 by done.
    destruct (decide (t1 = t2)) as [->|Hne'].
    + rewrite bool_decide_eq_true_2 by done. rewrite IH.
      destruct (decide (t2 <> param /\ t2 = t2)) as [_|Hn]; [|by destruct Hn].
      simpl. f_equal; lia.
    + rewrite bool_decide_eq_false_2 by done. rewrite IH.
      destruct (decide (t1 <> param /\ t1 = t2)) as [[_ ?]|_]; [done|].
      f_equal; lia.
Qed.

(** The score is the fraction of literal matches, the wildcard positions
    counted in when they are included; the second component is the number
    of wildcard positions. *)
Lemma seqDistance_spec cfg seq1 seq2 inc :
  seqDistance cfg seq1 seq2 inc
  = (F64.div
       (of_int (literalMatches (ParamString cfg) seq1 seq2
                + if inc then wildcards (ParamString cfg) seq1 seq2 else 0))
       (of_int (len seq1)),
     wildcards (ParamString cfg) seq1 seq2).
Proof.
  unfold seqDistance. rewrite seqCount_spec. cbv beta iota zeta.
  rewrite !Z.add_0_l. destruct inc; [done|]. by rewrite Z.add_0_r.
Qed.

Lemma half_even_nonneg a b : 0 <= a -> 0 < b -> 0 <= half_even a b.
Proof.
  intros Ha Hb. pose proof (half_even_lower a b Hb).
  pose proof (Z.div_pos a b Ha Hb). lia.
Qed.

Lemma pow2Q_pos e : (0 < pow2Q e)%Q.
Proof.
  unfold pow2Q. destruct (Z.leb_spec 0 e); unfold Qlt; simpl; [|lia].
  pose proof (Z.pow_pos_nonneg 2 e). lia.
Qed.

Lemma round_pos_above n d : 0 < n -> ltb neg_one (round_pos n d) = true.
Proof.
  intros Hn. unfold round_pos.
  set (s := 52 - Z.max (ilog2 n d) (-1022)).
  set (m := if 0 <=? s then half_even (n * 2 ^ s) (Z.pos d)
            else half_even n (Z.pos d * 2 ^ (- s))).
  assert (0 <= m) as Hm.
  { unfold m. destruct (Z.leb_spec 0 s).
    - apply half_even_nonneg; [|lia].
      pose proof (Z.pow_pos_nonneg 2 s). nia.
    - apply half_even_nonneg; [lia|].
      pose proof (Z.pow_pos_nonneg 2 (- s)). nia. }
  destruct (Qcompare _ (pow2Q 1024)); try done. simpl.
  destruct (Qcompare_spec (-1 # 1) (Qred ((m # 1) * pow2Q (- s)))) as [Heq|Hlt|Hgt];
    [|done|].
  - rewrite Qred_correct in Heq. pose proof (pow2Q_pos (- s)).
    assert (0 <= (m # 1) * pow2Q (- s))%Q; [|lra].
    apply Qmult_le_0_compat; [|lra]. unfold Qle. simpl. lia.
  - rewrite Qred_correct in Hgt. pose proof (pow2Q_pos (- s)).
    assert (0 <= (m # 1) * pow2Q (- s))%Q; [|lra].
    apply Qmult_le_0_compat; [|lra]. unfold Qle. simpl. lia.
Qed.

Lemma of_int_nonneg z : 0 <= z -> exists q, of_int z = Fin q /\ (0 <= q)%Q.
Proof.
  intros Hz. destruct (decide (z = 0)) as [->|Hne].
  - exists 0%Q. done.
  - destruct (of_int_pos z) as (q & ? & ?); [lia|]. exists q. split; [done|lra].
Qed.

(** A score is above the initial maximum of -1.0, and so a number. *)
Lemma score_above a n : 0 <= a -> 0 < n ->
  ltb neg_one (F64.div (of_int a) (of_int n)) = true.
Proof.
  intros Ha Hn.
  destruct (of_int_nonneg a Ha) as (qa & -> & Hqa).
  destruct (of_int_pos n Hn) as (qn & -> & Hqn).
  unfold F64.div.
  assert (is_zero qn = false) as ->.
  { unfold is_zero. destruct qn as [[] ?]; done. }
  unfold round64, round_red.
  assert (0 <= Qred (qa / qn))%Q as Hq.
  { rewrite Qred_correct. apply Qle_shift_div_l; [done|]. lra. }
  destruct (Qred (qa / qn)) as [num den] eqn:Hred. simpl.
  destruct num as [|p|p]; simpl; [done| |].
  - by apply round_pos_above.
  - unfold Qle in Hq. simpl in Hq. lia.
Qed.

Lemma literalMatches_nonneg param seq1 seq2 : 0 <= literalMatches param seq1 seq2.
Proof. unfold literalMatches, len. lia. Qed.

Lemma wildcards_nonneg param seq1 seq2 : 0 <= wildcards param seq1 seq2.
Proof. unfold wildcards, len. lia. Qed.

Lemma seqDistance_above cfg seq1 seq2 inc :
  seq1 <> [] -> ltb neg_one (seqDistance cfg seq1 seq2 inc).1 = true.
Proof.
  intros Hne. rewrite seqDistance_spec. simpl. apply score_above.
  - pose proof (literalMatches_nonneg (ParamString cfg) seq1 seq2).
    pose proof (wildcards_nonneg (ParamString cfg) seq1 seq2).
    destruct inc; lia.
  - destruct seq1; [done|]. unfold len. simpl. lia.
Qed.

End Selection.

Lemma scored_touched cfg tokens inc c c' ids :
  touched c c' -> scored cfg tokens inc c' ids = scored cfg tokens inc c ids.
Proof.
  intros [Hr _]. unfold scored. induction ids as [|id ids IH]; [done|].
  cbn [omap list_omap]. by rewrite Hr, IH.
Qed.

(** The scan is a left fold of [pick] over the candidates that resolve. *)
Lemma fastMatch_loop_fold cfg tokens inc ids b c :
  is_Some (cache c) ->
  (forall id v, id ∈ ids -> resolve c id = Some v ->
                length (Tokens v) = length tokens) ->
  exists c', touched c c'
    /\ fastMatch_loop cfg tokens inc ids (b, c)
       = Ok (foldl pick b (scored cfg tokens inc c ids), c').
Proof.
  revert b c. induction ids as [|id ids IH]; intros b c Hc Hlen.
  { exists c. split; [apply touched_refl|done]. }
  simpl. destruct (Cache_Get_resolve c id Hc) as [c1 Hget]. rewrite Hget.
  apply Cache_Get_touched in Hget as [_ Ht]. simpl.
  assert (forall id' v, id' ∈ ids -> resolve c1 id' = Some v ->
                        length (Tokens v) = length tokens) as Hlen1.
  { intros id' v Hin. destruct Ht as [-> _]. apply Hlen. by right. }
  pose proof (touched_is_Some _ _ Ht Hc) as Hc1.
  destruct (resolve c id) as [m|] eqn:Hm; simpl.
  - rewrite getSeqDistance_Ok by (eapply Hlen; [left|done]). simpl.
    destruct (IH (pick b (m, seqDistance cfg (Tokens m) tokens inc)) c1 Hc1 Hlen1)
      as (c' & Ht' & Hloop).
    exists c'. split; [by eapply touched_trans|].
    rewrite <- (scored_touched _ _ _ _ _ _ Ht), <- Hloop. unfold pick. simpl.
    by destruct (beats _ _ _).
  - destruct (IH b c1 Hc1 Hlen1) as (c' & Ht' & Hloop).
    exists c'. split; [by eapply touched_trans|].
    by rewrite <- (scored_touched _ _ _ _ _ _ Ht), <- Hloop.
Qed.

Lemma scored_above cfg tokens inc c ids e :
  tokens <> [] ->
  (forall id v, id ∈ ids -> resolve c id = Some v ->
                length (Tokens v) = length tokens) ->
  e ∈ scored cfg tokens inc c ids -> ltb neg_one e.2.1 = true.
Proof.
  intros Hne Hlen. unfold scored. rewrite list_elem_of_omap.
  intros (id & Hin & He). destruct (resolve c id) as [m|] eqn:Hm; [|done].
  injection He as <-. simpl. apply seqDistance_above.
  specialize (Hlen id m Hin Hm). destruct (Tokens m); [|done].
  by destruct tokens.
Qed.

(** The fold ends on the first candidate that nothing before or after it
    makes give way. *)
Lemma foldl_pick_first_best (l : list (LogCluster * (float64 * Z))) :
  (forall e, e ∈ l -> ltb neg_one e.2.1 = true) ->
  match l with
  | [] => foldl pick (mkBest neg_one (-1) None) l = mkBest neg_one (-1) None
  | _ :: _ => exists k C s, first_best l k C s
                /\ foldl pick (mkBest neg_one (-1) None) l = mkBest s.1 s.2 (Some C)
  end.
Proof.
  induction l as [|e l IH] using rev_ind; [done|]. intros Hall.
  assert (forall e', e' ∈ l -> e'.2.1 <> NaN) as Hnan.
  { intros e' Hin. eapply ltb_not_NaN, Hall, elem_of_app. by left. }
  assert (ltb neg_one e.2.1 = true) as He.
  { apply Hall, elem_of_app. right. by left. }
  assert (match l ++ [e] with
          | [] => False
          | _ :: _ => exists k C s, first_best (l ++ [e]) k C s
                        /\ foldl pick (mkBest neg_one (-1) None) (l ++ [e])
                           = mkBest s.1 s.2 (Some C)
          end) as Hgoal; [|by destruct (l ++ [e])].
  assert (exists k C s, first_best (l ++ [e]) k C s
            /\ foldl pick (mkBest neg_one (-1) None) (l ++ [e])
               = mkBest s.1 s.2 (Some C)) as Hex; [|by destruct l].
  rewrite foldl_app. simpl.
  destruct l as [|e0 l0].
  { cbn [foldl]. unfold pick, beats, gtb. cbn [maxSim maxParamCount].
    rewrite He. cbn [orb].
    exists 0%nat, e.1, e.2. split; [|done]. split_and!.
    - by destruct e.
    - intros j D sD _ Hj. lia.
    - intros j D sD Hj Hlt. destruct j; [lia|done]. }
  destruct IH as (k & C & s & (Hk & Hbefore & Hafter) & ->).
  { intros e' Hin. apply Hall, elem_of_app. by left. }
  remember (e0 :: l0) as l eqn:Hl. clear Hl e0 l0.
  assert (s.1 <> NaN) as Hs.
  { apply (Hnan (C, s)). by eapply list_elem_of_lookup_2. }
  pose proof (lookup_lt_Some _ _ _ Hk) as Hklt.
  unfold pick. cbn [maxSim maxParamCount].
  destruct (beats e.2 s.1 s.2) eqn:Hb.
  - (* the new candidate takes over *)
    exists (length l), e.1, e.2. split; [|done]. split_and!.
    + rewrite lookup_app_r, Nat.sub_diag by lia. by destruct e.
    + intros j D sD Hj Hlt. rewrite lookup_app_l in Hj by done.
      assert (sD.1 <> NaN) as HD.
      { apply (Hnan (D, sD)). by eapply list_elem_of_lookup_2. }
      destruct (Nat.lt_trichotomy j k) as [Hjk|[->|Hjk]].
      * eapply beats_trans; [done|]. by eapply Hbefore.
      * rewrite Hk in Hj. by injection Hj as <- <-.
      * eapply (beats_trans_not _ s); try done.
        -- by apply ltb_not_NaN in He as [_ ?].
        -- by eapply Hafter.
    + intros j D sD Hj Hlt. apply lookup_lt_Some in Hj.
      rewrite length_app in Hj. simpl in Hj. lia.
  - (* the maximum stays *)
    exists k, C, s. split; [|done]. split_and!.
    + by rewrite lookup_app_l.
    + intros j D sD Hj Hlt. rewrite lookup_app_l in Hj by lia. by eapply Hbefore.
    + intros j D sD Hj Hlt.
      destruct (decide (j < length l)%nat) as [Hjl|Hjl].
      * rewrite lookup_app_l in Hj by done. by eapply Hafter.
      * rewrite lookup_app_r in Hj by lia.
        destruct (j - length l)%nat eqn:Hjj; [|by destruct n].
        simpl in Hj. injection Hj as ->. done.
Qed.

Lemma first_best_unique l k k' C C' s s' :
  first_best l k C s -> first_best l k' C' s' -> k = k'.
Proof.
  intros (Hk & Hb & Ha) (Hk' & Hb' & Ha').
  destruct (Nat.lt_trichotomy k k') as [Hlt|[->|Hlt]]; [|done|].
  - pose proof (Hb' k C s Hk Hlt) as H1. pose proof (Ha k' C' s' Hk' Hlt) as H2.
    congruence.
  - pose proof (Hb k' C' s' Hk' Hlt) as H1. pose proof (Ha' k C s Hk Hlt) as H2.
    congruence.
Qed.

(** C7, as the code has it.  For a line of at least one token and
    candidates whose templates have its length, [fastMatch] returns the
    cluster [C] exactly when [C] resolves from the candidate list at a
    position [k] such that it outranks every candidate that resolves
    before [k] (higher score, or equal score and more wildcards), no
    candidate that resolves after [k] outranks it, and its score is at
    least the threshold: a tie in both score and wildcard count goes to
    the earliest candidate.  The score is the fraction of positions that
    match literally, the wildcard positions included on request. *)
Theorem fastMatch_returns_first_best (d : Drain) (clusterIDs : list Z)
    (tokens : list string) (simTh : float64) (includeParams : bool) :
  is_Some (cache (idToCluster d)) ->
  tokens <> [] ->
  (forall id v, id ∈ clusterIDs -> resolve (idToCluster d) id = Some v ->
                length (Tokens v) = length tokens) ->
  exists o d',
    fastMatch d clusterIDs tokens simTh includeParams = Ok (o, d')
    /\ (forall C, o = Some C <->
          exists k s,
            first_best (scored (config d) tokens includeParams (idToCluster d)
                          clusterIDs) k C s
            /\ geb s.1 simTh = true)
    /\ (forall template,
          seqDistance (config d) template tokens includeParams
          = (F64.div
               (of_int (literalMatches (ParamString (config d)) template tokens
                        + if includeParams
                          then wildcards (ParamString (config d)) template tokens
                          else 0))
               (of_int (len template)),
             wildcards (ParamString (config d)) template tokens)).
Proof.
  intros Hc Hne Hlen. unfold fastMatch.
  destruct (fastMatch_loop_fold (config d) tokens includeParams clusterIDs
              (mkBest neg_one (-1) None) (idToCluster d) Hc Hlen) as (c' & Ht & ->).
  simpl. eexists _, _. split; [done|]. split; [|intros; apply seqDistance_spec].
  set (l := scored (config d) tokens includeParams (idToCluster d) clusterIDs).
  pose proof (foldl_pick_first_best l) as Hfold.
  assert (forall e, e ∈ l -> ltb neg_one e.2.1 = true) as Habove.
  { intros e. by apply scored_above. }
  specialize (Hfold Habove). intros C.
  destruct l as [|e0 l0] eqn:Hl.
  - rewrite Hfold. simpl. split.
    + by destruct (geb _ _).
    + intros (k & s & (Hk & _) & _). by rewrite lookup_nil in Hk.
  - destruct Hfold as (k & C' & s & Hfirst & ->). simpl. split.
    + destruct (geb s.1 simTh) eqn:Hge; [|done]. intros [= <-]. eauto.
    + intros (k' & s' & Hfirst' & Hge').
      pose proof (first_best_unique _ _ _ _ _ _ _ Hfirst Hfirst') as <-.
      destruct Hfirst as (Hk & _), Hfirst' as (Hk' & _).
      rewrite Hk in Hk'. injection Hk' as <- <-. by rewrite Hge'.
Qed.

Section Generalization.
Context `{GoStdlib}.

Lemma createTemplate_lookup cfg seq1 seq2 r :
  createTemplate cfg seq1 seq2 = Ok r ->
  length r = length seq2
  /\ forall i t1 t2, seq1 !! i = Some t1 -> seq2 !! i = Some t2 ->
       r !! i = Some (if bool_decide (t1 = t2) then t2 else ParamString cfg).
Proof.
  unfold createTemplate. case_bool_decide as Hlen; [done|]. intros [= <-].
  split; [rewrite length_zip_with; lia|].
  intros i t1 t2 H1 H2. rewrite lookup_zip_with, H1, H2. simpl.
  by repeat case_bool_decide.
Qed.

Lemma add64_fresh (a : Z) :
  0 <= a <= max_int -> add64 a 1 < 1 \/ a < add64 a 1.
Proof.
  intros Ha. destruct (decide (a = max_int)) as [->|Hne].
  - left. by vm_compute.
  - right. rewrite add64_small; lia.
Qed.

(** A [Train] that returns a cluster that was there before has merged the
    line into its template with [createTemplate]. *)
Lemma Train_merges G d content ts c d' m :
  Inv G d -> clustersCounter d <= max_int ->
  Train d content ts = Ok (c, d') ->
  resolve (idToCluster d) (cluster_id c) = Some m ->
  createTemplate (config d) (getContentAsTokens (config d) content) (Tokens m)
  = Ok (Tokens c).
Proof.
  intros HInv Hmax. unfold Train.
  set (tokens := getContentAsTokens (config d) content).
  pose proof (treeSearch_spec G d tokens (SimTh (config d)) false HInv) as Hts.
  destruct (treeSearch d (rootNode d) tokens (SimTh (config d)) false)
    as [[o d1]|p]; [|done].
  destruct Hts as (Hcfg & Hroot & Hcnt & Ht & Hm). simpl.
  destruct o as [m0|].
  - destruct (Hm m0 eq_refl) as [Hres Hlen].
    intros (r & Hr & Hrest)%bind_Ok.
    apply bind_Ok in Hrest as (m2 & Happ & Hrest).
    apply bind_Ok in Hrest as ([o3 c3] & Hget & [= <- <-]).
    unfold LogCluster_append in Happ.
    apply bind_Ok in Happ as (v & _ & [= <-]). cbn [cluster_id Tokens].
    rewrite Hres. intros [= <-]. by rewrite <- Hcfg.
  - rewrite Hcnt.
    intros (c1 & Hset & Hrest)%bind_Ok.
    apply bind_Ok in Hrest as (d2 & Hadd & [= <- <-]). cbn [cluster_id].
    intros Hres. destruct (inv_cache _ _ HInv _ _ Hres) as [_ HG].
    apply (inv_ids _ _ HInv) in HG.
    pose proof (inv_counter _ _ HInv).
    destruct (add64_fresh (clustersCounter d)); lia.
Qed.

(** C4. [createTemplate] keeps a token where the template and the line
    agree and writes the wildcard marker elsewhere; a matching [Train]
    replaces the template by that merge; hence, between any two points of
    a run on a new engine, a template position that holds the wildcard
    marker still holds it for as long as the cluster lives. *)
Theorem wildcards_persist (cfg : Config) (d0 d1 d2 : Drain)
    (calls1 calls2 : list call) (outs1 outs2 : list (option LogCluster)) :
  New cfg = Ok d0 ->
  len (calls1 ++ calls2) <= max_int ->
  run d0 calls1 = Ok (outs1, d1) ->
  run d1 calls2 = Ok (outs2, d2) ->
  (forall seq1 seq2 r, createTemplate cfg seq1 seq2 = Ok r ->
     length r = length seq2
     /\ forall i t1 t2, seq1 !! i = Some t1 -> seq2 !! i = Some t2 ->
          r !! i = Some (if bool_decide (t1 = t2) then t2 else ParamString cfg))
  /\ (forall content ts c d' m,
        Train d1 content ts = Ok (c, d') ->
        resolve (idToCluster d1) (cluster_id c) = Some m ->
        createTemplate (config d1) (getContentAsTokens (config d1) content) (Tokens m)
        = Ok (Tokens c))
  /\ (forall id m m' i,
        resolve (idToCluster d1) id = Some m ->
        resolve (idToCluster d2) id = Some m' ->
        Tokens m !! i = Some (ParamString cfg) ->
        Tokens m' !! i = Some (ParamString cfg)).
Proof.
  intros HNew Hlen Hrun1 Hrun2.
  destruct (New_Inv _ _ HNew) as [HInv0 Hcnt0].
  pose proof (New_Ok _ _ HNew) as [_ Hd0].
  assert (ParamString (config d0) = ParamString cfg) as HP by by subst d0.
  unfold len in Hlen. rewrite length_app in Hlen.
  rewrite Nat2Z.inj_add in Hlen.
  destruct (run_Inv ∅ d0 calls1 outs1 d1 HInv0)
    as (G1 & _ & HInv1 & _ & Hcfg1 & Hcnt1 & _); [unfold len; lia|done|].
  unfold len in Hcnt1.
  assert (clustersCounter d1 + len calls2 <= max_int) as Hb.
  { unfold len. clear Hd0. lia. }
  destruct (run_Inv G1 d1 calls2 outs2 d2 HInv1 Hb Hrun2)
    as (G2 & _ & HInv2 & _ & Hcfg2 & Hcnt2 & Hdesc).
  split_and!.
  - apply createTemplate_lookup.
  - intros content ts c d' m. apply (Train_merges G1); [done|].
    unfold len in Hb. lia.
  - intros id m m' i Hm Hm' Hi.
    destruct (Hdesc id m' Hm') as [(m0 & Hm0 & Hgen)|Hnew].
    + rewrite Hm in Hm0. injection Hm0 as <-.
      rewrite Hcfg1, HP in Hgen. by apply Hgen.
    + destruct (inv_cache _ _ HInv1 _ _ Hm) as [_ HG].
      apply (inv_ids _ _ HInv1) in HG. exfalso. lia.
Qed.

(** ** The capacity of the cache *)

Lemma length_omap_le {A B} (f : A -> option B) (l : list A) :
  (length (omap f l) <= length l)%nat.
Proof.
  induction l as [|x l IH]; [done|]. cbn [omap list_omap].
  destruct (f x); cbn [length]; lia.
Qed.

(** [Clusters] returns no more clusters than the cache holds. *)
Lemma Clusters_length d l :
  cache (idToCluster d) = Some l ->
  exists cs, Clusters d = Ok cs /\ len cs <= len (evictList l).
Proof.
  intros Hl. unfold Clusters, Cache_Values. rewrite Hl. eexists. split; [done|].
  unfold len. pose proof (length_omap_le (LRU_Peek l) (LRU_Keys l)) as Hle.
  unfold LRU_Keys in Hle at 2. rewrite length_rev, length_fmap in Hle. lia.
Qed.

End Generalization.

(** ** Splitting and joining *)

Lemma Split_cons (c : ascii) (s : string) (sep : ascii) :
  c <> sep ->
  exists w ws, Split s sep = w :: ws /\ Split (String c s) sep = String c w :: ws.
Proof.
  intros Hc. simpl. destruct (Ascii.eqb_spec c sep) as [|_]; [done|].
  destruct (Split s sep) as [|w ws] eqn:Hs; [by apply Split_nonempty in Hs|].
  by exists w, ws.
Qed.

Lemma Split_no_sep (s : string) (sep : ascii) :
  sep ∉ bytes s -> Split s sep = [s].
Proof.
  induction s as [|c s IH]; [done|]. unfold bytes. simpl. intros Hnot.
  apply not_elem_of_cons in Hnot as [Hc Hs].
  destruct (Ascii.eqb_spec c sep) as [->|_]; [done|].
  by rewrite (IH Hs).
Qed.

Lemma Split_app (s t : string) (sep : ascii) :
  sep ∉ bytes s ->
  Split (s +:+ String sep t) sep = s :: Split t sep.
Proof.
  induction s as [|c s IH]; unfold bytes; simpl; intros Hnot.
  - by rewrite Ascii.eqb_refl.
  - apply not_elem_of_cons in Hnot as [Hc Hs].
    destruct (Ascii.eqb_spec c sep) as [->|_]; [done|].
    by rewrite (IH Hs).
Qed.

Lemma Join_cons (e e' : string) (elems : list string) (sep : string) :
  Join (e :: e' :: elems) sep = e +:+ sep +:+ Join (e' :: elems) sep.
Proof. done. Qed.

(** The pieces of a split hold no separator, there is one more of them
    than there are separators, and joining them with the separator gives
    the string back. *)
Theorem Split_pieces (s : string) (sep : ascii) :
  Forall (fun w => sep ∉ bytes w) (Split s sep)
  /\ length (Split s sep) = S (length (filter (fun c => c = sep) (bytes s)))
  /\ Join (Split s sep) (String sep EmptyString) = s.
Proof.
  induction s as [|c s (IH1 & IH2 & IH3)].
  - split_and!; [|done..]. constructor; [|done]. unfold bytes. simpl. set_solver.
  - unfold bytes in *. simpl. destruct (Ascii.eqb_spec c sep) as [->|Hc].
    + split_and!.
      * constructor; [simpl; set_solver|done].
      * rewrite filter_cons_True by done. simpl. by rewrite IH2.
      * destruct (Split s sep) as [|w ws] eqn:Hs; [by apply Split_nonempty in Hs|].
        by rewrite Join_cons, IH3.
    + destruct (Split s sep) as [|w ws] eqn:Hs; [by apply Split_nonempty in Hs|].
      split_and!.
      * apply Forall_cons in IH1 as [Hw Hws]. constructor; [|done].
        simpl. by apply not_elem_of_cons.
      * rewrite filter_cons_False by done. done.
      * rewrite <- IH3. destruct ws; [done|]. by rewrite !Join_cons.
Qed.

(** The template string of a cluster splits back into its tokens, when
    there is at least one token and no token holds a space. *)
Theorem getTemplate_Split (c : LogCluster) :
  Tokens c <> [] ->
  Forall (fun w => " "%char ∉ bytes w) (Tokens c) ->
  Split (LogCluster_String c) " " = Tokens c.
Proof.
  unfold LogCluster_String, getTemplate.
  induction (Tokens c) as [|w ws IH]; [done|]. intros _ Hall.
  apply Forall_cons in Hall as [Hw Hws].
  destruct ws as [|w' ws].
  - simpl. by apply Split_no_sep.
  - rewrite Join_cons.
    change (Split (w +:+ String " "%char (Join (w' :: ws) " ")) " " = w :: w' :: ws).
    rewrite Split_app by done. by rewrite IH.
Qed.

(** The tokens of a line are the pieces of the trimmed line, its extra
    delimiters replaced by spaces, between its spaces: no token holds a
    space, there is one token more than there are spaces (two adjacent
    spaces give an empty token), and the tokens joined by spaces are that
    line again. *)
Theorem getContentAsTokens_pieces `{GoStdlib} (cfg : Config) (content : string) :
  Forall (fun w => " "%char ∉ bytes w) (getContentAsTokens cfg content)
  /\ length (getContentAsTokens cfg content)
     = S (length (filter (fun c => c = " "%char)
            (bytes (fold_left (fun content extraDelimiter =>
                                 Replace content extraDelimiter " " (-1))
                      (ExtraDelimiters cfg) (TrimSpace content)))))
  /\ Join (getContentAsTokens cfg content) " "
     = fold_left (fun content extraDelimiter => Replace content extraDelimiter " " (-1))
         (ExtraDelimiters cfg) (TrimSpace content).
Proof. apply Split_pieces. Qed.

(** ** Volume *)

(** [truncateTimestamp] rounds toward zero to a multiple of the
    resolution: the result is a multiple of ten seconds between zero and
    the timestamp, less than ten seconds away from it, and truncating
    again changes nothing. *)
Theorem truncateTimestamp_toward_zero (ts : Z) :
  (timeResolution | truncateTimestamp ts)
  /\ Z.abs (truncateTimestamp ts) <= Z.abs ts
  /\ Z.abs (ts - truncateTimestamp ts) < timeResolution
  /\ (0 <= ts -> 0 <= truncateTimestamp ts <= ts)
  /\ (ts <= 0 -> ts <= truncateTimestamp ts <= 0)
  /\ truncateTimestamp (truncateTimestamp ts) = truncateTimestamp ts.
Proof.
  unfold truncateTimestamp.
  assert (timeResolution <> 0) as Hne by done.
  assert (0 < timeResolution) as Hpos by done.
  pose proof (Z.quot_rem ts timeResolution Hne) as Hqr.
  assert (ts - Z.rem ts timeResolution = timeResolution * (ts ÷ timeResolution))
    as Heq by lia.
  rewrite Heq.
  assert (Z.rem (timeResolution * (ts ÷ timeResolution)) timeResolution = 0) as H0.
  { rewrite Z.mul_comm. by apply Z.rem_mul. }
  split; [by apply Z.divide_factor_l|].
  destruct (Z.le_gt_cases 0 ts) as [Hts|Hts].
  - pose proof (Z.rem_bound_pos ts timeResolution Hts Hpos).
    rewrite H0. unfold timeResolution in *. split_and!; lia.
  - assert (0 <= - ts) as Hts' by lia.
    pose proof (Z.rem_bound_pos (- ts) timeResolution Hts' Hpos) as Hb.
    rewrite Z.rem_opp_l in Hb by done.
    rewrite H0. unfold timeResolution in *. split_and!; lia.
Qed.

Lemma wrap64_range (z : Z) : - 2 ^ 63 <= wrap64 z < 2 ^ 63.
Proof.
  unfold wrap64. pose proof (Z.mod_pos_bound (z + 2 ^ 63) (2 ^ 64)). lia.
Qed.

Lemma wrap64_small (z : Z) : - 2 ^ 63 <= z < 2 ^ 63 -> wrap64 z = z.
Proof. intros Hz. unfold wrap64. rewrite Z.mod_small; lia. Qed.

Lemma wrap64_add_l (a b : Z) : wrap64 (wrap64 a + b) = wrap64 (a + b).
Proof.
  unfold wrap64. f_equal.
  replace ((a + 2 ^ 63) mod 2 ^ 64 - 2 ^ 63 + b + 2 ^ 63)
    with ((a + 2 ^ 63) mod 2 ^ 64 + b) by lia.
  rewrite Zplus_mod_idemp_l. f_equal. lia.
Qed.

Lemma wrap64_add_r (a b : Z) : wrap64 (a + wrap64 b) = wrap64 (a + b).
Proof. rewrite (Z.add_comm a), wrap64_add_l. f_equal. lia. Qed.

Lemma fold_add64 (vs : list (Z * Z)) (m : Z) :
  wrap64 m = m ->
  fold_left (fun m v => add64 m v.2) vs m = wrap64 (m + total vs).
Proof.
  revert m. induction vs as [|v vs IH]; intros m Hm; simpl.
  - by rewrite Z.add_0_r.
  - rewrite IH.
    + unfold add64. rewrite wrap64_add_l. f_equal. lia.
    + unfold add64. apply wrap64_small, wrap64_range.
Qed.

(** [Matches] is the sum of the counts in 64-bit arithmetic. *)
Lemma Matches_total (x : Volume) : Matches x = wrap64 (total (Values x)).
Proof. unfold Matches. by rewrite fold_add64. Qed.

Lemma total_app (vs ws : list (Z * Z)) : total (vs ++ ws) = total vs + total ws.
Proof. induction vs as [|v vs IH]; simpl; [done|]. rewrite IH. lia. Qed.

Lemma ascending_snoc (vs : list (Z * Z)) (v : Z * Z) :
  ascending (vs ++ [v]) <-> ascending vs /\ Forall (fun a => a.1 < v.1) vs.
Proof.
  unfold ascending. induction vs as [|a vs IH]; simpl.
  - split; [intros _; split; constructor|]. intros _. by repeat constructor.
  - split.
    + intros Hs. apply StronglySorted_inv in Hs as [Hs Ha].
      apply IH in Hs as [Hs Hv]. rewrite Forall_forall in Ha.
      split.
      * constructor; [done|]. apply Forall_forall. intros b Hb.
        apply Ha. apply elem_of_app. by left.
      * constructor; [|done]. apply Ha, elem_of_app. right. by apply list_elem_of_singleton.
    + intros [Hs Hv]. apply StronglySorted_inv in Hs as [Hs Ha].
      apply Forall_cons in Hv as [Hav Hv].
      constructor; [apply IH; by split|].
      apply Forall_app. split; [done|]. by constructor.
Qed.

Lemma ascending_head_last (vs : list (Z * Z)) (a b : Z * Z) :
  ascending vs -> head vs = Some a -> last vs = Some b -> a.1 <= b.1.
Proof.
  intros Hs Ha Hb. destruct vs as [|a' vs]; [done|]. injection Ha as ->.
  destruct vs as [|c vs]; [injection Hb as ->; lia|].
  apply StronglySorted_inv in Hs as [_ Hall].
  assert (b ∈ c :: vs) as Hin.
  { change (last (a :: c :: vs)) with (last (c :: vs)) in Hb.
    apply last_Some in Hb as [l' ->]. set_solver. }
  rewrite Forall_forall in Hall. apply Hall in Hin. lia.
Qed.

(** Recording a timestamp that is not before the last bucket: the count
    of the last bucket goes up by one when the truncated timestamp is the
    bucket's, otherwise a bucket with count 1 is appended; the buckets stay
    in ascending order and [Matches] goes up by one. *)
Theorem Add_in_order (x : Volume) (ts : Z) (init : list (Z * Z)) (lastv : Z * Z) :
  ascending (Values x) ->
  Values x = init ++ [lastv] ->
  lastv.1 <= truncateTimestamp ts ->
  exists x',
    Add x ts = Ok x'
    /\ Values x'
       = (if bool_decide (lastv.1 = truncateTimestamp ts)
          then init ++ [(lastv.1, add64 lastv.2 1)]
          else Values x ++ [(truncateTimestamp ts, 1)])
    /\ ascending (Values x')
    /\ Matches x' = add64 (Matches x) 1.
Proof.
  intros Hasc Hvs Hle. unfold Add.
  destruct (head (Values x)) as [first|] eqn:Hhead.
  2: { rewrite Hvs in Hhead. by destruct init. }
  assert (last (Values x) = Some lastv) as Hlast by (rewrite Hvs; apply last_snoc).
  rewrite Hlast.
  pose proof (ascending_head_last _ _ _ Hasc Hhead Hlast) as Hfl.
  set (t := truncateTimestamp ts) in *.
  destruct (Z.eqb_spec lastv.1 t) as [Heq|Hne].
  - eexists. split; [done|]. rewrite bool_decide_eq_true_2 by done.
    assert (incr_count (Values x) (length (Values x) - 1)
            = init ++ [(lastv.1, add64 lastv.2 1)]) as Hincr.
    { rewrite Hvs. unfold incr_count. rewrite length_app. simpl.
      replace (length init + 1 - 1)%nat with (length init + 0)%nat by lia.
      by rewrite alter_app_r. }
    cbn [Values]. rewrite Hincr. split; [done|]. split.
    + rewrite Hvs in Hasc. apply ascending_snoc in Hasc as [H1 H2].
      apply ascending_snoc. by split.
    + rewrite !Matches_total. cbn [Values]. rewrite Hvs, !total_app. simpl.
      unfold add64. rewrite !Z.add_0_r, wrap64_add_l, wrap64_add_r. f_equal. lia.
  - destruct (Z.ltb_spec t first.1) as [?|_]; [lia|].
    destruct (Z.ltb_spec lastv.1 t) as [Hlt|?]; [|lia].
    eexists. split; [done|]. rewrite bool_decide_eq_false_2 by done.
    cbn [Values]. split; [done|]. split.
    + apply ascending_snoc. split; [done|].
      rewrite Hvs in Hasc |- *. apply ascending_snoc in Hasc as [H1 H2].
      apply Forall_app. split.
      * apply (Forall_impl _ _ _ H2). intros a Ha. simpl. lia.
      * by constructor.
    + rewrite !Matches_total. cbn [Values]. rewrite total_app. simpl.
      unfold add64. rewrite wrap64_add_l. f_equal; lia.
Qed.

(** ** Binary search *)

Lemma search_loop_spec (f : Z -> bool) (fuel : nat) (i j k : Z) :
  i <= k <= j -> j - i <= Z.of_nat fuel ->
  (forall h, i <= h < k -> f h = false) ->
  (forall h, k <= h < j -> f h = true) ->
  search_loop fuel f i j = k.
Proof.
  revert i j. induction fuel as [|fuel IH]; intros i j Hk Hfuel Hlo Hhi; simpl.
  - lia.
  - destruct (Z.ltb_spec i j) as [Hij|?]; [|lia].
    pose proof (Z.div_le_lower_bound (i + j) 2 i) as H1.
    pose proof (Z.div_lt_upper_bound (i + j) 2 j) as H2.
    destruct (f ((i + j) / 2)) eqn:Hf; simpl.
    + apply IH; [|lia|done|].
      * destruct (Z.le_gt_cases k ((i + j) / 2)); [lia|].
        rewrite Hlo in Hf; [done|lia].
      * intros h Hh. apply Hhi. lia.
    + apply IH; [|lia| |done].
      * destruct (Z.le_gt_cases k ((i + j) / 2)) as [Hle|]; [|lia].
        rewrite Hhi in Hf; [done|lia].
      * intros h Hh. apply Hlo. lia.
Qed.

(** [sort.Search] on a predicate that is false below [k] and true from
    [k] on returns [k]. *)
Lemma Search_spec (n : Z) (f : Z -> bool) (k : Z) :
  0 <= k <= n ->
  (forall h, 0 <= h < k -> f h = false) ->
  (forall h, k <= h < n -> f h = true) ->
  Search n f = k.
Proof. intros Hk Hlo Hhi. unfold Search. apply search_loop_spec; [done|lia|done..]. Qed.

(** ** Ranges of a volume *)

Lemma filter_all {A} (P : A -> Prop) `{!forall x, Decision (P x)} (l : list A) :
  Forall P l -> filter P l = l.
Proof.
  induction 1 as [|x l Hx _ IH]; [done|]. by rewrite filter_cons_True, IH.
Qed.

Lemma filter_none {A} (P : A -> Prop) `{!forall x, Decision (P x)} (l : list A) :
  Forall (fun x => ~ P x) l -> filter P l = [].
Proof.
  induction 1 as [|x l Hx _ IH]; [done|]. by rewrite filter_cons_False.
Qed.

Lemma ascending_split (a : Z) (vs : list (Z * Z)) :
  ascending vs ->
  vs = filter (fun v => v.1 < a) vs ++ filter (fun v => a <= v.1) vs.
Proof.
  induction 1 as [|v vs Hs IH Hall]; [done|].
  destruct (Z.lt_ge_cases v.1 a) as [Hv|Hv].
  - rewrite filter_cons_True by done. rewrite filter_cons_False by lia.
    simpl. by rewrite <- IH.
  - rewrite filter_cons_False by lia. rewrite filter_cons_True by done.
    rewrite filter_none, filter_all; [done| |].
    + eapply Forall_impl; [exact Hall|]. simpl. intros b Hb. lia.
    + eapply Forall_impl; [exact Hall|]. simpl. intros b Hb. lia.
Qed.

Lemma timestamp_at_app_l (l r : list (Z * Z)) (h : Z) (v : Z * Z) :
  0 <= h -> l !! Z.to_nat h = Some v -> timestamp_at (l ++ r) h = v.1.
Proof.
  intros Hh Hl. unfold timestamp_at. by rewrite (lookup_app_l_Some _ _ _ _ Hl).
Qed.

(** The number of buckets before [a], which the search for the first
    timestamp [>= a] returns on an ascending volume. *)
Lemma Search_ascending (a : Z) (vs : list (Z * Z)) :
  ascending vs ->
  Search (len vs) (fun i => a <=? timestamp_at vs i)
  = len (filter (fun v => v.1 < a) vs).
Proof.
  intros Hasc. pose proof (ascending_split a vs Hasc) as Hsplit.
  set (l := filter (fun v => v.1 < a) vs) in *.
  set (r := filter (fun v => a <= v.1) vs) in *.
  assert (Forall (fun v => v.1 < a) l) as Hl.
  { apply Forall_forall. intros v Hv. by apply list_elem_of_filter in Hv as [? _]. }
  assert (Forall (fun v => a <= v.1) r) as Hr.
  { apply Forall_forall. intros v Hv. by apply list_elem_of_filter in Hv as [? _]. }
  transitivity (Search (len (l ++ r)) (fun i => a <=? timestamp_at (l ++ r) i)).
  { by rewrite <- Hsplit. }
  unfold len. rewrite length_app.
  apply Search_spec; [lia| |].
  - intros h Hh. unfold timestamp_at.
    destruct (lookup_lt_is_Some_2 l (Z.to_nat h)) as [v Hv]; [lia|].
    rewrite (lookup_app_l_Some _ _ _ _ Hv).
    rewrite Forall_forall in Hl. apply list_elem_of_lookup_2, Hl in Hv.
    apply Z.leb_gt. lia.
  - intros h Hh. unfold timestamp_at.
    rewrite lookup_app_r by lia.
    destruct (lookup_lt_is_Some_2 r (Z.to_nat h - length l)) as [v Hv]; [lia|].
    rewrite Hv.
    rewrite Forall_forall in Hr. apply list_elem_of_lookup_2, Hr in Hv.
    apply Z.leb_le. lia.
Qed.

Lemma ascending_filter (P : Z * Z -> Prop) `{!forall x, Decision (P x)}
    (vs : list (Z * Z)) :
  ascending vs -> ascending (filter P vs).
Proof.
  induction 1 as [|v vs Hs IH Hall]; [constructor|].
  destruct (decide (P v)).
  - rewrite filter_cons_True by done. constructor; [done|].
    apply Forall_forall. intros b Hb. apply list_elem_of_filter in Hb as [_ Hb].
    rewrite Forall_forall in Hall. by apply Hall.
  - by rewrite filter_cons_False.
Qed.

(** The buckets of an ascending volume from position [#(< a)] to position
    [#(< b)] are the buckets with a timestamp in [[a, b)]. *)
Lemma ascending_slice (a b : Z) (vs : list (Z * Z)) :
  ascending vs -> a <= b ->
  take (Z.to_nat (len (filter (fun v => v.1 < b) vs)
                  - len (filter (fun v => v.1 < a) vs)))
    (drop (Z.to_nat (len (filter (fun v => v.1 < a) vs))) vs)
  = filter (fun v => a <= v.1 < b) vs.
Proof.
  intros Hasc Hab.
  induction Hasc as [|v vs Hs IH Hall]; [done|].
  destruct (Z.lt_ge_cases v.1 a) as [Hva|Hva].
  - rewrite (filter_cons_True (fun v => v.1 < b)) by lia.
    rewrite (filter_cons_True (fun v => v.1 < a)) by lia.
    rewrite (filter_cons_False (fun v => a <= v.1 < b)) by lia.
    rewrite <- IH. unfold len. simpl length.
    replace (Z.to_nat (Z.of_nat (S (length (filter (fun v => v.1 < a) vs)))))
      with (S (Z.to_nat (Z.of_nat (length (filter (fun v => v.1 < a) vs))))) by lia.
    simpl. f_equal. lia.
  - rewrite (filter_cons_False (fun v => v.1 < a)) by lia.
    rewrite (filter_none (fun v => v.1 < a)).
    2: { eapply Forall_impl; [exact Hall|]. simpl. intros c Hc. lia. }
    simpl. rewrite Z.sub_0_r.
    destruct (Z.lt_ge_cases v.1 b) as [Hvb|Hvb].
    + rewrite (filter_cons_True (fun v => v.1 < b)) by lia.
      rewrite (filter_cons_True (fun v => a <= v.1 < b)) by lia.
      unfold len. simpl length.
      replace (Z.to_nat (Z.of_nat (S (length (filter (fun v => v.1 < b) vs)))))
        with (S (length (filter (fun v => v.1 < b) vs))) by lia.
      simpl. f_equal.
      pose proof (ascending_split b vs Hs) as Hsp.
      set (l := filter (fun v => v.1 < b) vs) in *.
      set (r := filter (fun v => b <= v.1) vs) in *.
      assert (take (length l) (l ++ r) = l) as Htake by apply take_app_length.
      assert (filter (fun v => a <= v.1 < b) (l ++ r) = l) as Hfil.
      { rewrite filter_app.
        rewrite (filter_all (fun v => a <= v.1 < b) l).
        2: { apply Forall_forall. intros c Hc.
             apply list_elem_of_filter in Hc as [Hc1 Hc2].
             rewrite Forall_forall in Hall. apply Hall in Hc2. lia. }
        rewrite (filter_none (fun v => a <= v.1 < b) r).
        2: { apply Forall_forall. intros c Hc.
             apply list_elem_of_filter in Hc as [Hc1 Hc2]. lia. }
        by rewrite app_nil_r. }
      rewrite <- Hsp in Htake, Hfil. by rewrite Htake, Hfil.
    + rewrite (filter_cons_False (fun v => v.1 < b)) by lia.
      rewrite (filter_cons_False (fun v => a <= v.1 < b)) by lia.
      rewrite (filter_none (fun v => v.1 < b)).
      2: { eapply Forall_impl; [exact Hall|]. simpl. intros c Hc. lia. }
      rewrite (filter_none (fun v => a <= v.1 < b)).
      2: { eapply Forall_impl; [exact Hall|]. simpl. intros c Hc. lia. }
      done.
Qed.

Lemma ascending_bounds (vs : list (Z * Z)) (firstv lastv : Z * Z) :
  ascending vs -> head vs = Some firstv -> last vs = Some lastv ->
  Forall (fun v => firstv.1 <= v.1 <= lastv.1) vs.
Proof.
  intros Hasc Hhead Hlast. apply Forall_forall. intros v Hv.
  apply list_elem_of_lookup in Hv as [i Hi].
  assert (forall (l : list (Z * Z)) i j a b, ascending l ->
            l !! i = Some a -> l !! j = Some b -> (i <= j)%nat -> a.1 <= b.1) as Hmono.
  { clear. intros l i j a b Hl. revert i j.
    induction Hl as [|c l Hl IH Hall]; intros i j Hi Hj Hij; [done|].
    destruct i as [|i], j as [|j]; simpl in *; try lia.
    - simplify_eq. lia.
    - simplify_eq. rewrite Forall_forall in Hall.
      apply list_elem_of_lookup_2, Hall in Hj. lia.
    - apply (IH i j); [done..|lia]. }
  split.
  - apply (Hmono vs 0%nat i); [done| |done|lia]. by rewrite <- head_lookup.
  - rewrite last_lookup in Hlast.
    apply (Hmono vs i (Nat.pred (length vs))); [done..|].
    apply lookup_lt_Some in Hi. lia.
Qed.

Lemma filter_length_mono {A} (P Q : A -> Prop) `{!forall x, Decision (P x)}
    `{!forall x, Decision (Q x)} (l : list A) :
  (forall x, P x -> Q x) -> (length (filter P l) <= length (filter Q l))%nat.
Proof.
  intros HPQ. induction l as [|x l IH]; [done|].
  destruct (decide (P x)) as [HP|HP].
  - rewrite (filter_cons_True P), (filter_cons_True Q) by auto. simpl. lia.
  - rewrite (filter_cons_False P) by done.
    destruct (decide (Q x)).
    + rewrite (filter_cons_True Q) by done. simpl. lia.
    + by rewrite (filter_cons_False Q).
Qed.

(** [ForRange] on an ascending volume never slices out of bounds.  For
    [start < end] and a first bucket before [end] it returns the buckets
    with a timestamp in [[start, end)], and with them the last bucket of
    the volume when its timestamp is [end] exactly; otherwise it returns
    no bucket. *)
Theorem ForRange_ascending (x : Volume) (start end_ : Z) (firstv lastv : Z * Z) :
  ascending (Values x) ->
  head (Values x) = Some firstv ->
  last (Values x) = Some lastv ->
  ForRange x start end_
  = Some (mkVolume
      (if bool_decide (start < end_ /\ firstv.1 < end_)
       then filter (fun v => start <= v.1
                             /\ (v.1 < end_ \/ (v.1 = end_ /\ lastv.1 = end_)))
              (Values x)
       else [])).
Proof.
  intros Hasc Hhead Hlast. unfold ForRange. rewrite Hhead, Hlast.
  pose proof (ascending_bounds _ _ _ Hasc Hhead Hlast) as Hb.
  destruct (Z.leb_spec end_ start) as [?|Hse]; simpl.
  { rewrite bool_decide_eq_false_2; [done|lia]. }
  destruct (Z.leb_spec end_ firstv.1) as [?|Hfe]; simpl.
  { rewrite bool_decide_eq_false_2; [done|lia]. }
  rewrite bool_decide_eq_true_2 by done.
  destruct (Z.ltb_spec lastv.1 start) as [Hls|Hls].
  { rewrite filter_none; [done|].
    eapply Forall_impl; [exact Hb|]. simpl. intros v Hv. lia. }
  set (b := if bool_decide (lastv.1 = end_) then end_ + 1 else end_).
  assert ((if firstv.1 <? start
           then Search (len (Values x)) (fun i => start <=? timestamp_at (Values x) i)
           else 0)
          = len (filter (fun v => v.1 < start) (Values x))) as ->.
  { destruct (Z.ltb_spec firstv.1 start); [by apply Search_ascending|].
    rewrite filter_none; [done|].
    eapply Forall_impl; [exact Hb|]. simpl. intros v Hv. lia. }
  assert ((if end_ <? lastv.1
           then Search (len (Values x)) (fun i => end_ <=? timestamp_at (Values x) i)
           else len (Values x))
          = len (filter (fun v => v.1 < b) (Values x))) as ->.
  { unfold b. destruct (Z.ltb_spec end_ lastv.1).
    - rewrite bool_decide_eq_false_2 by lia. by apply Search_ascending.
    - rewrite filter_all; [done|].
      eapply Forall_impl; [exact Hb|]. simpl. intros v Hv.
      case_bool_decide; lia. }
  assert (start <= b) as Hsb by (unfold b; case_bool_decide; lia).
  pose proof (filter_length_mono (fun v : Z * Z => v.1 < start) (fun v => v.1 < b)
                (Values x)) as Hmono.
  destruct (Z.ltb_spec (len (filter (fun v => v.1 < b) (Values x)))
              (len (filter (fun v => v.1 < start) (Values x)))) as [Hlt|_].
  { unfold len in Hlt.
    assert (forall v : Z * Z, v.1 < start -> v.1 < b) as Himp by (intros; lia).
    specialize (Hmono Himp). lia. }
  rewrite ascending_slice by done. do 2 f_equal.
  apply list_filter_iff. intros v. unfold b. case_bool_decide; lia.
Qed.

Lemma search_loop_mono (f g : Z -> bool) (fuel : nat) (i j : Z) :
  i <= j ->
  (forall h, g h = true -> f h = true) ->
  search_loop fuel f i j <= search_loop fuel g i j.
Proof.
  intros Hij Hgf. revert i j Hij.
  induction fuel as [|fuel IH]; intros i j Hij; simpl; [lia|].
  destruct (Z.ltb_spec i j) as [Hlt|?]; [|lia].
  pose proof (Z.div_le_lower_bound (i + j) 2 i) as H1.
  pose proof (Z.div_lt_upper_bound (i + j) 2 j) as H2.
  destruct (f ((i + j) / 2)) eqn:Hf, (g ((i + j) / 2)) eqn:Hg; simpl.
  - apply IH. lia.
  - pose proof (search_loop_range f fuel i ((i + j) / 2)).
    pose proof (search_loop_range g fuel ((i + j) / 2 + 1) j). lia.
  - apply Hgf in Hg. congruence.
  - apply IH. lia.
Qed.

(** The slice expression of [ForRange] is within bounds whatever the
    order of the buckets: the search for [end] never stops before the
    search for [start].  The result is a run of consecutive buckets. *)
Theorem ForRange_in_bounds (x : Volume) (start end_ : Z) :
  exists lo n, ForRange x start end_
               = Some (mkVolume (take n (drop lo (Values x)))).
Proof.
  unfold ForRange.
  destruct (head (Values x)) as [firstv|]; [|by exists 0%nat, 0%nat].
  destruct (last (Values x)) as [lastv|]; [|by exists 0%nat, 0%nat].
  destruct (Z.leb_spec end_ start) as [?|Hse]; simpl; [by exists 0%nat, 0%nat|].
  destruct (end_ <=? firstv.1); simpl; [by exists 0%nat, 0%nat|].
  destruct (lastv.1 <? start); [by exists 0%nat, 0%nat|].
  match goal with
  | |- context [if ?hi <? ?lo then None else _] =>
      assert (lo <= hi) as Hle; [|destruct (Z.ltb_spec hi lo); [lia|by eexists _, _]]
  end.
  assert (0 <= len (Values x)) as Hn by (unfold len; lia).
  destruct (firstv.1 <? start), (end_ <? lastv.1).
  - unfold Search. apply search_loop_mono; [done|].
    intros h Hh. apply Z.leb_le in Hh. apply Z.leb_le. lia.
  - unfold Search. by apply search_loop_range.
  - unfold Search. by apply search_loop_range.
  - done.
Qed.

(** ** The cache *)

Lemma keys_remove_key l key :
  (remove_key l key).*1 = filter (fun k => k <> key) l.*1.
Proof.
  unfold remove_key. induction l as [|[k v] l IH]; [done|].
  rewrite filter_cons. simpl. rewrite filter_cons.
  destruct (decide (k <> key)); simpl; [f_equal|]; apply IH.
Qed.

Lemma items_is_Some l k : is_Some (items l k) <-> k ∈ l.*1.
Proof.
  induction l as [|[k' v] l IH]; simpl.
  - split; [by intros [? ?]|]. by intros ?%elem_of_nil.
  - case_bool_decide as Hk; simpl in Hk.
    + subst. split; [intros _; left|eauto].
    + rewrite IH. split; [by right|].
      intros [?|?]%elem_of_cons; [congruence|done].
Qed.

Lemma items_None l k : items l k = None <-> k ∉ l.*1.
Proof.
  rewrite <- items_is_Some. apply eq_None_not_Some.
Qed.

Lemma elem_of_rev {A} (x : A) (l : list A) : x ∈ rev l <-> x ∈ l.
Proof. rewrite !list_elem_of_In. symmetry. apply in_rev. Qed.

Lemma filter_rev {A} (P : A -> Prop) `{!forall x, Decision (P x)} (l : list A) :
  filter P (rev l) = rev (filter P l).
Proof.
  induction l as [|a l IH]; [done|]. simpl. rewrite filter_app, IH.
  destruct (decide (P a)).
  - by rewrite !filter_cons_True.
  - rewrite !filter_cons_False by done. by rewrite filter_nil, app_nil_r.
Qed.

Lemma fmap_removelast {A B} (f : A -> B) (l : list A) :
  f <$> removelast l = removelast (f <$> l).
Proof.
  induction l as [|a l IH]; [done|]. destruct l as [|b l]; [done|].
  change (removelast (a :: b :: l)) with (a :: removelast (b :: l)).
  rewrite !fmap_cons.
  change (removelast (f a :: f b :: (f <$> l)))
    with (f a :: removelast (f b :: (f <$> l))).
  f_equal. apply IH.
Qed.

Lemma rev_removelast {A} (l : list A) : rev (removelast l) = drop 1 (rev l).
Proof.
  destruct (decide (l = [])) as [->|Hne]; [done|].
  destruct (exists_last Hne) as (l' & a & ->).
  rewrite removelast_last, rev_unit. simpl. by rewrite drop_0.
Qed.

Lemma NoDup_removelast {A} (l : list A) : NoDup l -> NoDup (removelast l).
Proof.
  intros Hl. destruct (decide (l = [])) as [->|Hne]; [done|].
  destruct (exists_last Hne) as (l' & a & ->).
  rewrite removelast_last. by apply NoDup_app in Hl as [? _].
Qed.

(** [Set] puts the cluster under the key and makes the key the newest.
    A key that was there keeps its place in no other way; a new key on a
    full cache drives out the oldest key, and no other.  The clusters
    under the other keys are as they were. *)
Theorem Cache_Set_newest (c : LogClusterCache) (l : LRU) (key : Z) (v : LogCluster) :
  cache c = Some l ->
  wf_LRU l ->
  exists l',
    Cache_Set c key v = Ok (mkCache (Some l'))
    /\ wf_LRU l' /\ lru_size l' = lru_size l
    /\ LRU_Keys l'
       = (if bool_decide (key ∈ LRU_Keys l) then filter (fun k => k <> key) (LRU_Keys l)
          else if bool_decide (len (LRU_Keys l) = lru_size l) then drop 1 (LRU_Keys l)
          else LRU_Keys l) ++ [key]
    /\ LRU_Peek l' key = Some v
    /\ forall k, k <> key -> k ∈ LRU_Keys l' -> LRU_Peek l' k = LRU_Peek l k.
Proof.
  intros Hc (Hnd & Hlen & Hpos). unfold Cache_Set. rewrite Hc.
  eexists. split; [done|].
  unfold LRU_Add, LRU_Keys, LRU_Peek, wf_LRU.
  assert (forall k, k ∈ rev (evictList l).*1 <-> k ∈ (evictList l).*1) as Hrev.
  { intros k. by rewrite elem_of_rev. }
  destruct (items (evictList l) key) as [old|] eqn:Hitems.
  - assert (key ∈ (evictList l).*1) as Hin by (apply items_is_Some; eauto).
    cbn [evictList lru_size]. unfold MoveToFront.
    rewrite fmap_cons, keys_remove_key. cbn [fst].
    rewrite bool_decide_eq_true_2 by by apply Hrev.
    split_and!; try done.
    + apply NoDup_cons. split; [|by apply NoDup_filter].
      intros [Hk _]%list_elem_of_filter. done.
    + unfold len in *. simpl length.
      pose proof (length_remove_key_lt (evictList l) key old
                    (items_elem_of _ _ _ Hitems)). lia.
    + simpl. by rewrite filter_rev.
    + simpl. by rewrite bool_decide_eq_true_2.
    + intros k Hk _. simpl. rewrite bool_decide_eq_false_2 by done.
      rewrite items_remove_key. by rewrite bool_decide_eq_false_2.
  - assert (key ∉ (evictList l).*1) as Hnin by by apply items_None.
    rewrite bool_decide_eq_false_2 by by rewrite Hrev.
    unfold len in *. rewrite length_rev, length_fmap.
    simpl length. destruct (Z.ltb_spec (lru_size l) (Z.of_nat (S (length (evictList l)))))
      as [Hfull|Hroom]; cbn [evictList lru_size].
    + rewrite bool_decide_eq_true_2 by lia.
      destruct (evictList l) as [|e es] eqn:He; [simpl in *; lia|].
      change (removelast ((key, v) :: e :: es))
        with ((key, v) :: removelast (e :: es)).
      rewrite fmap_cons. cbn [fst].
      split_and!; try done.
      * apply NoDup_cons. split.
        -- rewrite fmap_removelast. intros Hk. apply Hnin.
           destruct (decide ((e :: es).*1 = [])) as [?|Hne]; [done|].
           destruct (exists_last Hne) as (l' & a & Hl'). rewrite Hl' in Hk |- *.
           rewrite removelast_last in Hk. apply elem_of_app. by left.
        -- rewrite fmap_removelast. by apply NoDup_removelast.
      * rewrite length_cons, length_removelast. simpl in *. lia.
      * rewrite fmap_removelast.
        change (rev (key :: ?t)) with (rev t ++ [key]).
        by rewrite rev_removelast.
      * simpl. by rewrite bool_decide_eq_true_2.
      * intros k Hk Hin.
        change (rev (key :: ?t)) with (rev t ++ [key]) in Hin.
        apply elem_of_app in Hin as [Hin|Hin];
          [|by apply list_elem_of_singleton in Hin].
        apply elem_of_rev, items_is_Some in Hin as [x Hx].
        pose proof (items_removelast _ _ _ Hx) as Hx'.
        change (items ((key, v) :: ?t) k)
          with (if bool_decide (key = k) then Some v else items t k).
        rewrite bool_decide_eq_false_2 by done. by rewrite Hx, Hx'.
    + rewrite bool_decide_eq_false_2 by lia.
      rewrite fmap_cons. cbn [fst].
      split_and!; try done.
      * by apply NoDup_cons.
      * simpl. by rewrite bool_decide_eq_true_2.
      * intros k Hk _. simpl. by rewrite bool_decide_eq_false_2.
Qed.

(** [Get] returns the cluster under the key, or nil; a key that is there
    becomes the newest, and nothing else changes. *)
Theorem Cache_Get_newest (c : LogClusterCache) (l : LRU) (key : Z) :
  cache c = Some l ->
  wf_LRU l ->
  exists l',
    Cache_Get c key = Ok (LRU_Peek l key, mkCache (Some l'))
    /\ wf_LRU l' /\ lru_size l' = lru_size l
    /\ LRU_Keys l'
       = (if bool_decide (key ∈ LRU_Keys l)
          then filter (fun k => k <> key) (LRU_Keys l) ++ [key]
          else LRU_Keys l)
    /\ forall k, LRU_Peek l' k = LRU_Peek l k.
Proof.
  intros Hc (Hnd & Hlen & Hpos). unfold Cache_Get. rewrite Hc.
  unfold LRU_Get, LRU_Keys, LRU_Peek, wf_LRU.
  assert (forall k, k ∈ rev (evictList l).*1 <-> k ∈ (evictList l).*1) as Hrev.
  { intros k. by rewrite elem_of_rev. }
  destruct (items (evictList l) key) as [v|] eqn:Hitems.
  - assert (key ∈ (evictList l).*1) as Hin by (apply items_is_Some; eauto).
    eexists. split; [done|]. cbn [evictList lru_size]. unfold MoveToFront.
    rewrite fmap_cons, keys_remove_key. cbn [fst].
    rewrite bool_decide_eq_true_2 by by apply Hrev.
    split_and!; try done.
    + apply NoDup_cons. split; [|by apply NoDup_filter].
      intros [Hk _]%list_elem_of_filter. done.
    + unfold len in *. simpl length.
      pose proof (length_remove_key_lt (evictList l) key v
                    (items_elem_of _ _ _ Hitems)). lia.
    + simpl. by rewrite filter_rev.
    + intros k. simpl. rewrite items_remove_key.
      repeat case_bool_decide; congruence.
  - assert (key ∉ (evictList l).*1) as Hnin by by apply items_None.
    exists l. rewrite bool_decide_eq_false_2 by by rewrite Hrev.
    by destruct l.
Qed.

(** ** What [Train] does to the clusters *)

(** The effect of a [Train] on the cache: the cluster it returns is the
    entry under its identifier; every other entry is as it was (or gone);
    the cluster is new, made of the line, or it is the old entry with the
    line merged into its template, its size up by one, the line among its
    samples while there is room, and the timestamp recorded. *)
Lemma Train_entries `{GoStdlib} G d content ts c d' :
  Inv G d -> clustersCounter d < max_int ->
  Train d content ts = Ok (c, d') ->
  resolve (idToCluster d') (cluster_id c) = Some c
  /\ (forall id v, id <> cluster_id c ->
        resolve (idToCluster d') id = Some v -> resolve (idToCluster d) id = Some v)
  /\ match resolve (idToCluster d) (cluster_id c) with
     | Some m =>
         clustersCounter d' = clustersCounter d
         /\ createTemplate (config d) (getContentAsTokens (config d) content) (Tokens m)
            = Ok (Tokens c)
         /\ Size c = add64 (Size m) 1
         /\ Samples c = (if len (Samples m) <? maxSamples
                         then Samples m ++ [content] else Samples m)
         /\ Add (cluster_Volume m) ts = Ok (cluster_Volume c)
     | None =>
         clustersCounter d' = clustersCounter d + 1
         /\ c = mkLogCluster (clustersCounter d + 1) 1
                  (getContentAsTokens (config d) content) [content] (initVolume ts)
     end.
Proof.
  intros HInv Hmax. unfold Train.
  set (tokens := getContentAsTokens (config d) content).
  pose proof (treeSearch_spec G d tokens (SimTh (config d)) false HInv) as Hts.
  destruct (treeSearch d (rootNode d) tokens (SimTh (config d)) false)
    as [[o d1]|p]; [|done].
  destruct Hts as (Hcfg & Hroot & Hcnt & Ht & Hm). simpl.
  pose proof (Inv_touched G d _ HInv Ht) as HInv1.
  destruct Ht as [Hr1 Hl1].
  destruct o as [m|].
  - destruct (Hm m eq_refl) as [Hres Hlen].
    intros (r & Hr & Hrest)%bind_Ok.
    apply bind_Ok in Hrest as (m2 & Happ & Hrest).
    apply bind_Ok in Hrest as ([o3 c3] & Hget & [= <- <-]).
    unfold LogCluster_append in Happ.
    apply bind_Ok in Happ as (v & Hadd & [= <-]).
    apply Cache_Get_touched in Hget as [_ [Hr3 Hl3]].
    cbn [cluster_id Tokens Size Samples cluster_Volume idToCluster clustersCounter] in *.
    split_and!.
    + rewrite Hr3, resolve_Cache_store, Hr1. cbn [cluster_id].
      rewrite bool_decide_eq_true_2 by done. by rewrite Hres.
    + intros id v' Hid. rewrite Hr3, resolve_Cache_store, Hr1. cbn [cluster_id].
      by rewrite bool_decide_eq_false_2.
    + rewrite Hres. split_and!; try done. by rewrite <- Hcfg.
  - rewrite Hcnt, Hcfg, Hroot.
    rewrite add64_small by (pose proof (inv_counter _ _ HInv); lia).
    set (k := clustersCounter d + 1).
    intros (c1 & Hset & Hrest)%bind_Ok.
    apply bind_Ok in Hrest as (d2 & Hadd & [= <- <-]).
    apply Cache_Set_Ok in Hset as (Hk & Hother & _); [|by apply (inv_size _ _ HInv1)].
    apply addSeqToPrefixTree_touched in Hadd as ([Hr2 _] & _ & Hcnt2).
    cbn [cluster_id idToCluster clustersCounter] in *.
    split_and!.
    + by rewrite Hr2.
    + intros id v Hid. rewrite Hr2. intros Hv. rewrite <- Hr1. by apply Hother.
    + destruct (resolve (idToCluster d) k) as [m|] eqn:Hres.
      * destruct (inv_cache _ _ HInv _ _ Hres) as [_ HG].
        apply (inv_ids _ _ HInv) in HG. unfold k in HG. lia.
      * done.
Qed.

Lemma covers_merge param tokens t :
  length tokens = length t ->
  covers param
    (zip_with (fun t1 t2 : string => if bool_decide (t1 ≠ t2) then param else t2)
       tokens t) tokens.
Proof.
  revert t. induction tokens as [|a tokens IH]; intros [|b t] Hlen; try done.
  { constructor. }
  simpl. constructor; [|apply IH; simpl in Hlen; lia].
  case_bool_decide as Hab; [by left|]. right.
  destruct (decide (a = b)); [done|]. by destruct Hab.
Qed.

Lemma covers_widen param tokens t line :
  length tokens = length t ->
  covers param t line ->
  covers param
    (zip_with (fun t1 t2 : string => if bool_decide (t1 ≠ t2) then param else t2)
       tokens t) line.
Proof.
  intros Hlen Hc. revert tokens Hlen.
  induction Hc as [|b l t line Hb Hc IH]; intros [|a tokens] Hlen; try done.
  { constructor. }
  simpl. constructor; [|apply IH; simpl in Hlen; lia].
  case_bool_decide; [by left|done].
Qed.

Lemma covers_refl param t : covers param t t.
Proof. induction t; constructor; auto. Qed.

Lemma take_snoc_samples (l : list string) (x : string) :
  take (Z.to_nat maxSamples) (l ++ [x])
  = if len (take (Z.to_nat maxSamples) l) <? maxSamples
    then take (Z.to_nat maxSamples) l ++ [x]
    else take (Z.to_nat maxSamples) l.
Proof.
  unfold len. rewrite length_take.
  change (Z.to_nat maxSamples) with 10%nat. change maxSamples with 10.
  destruct (Z.ltb_spec (Z.of_nat (10 `min` length l)) 10) as [Hlt|Hge].
  - rewrite !take_ge by (rewrite ?length_app; simpl; lia). done.
  - rewrite take_app_le by lia. done.
Qed.

Lemma trained_cons id call o calls outs :
  trained id (call :: calls) (o :: outs)
  = trained id [call] [o] ++ trained id calls outs.
Proof.
  unfold trained. simpl.
  destruct call as [content ts|content]; simpl; [|done].
  destruct o as [m|]; simpl; [|done]. by case_bool_decide.
Qed.

Lemma recorded_ext `{GoStdlib} cfg n d (f g : Z -> list string) :
  (forall id, f id = g id) -> recorded cfg n d f -> recorded cfg n d g.
Proof.
  intros Hfg (H1 & H2 & H3). split_and!.
  - intros id Hid. rewrite <- Hfg. by apply H1.
  - intros id. rewrite <- Hfg. apply H2.
  - intros id v Hv. rewrite <- Hfg. by apply H3.
Qed.

Lemma step_recorded `{GoStdlib} G d call o d' n lines :
  Inv G d -> clustersCounter d < max_int -> 0 <= n < max_int ->
  recorded (config d) n d lines ->
  step d call = Ok (o, d') ->
  recorded (config d) (n + 1) d' (fun id => lines id ++ trained id [call] [o]).
Proof.
  intros HInv Hmax Hn (Hfresh & Hbound & Hrec).
  destruct call as [content ts|content]; simpl.
  - intros ([c d1] & HT & [= <- <-])%bind_Ok.
    destruct (Train_entries G d content ts c d1 HInv Hmax HT) as (Hc & Hother & Hcase).
    set (tokens := getContentAsTokens (config d) content) in *.
    assert (forall id, trained id [CallTrain content ts] [Some c]
                       = if bool_decide (cluster_id c = id) then [content] else [])
      as Htr.
    { intros id. unfold trained. simpl. by case_bool_decide. }
    split_and!.
    + intros id Hid. rewrite Htr.
      destruct (resolve (idToCluster d) (cluster_id c)) as [m|] eqn:Hres.
      * destruct Hcase as (Hcnt & _).
        destruct (inv_cache _ _ HInv _ _ Hres) as [_ HG].
        apply (inv_ids _ _ HInv) in HG.
        rewrite bool_decide_eq_false_2 by lia.
        rewrite app_nil_r. apply Hfresh. lia.
      * destruct Hcase as (Hcnt & ->). cbn [cluster_id].
        rewrite bool_decide_eq_false_2 by lia.
        rewrite app_nil_r. apply Hfresh. lia.
    + intros id. rewrite Htr. specialize (Hbound id). unfold len in *.
      rewrite length_app. case_bool_decide; simpl; lia.
    + intros id v Hv. rewrite Htr.
      destruct (decide (cluster_id c = id)) as [<-|Hne].
      * rewrite bool_decide_eq_true_2 by done.
        rewrite Hc in Hv. injection Hv as <-.
        destruct (resolve (idToCluster d) (cluster_id c)) as [m|] eqn:Hres.
        -- destruct Hcase as (Hcnt & Htpl & Hsize & Hsamples & _).
           destruct (Hrec _ _ Hres) as (Hne & Hsz & Hsm & Hcov).
           unfold createTemplate in Htpl. case_bool_decide as Hlen; [done|].
           injection Htpl as Htpl.
           assert (length tokens = length (Tokens m)) as Hlen'.
           { destruct (decide (length tokens = length (Tokens m))); [done|].
             by destruct Hlen. }
           split_and!.
           ++ by destruct (lines (cluster_id c)).
           ++ rewrite Hsize, Hsz. specialize (Hbound (cluster_id c)).
              unfold len in *. rewrite length_app. simpl.
              rewrite add64_small by lia. lia.
           ++ rewrite Hsamples, Hsm. by rewrite take_snoc_samples.
           ++ rewrite <- Htpl. apply Forall_app. split.
              ** eapply Forall_impl; [exact Hcov|]. simpl. intros line Hl.
                 by apply covers_widen.
              ** constructor; [|done]. by apply covers_merge.
        -- destruct Hcase as (Hcnt & ->). cbn [cluster_id] in *.
           rewrite (Hfresh (clustersCounter d + 1)) by lia.
           split_and!; try done.
           constructor; [|done]. apply covers_refl.
      * rewrite bool_decide_eq_false_2 by done. rewrite app_nil_r.
        apply Hrec. by apply Hother.
  - intros HM.
    destruct (Match_Inv G d content o d' HInv HM) as (_ & _ & Hcnt & _ & [Hr _] & _).
    assert (forall id, trained id [CallMatch content] [o] = []) as Htr by done.
    split_and!.
    + intros id Hid. rewrite Htr, app_nil_r. apply Hfresh. lia.
    + intros id. rewrite Htr, app_nil_r. specialize (Hbound id). lia.
    + intros id v Hv. rewrite Htr, app_nil_r. apply Hrec. by rewrite <- Hr.
Qed.

Lemma run_recorded `{GoStdlib} G d calls outs d' n lines :
  Inv G d -> clustersCounter d + len calls <= max_int ->
  0 <= n -> n + len calls <= max_int ->
  recorded (config d) n d lines ->
  run d calls = Ok (outs, d') ->
  recorded (config d) (n + len calls) d'
    (fun id => lines id ++ trained id calls outs).
Proof.
  revert G d outs n lines.
  induction calls as [|call calls IH]; intros G d outs n lines HInv Hmax Hn Hnmax Hrec.
  - intros [= <- <-]. unfold len. simpl. rewrite Z.add_0_r.
    eapply recorded_ext; [|exact Hrec]. intros id. by rewrite app_nil_r.
  - simpl. intros ([o d1] & Hstep & Hrest)%bind_Ok.
    apply bind_Ok in Hrest as ([os d2] & Hrun & [= <- <-]).
    unfold len in *. simpl length in *.
    assert (clustersCounter d < max_int) as Hm0 by lia.
    assert (0 <= n < max_int) as Hn0 by lia.
    destruct (step_Inv G d call o d1 HInv Hm0 Hstep)
      as (G1 & _ & HInv1 & _ & Hcfg & Hcnt & _).
    pose proof (step_recorded G d call o d1 n lines HInv Hm0 Hn0 Hrec Hstep) as Hrec1.
    rewrite <- Hcfg in Hrec1.
    assert (clustersCounter d1 + Z.of_nat (length calls) <= max_int) as Hm1 by lia.
    assert (0 <= n + 1) as Hn1 by lia.
    assert (n + 1 + Z.of_nat (length calls) <= max_int) as Hn2 by lia.
    pose proof (IH G1 d1 os (n + 1) _ HInv1 Hm1 Hn1 Hn2 Hrec1 Hrun) as Hrec2.
    rewrite Hcfg in Hrec2.
    replace (n + Z.of_nat (S (length calls))) with (n + 1 + Z.of_nat (length calls))
      by lia.
    eapply recorded_ext; [|exact Hrec2]. intros id. cbv beta.
    by rewrite (trained_cons id call o calls os), app_assoc.
Qed.

(** After a run of calls on a new engine, every cluster in the cache has
    been returned by at least one [Train]; its [Size] is the number of
    lines trained into it, its [Samples] are the first ten of them in
    order, and its template stands for every one of them: position by
    position it holds the token of the line or the wildcard marker. *)
Theorem clusters_record_their_lines `{GoStdlib} (cfg : Config) (d0 d : Drain)
    (calls : list call) (outs : list (option LogCluster)) (id : Z) (v : LogCluster) :
  New cfg = Ok d0 ->
  len calls <= max_int ->
  run d0 calls = Ok (outs, d) ->
  resolve (idToCluster d) id = Some v ->
  trained id calls outs <> []
  /\ Size v = len (trained id calls outs)
  /\ Samples v = take 10 (trained id calls outs)
  /\ Forall (fun line => covers (ParamString cfg) (Tokens v)
                           (getContentAsTokens cfg line))
       (trained id calls outs).
Proof.
  intros HNew Hlen Hrun Hv.
  destruct (New_Inv _ _ HNew) as [HInv Hcnt].
  pose proof (New_Ok _ _ HNew) as [_ Hd0].
  assert (recorded (config d0) 0 d0 (fun _ => [])) as Hrec0.
  { split_and!; [done|done|]. intros id' v'. subst d0. unfold resolve. simpl.
    unfold createLogClusterCache, NewLRU. by destruct (_ <=? 0). }
  assert (clustersCounter d0 + len calls <= max_int) as Hm by lia.
  assert (0 + len calls <= max_int) as Hn by lia.
  pose proof (run_recorded ∅ d0 calls outs d 0 _ HInv Hm (Z.le_refl 0) Hn Hrec0 Hrun)
    as (_ & _ & Hrec).
  destruct (Hrec id v Hv) as (H1 & H2 & H3 & H4). simpl in *.
  assert (ParamString (config d0) = ParamString cfg) as HP by by subst d0.
  assert (forall line, getContentAsTokens (config d0) line = getContentAsTokens cfg line)
    as HT by by subst d0.
  split_and!; try done.
  rewrite <- HP. eapply Forall_impl; [exact H4|]. simpl. intros line Hl.
  by rewrite <- HT.
Qed.

(** ** Properties of the cache that the engine keeps

    A property of the cache that [Get], [Set] and an assignment through a
    cluster pointer keep is kept by every operation of the engine. *)

Section Cache_invariant.
Context `{GoStdlib}.
Variable I : LogClusterCache -> Prop.
Hypothesis I_Get : forall c key o c', I c -> Cache_Get c key = Ok (o, c') -> I c'.
Hypothesis I_Set : forall c key v c', I c -> Cache_Set c key v = Ok c' -> I c'.
Hypothesis I_store : forall c v, I c -> I (Cache_store c v).

Lemma liveIDs_keeps ids c ids' c' :
  I c -> liveIDs ids c = Ok (ids', c') -> I c'.
Proof.
  revert c ids' c'. induction ids as [|id ids IH]; intros c ids' c' Hc; simpl.
  - by intros [= <- <-].
  - intros ([o c1] & Hget & Hrest)%bind_Ok.
    apply bind_Ok in Hrest as ([ids1 c2] & Hlive & [= <- <-]).
    eapply IH; [|done]. by eapply I_Get.
Qed.

Lemma fastMatch_loop_keeps cfg tokens inc ids b c b' c' :
  I c -> fastMatch_loop cfg tokens inc ids (b, c) = Ok (b', c') -> I c'.
Proof.
  revert b c. induction ids as [|id ids IH]; intros b c Hc; simpl.
  - by intros [= <- <-].
  - intros ([b1 c1] & Hstep & Hrest)%bind_Ok.
    eapply (IH b1 c1); [|done].
    unfold fastMatch_step in Hstep.
    apply bind_Ok in Hstep as ([o c2] & Hget & Hrest').
    pose proof (I_Get _ _ _ _ Hc Hget) as Hc2.
    destruct o as [cluster|]; [|by injection Hrest' as <- <-].
    apply bind_Ok in Hrest' as (cur & _ & Hrest').
    destruct (beats _ _ _); by injection Hrest' as <- <-.
Qed.

Lemma fastMatch_keeps d ids tokens simTh inc o d' :
  I (idToCluster d) -> fastMatch d ids tokens simTh inc = Ok (o, d') ->
  I (idToCluster d').
Proof.
  intros Hc. unfold fastMatch.
  intros ([b c] & Hloop & [= <- <-])%bind_Ok. simpl.
  by eapply fastMatch_loop_keeps.
Qed.

Lemma treeSearch_keeps d root tokens simTh inc o d' :
  I (idToCluster d) -> treeSearch d root tokens simTh inc = Ok (o, d') ->
  I (idToCluster d').
Proof.
  intros Hc. unfold treeSearch.
  destruct (keyToChildNode root !! Itoa (len tokens)) as [cur|];
    [|by intros [= <- <-]].
  destruct (len tokens =? 0).
  - destruct (clusterIDs cur) as [|id ids]; [done|].
    intros ([o1 c1] & Hget & [= <- <-])%bind_Ok. simpl. by eapply I_Get.
  - destruct (searchLoop _ _ _ _ _); [|by intros [= <- <-]].
    by apply fastMatch_keeps.
Qed.

Lemma addLoop_keeps cfg cluster tokenCount tokens depth cur c n' c' :
  I c -> addLoop cfg cluster tokenCount tokens depth cur c = Ok (n', c') -> I c'.
Proof.
  revert depth cur c n' c'.
  induction tokens as [|token tokens IH]; intros depth cur c n' c' Hc.
  { simpl. by intros [= <- <-]. }
  rewrite addLoop_cons.
  destruct ((maxNodeDepth cfg <=? depth) || (tokenCount <=? depth)).
  { intros ([ids c1] & Hlive & [= <- <-])%bind_Ok. by eapply liveIDs_keeps. }
  destruct (route cfg cur token) as [key [ch|]].
  - intros ([n1 c1] & Hadd & [= <- <-])%bind_Ok. by eapply IH.
  - destruct tokens; [|done]. by intros [= <- <-].
Qed.

Lemma addSeqToPrefixTree_keeps d root cluster d' :
  I (idToCluster d) -> addSeqToPrefixTree d root cluster = Ok d' ->
  I (idToCluster d').
Proof.
  intros Hc. unfold addSeqToPrefixTree. destruct (len (Tokens cluster) =? 0).
  - by intros [= <-].
  - intros ([n' c'] & Hadd & [= <-])%bind_Ok. simpl. by eapply addLoop_keeps.
Qed.

Lemma Train_keeps d content ts c d' :
  I (idToCluster d) -> Train d content ts = Ok (c, d') -> I (idToCluster d').
Proof.
  intros Hc. unfold Train.
  intros ([o d1] & Hts & Hrest)%bind_Ok.
  pose proof (treeSearch_keeps _ _ _ _ _ _ _ Hc Hts) as Hc1.
  destruct o as [m|].
  - apply bind_Ok in Hrest as (r & _ & Hrest).
    apply bind_Ok in Hrest as (m2 & _ & Hrest).
    apply bind_Ok in Hrest as ([o3 c3] & Hget & [= <- <-]). simpl.
    eapply I_Get; [|done]. by apply I_store.
  - apply bind_Ok in Hrest as (c1 & Hset & Hrest).
    apply bind_Ok in Hrest as (d2 & Hadd & [= <- <-]).
    eapply addSeqToPrefixTree_keeps; [|done]. simpl. by eapply I_Set.
Qed.

Lemma Match_keeps d content o d' :
  I (idToCluster d) -> Match d content = Ok (o, d') -> I (idToCluster d').
Proof. apply treeSearch_keeps. Qed.

Lemma run_keeps d calls outs d' :
  I (idToCluster d) -> run d calls = Ok (outs, d') -> I (idToCluster d').
Proof.
  revert d outs. induction calls as [|call calls IH]; intros d outs Hc; simpl.
  - by intros [= <- <-].
  - intros ([o d1] & Hstep & Hrest)%bind_Ok.
    apply bind_Ok in Hrest as ([os d2] & Hrun & [= <- <-]).
    eapply IH; [|done]. destruct call as [content ts|content]; simpl in Hstep.
    + apply bind_Ok in Hstep as ([c1 d3] & HT & [= <- <-]). by eapply Train_keeps.
    + by eapply Match_keeps.
Qed.

End Cache_invariant.

Lemma Cache_store_keys c v l :
  cache c = Some l ->
  exists l', cache (Cache_store c v) = Some l'
             /\ lru_size l' = lru_size l
             /\ (evictList l').*1 = (evictList l).*1.
Proof.
  intros Hc. unfold Cache_store. rewrite Hc. eexists. split; [done|].
  split; [done|]. cbn [evictList].
  induction (evictList l) as [|e es IH]; [done|].
  cbn [map]. rewrite !fmap_cons, IH. by case_bool_decide.
Qed.

(** The engine keeps its cache well formed and at the size it was made
    with. *)
Lemma run_wf_LRU `{GoStdlib} (size : Z) d calls outs d' :
  (exists l, cache (idToCluster d) = Some l /\ wf_LRU l /\ lru_size l = size) ->
  run d calls = Ok (outs, d') ->
  exists l, cache (idToCluster d') = Some l /\ wf_LRU l /\ lru_size l = size.
Proof.
  apply (run_keeps (fun c => exists l, cache c = Some l /\ wf_LRU l
                                       /\ lru_size l = size)).
  - intros c key o c' (l & Hl & Hwf & Hs) Hget.
    destruct (Cache_Get_newest c l key Hl Hwf) as (l' & Hget' & Hwf' & Hs' & _).
    rewrite Hget' in Hget. injection Hget as <- <-. exists l'.
    split; [done|]. split; [done|lia].
  - intros c key v c' (l & Hl & Hwf & Hs) Hset.
    destruct (Cache_Set_newest c l key v Hl Hwf) as (l' & Hset' & Hwf' & Hs' & _).
    rewrite Hset' in Hset. injection Hset as <-. exists l'.
    split; [done|]. split; [done|lia].
  - intros c v (l & Hl & (Hnd & Hlen & Hpos) & Hs).
    destruct (Cache_store_keys c v l Hl) as (l' & Hl' & Hs' & Hk).
    exists l'. split; [done|]. split; [|lia].
    split_and!; [by rewrite Hk| |lia].
    unfold len in *. rewrite <- (length_fmap fst), Hk, length_fmap. lia.
Qed.

Lemma items_NoDup (es : list (Z * LogCluster)) (e : Z * LogCluster) :
  NoDup es.*1 -> e ∈ es -> items es e.1 = Some e.2.
Proof.
  induction es as [|[k v] es IH]; intros Hnd He.
  { by apply elem_of_nil in He. }
  rewrite fmap_cons in Hnd. apply NoDup_cons in Hnd as [Hk Hnd]. cbn [items fst snd].
  apply elem_of_cons in He as [->|He].
  - by rewrite bool_decide_eq_true_2.
  - rewrite bool_decide_eq_false_2; [by apply IH|].
    intros ->. apply Hk. apply list_elem_of_fmap. by exists e.
Qed.

(** [Values] returns the clusters of the cache, one for each key, from
    the oldest to the newest. *)
Lemma Cache_Values_wf (l : LRU) :
  NoDup (evictList l).*1 ->
  omap (LRU_Peek l) (LRU_Keys l) = rev (evictList l).*2.
Proof.
  unfold LRU_Peek, LRU_Keys. intros Hnd.
  assert (forall es, (forall e, e ∈ es -> items (evictList l) e.1 = Some e.2) ->
            omap (items (evictList l)) (rev es.*1) = rev es.*2) as Hgen.
  { induction es as [|e es IH]; intros Hes; [done|].
    rewrite !fmap_cons.
    change (rev (e.1 :: es.*1)) with (rev es.*1 ++ [e.1]).
    change (rev (e.2 :: es.*2)) with (rev es.*2 ++ [e.2]).
    rewrite omap_app, IH by (intros; apply Hes; by right).
    f_equal. change (omap ?f [e.1]) with (match f e.1 with Some y => [y] | None => [] end).
    rewrite Hes by left. done. }
  apply Hgen. intros e He. by apply items_NoDup.
Qed.

Lemma ids_of_values (es : list (Z * LogCluster)) :
  (forall e, e ∈ es -> cluster_id e.2 = e.1) ->
  cluster_id <$> rev es.*2 = rev es.*1.
Proof.
  induction es as [|e es IH]; intros Hes; [done|].
  rewrite !fmap_cons.
  change (rev (e.1 :: es.*1)) with (rev es.*1 ++ [e.1]).
  change (rev (e.2 :: es.*2)) with (rev es.*2 ++ [e.2]).
  rewrite fmap_app, IH by (intros; apply Hes; by right).
  f_equal. rewrite <- (Hes e) by left. done.
Qed.

(** After any run of calls on an engine made with [max_clusters >= 0],
    [Clusters] returns at most [max_clusters] clusters (any number up to
    the largest [int] when [max_clusters] is 0), with identifiers that are
    all different: they are the keys of the cache, oldest first. *)
Theorem Clusters_bounded `{GoStdlib} (cfg : Config) (d0 d : Drain)
    (calls : list call) (outs : list (option LogCluster)) :
  New cfg = Ok d0 ->
  0 <= MaxClusters cfg ->
  len calls <= max_int ->
  run d0 calls = Ok (outs, d) ->
  exists cs,
    Clusters d = Ok cs
    /\ len cs <= capacity cfg
    /\ NoDup (cluster_id <$> cs)
    /\ Cache_Keys (idToCluster d) = Ok (cluster_id <$> cs).
Proof.
  intros HNew Hmax Hlen Hrun.
  destruct (New_Inv _ _ HNew) as [HInv Hcnt].
  pose proof (New_Ok _ _ HNew) as [_ Hd0].
  destruct (run_Inv ∅ d0 calls outs d HInv ltac:(lia) Hrun) as (G & _ & HInvd & _).
  destruct (run_wf_LRU (capacity cfg) d0 calls outs d) as (l & Hl & Hwf & Hs);
    [|done|].
  { subst d0. cbn [idToCluster MaxClusters].
    unfold createLogClusterCache, NewLRU, capacity.
    destruct (Z.eqb_spec (MaxClusters cfg) 0) as [Heq|Hne].
    - change (max_int <=? 0) with false. cbv iota.
      eexists. split; [done|]. split; [|done].
      split_and!; [constructor|done|done].
    - destruct (Z.leb_spec (MaxClusters cfg) 0); [lia|].
      eexists. split; [done|]. split; [|done].
      split_and!; [constructor|unfold len; simpl; lia|simpl; lia]. }
  destruct Hwf as (Hnd & Hle & Hpos).
  unfold Clusters, Cache_Values, Cache_Keys. rewrite Hl.
  eexists. split; [done|]. rewrite Cache_Values_wf by done.
  assert (cluster_id <$> rev (evictList l).*2 = LRU_Keys l) as Hids.
  { apply ids_of_values. intros e He.
    assert (resolve (idToCluster d) e.1 = Some e.2) as Hres.
    { unfold resolve. rewrite Hl. by apply items_NoDup. }
    by destruct (inv_cache _ _ HInvd _ _ Hres). }
  split_and!.
  - unfold len in *. rewrite length_rev, length_fmap. lia.
  - rewrite Hids. unfold LRU_Keys. apply NoDup_ListNoDup, NoDup_rev.
    by apply NoDup_ListNoDup.
  - by rewrite Hids.
Qed.

(** [Iterate] calls [fn] on the clusters that [Clusters] returns, in that
    order, and stops after the first call that returns false; on the nil
    cache both panic. *)
Theorem Iterate_visits_Clusters {S} (d : Drain) (fn : LogCluster -> S -> bool * S)
    (s : S) :
  Iterate d fn s = (values ← Clusters d; Ok (visit fn values s)).
Proof.
  unfold Iterate, Cache_Iterate, Clusters, Cache_Values.
  destruct (cache (idToCluster d)) as [l|]; [|done]. simpl. f_equal.
  revert s. induction (LRU_Keys l) as [|key keys IH]; intros s; [done|].
  simpl. destruct (LRU_Peek l key) as [value|]; simpl; [|apply IH].
  destruct (fn value s) as [[|] s']; [apply IH|done].
Qed.

(** ** float64: scores below one *)

Lemma half_even_upper (a b : Z) : 0 < b -> half_even a b <= a / b + 1.
Proof.
  intros Hb. unfold half_even.
  destruct (2 * (a mod b) ?= b); [destruct (Z.even (a / b))|..]; lia.
Qed.

Lemma of_int_exact (z : Z) : 0 <= z < 2 ^ 53 -> of_int z = Fin (z # 1).
Proof.
  intros Hz. unfold of_int.
  destruct (Z.leb_spec (Z.log2 (Z.abs z) - 52) 0) as [_|Hk]; [done|].
  rewrite Z.abs_eq in Hk by lia.
  destruct (decide (z = 0)) as [->|Hne]; [done|].
  assert (Z.log2 z < 53) by (apply Z.log2_lt_pow2; lia). lia.
Qed.

Lemma ilog2_below_one (p : positive) (q : positive) :
  Z.pos p < Z.pos q -> ilog2 (Z.pos p) q <= -1.
Proof.
  intros Hpq. unfold ilog2.
  pose proof (Z.log2_le_mono (Z.pos p) (Z.pos q)) as Hmono.
  set (e0 := Z.log2 (Z.pos p) - Z.log2 (Z.pos q)) in *.
  destruct (Z.eq_dec e0 0) as [He|He].
  - rewrite He. change (pow2Q 0) with (1 # 1)%Q.
    destruct (Qcompare_spec (Z.pos p # q) (1 # 1)) as [Heq|Hlt|Hgt]; [| lia |].
    + unfold Qeq in Heq. simpl in Heq. lia.
    + unfold Qlt in Hgt. simpl in Hgt. lia.
  - destruct (Qcompare _ _); lia.
Qed.

(** The rounded quotient of a positive rational below [1 - 2^-53] is
    below one. *)
Lemma round_pos_below_one (p q : positive) (n : Z) :
  Z.pos p < Z.pos q -> 0 < n < 2 ^ 53 ->
  (exists a, 0 <= a < n /\ Z.pos p * n = a * Z.pos q) ->
  ltb (round_pos (Z.pos p) q) one = true.
Proof.
  intros Hpq Hn (a & Ha & Hcross). unfold round_pos.
  pose proof (ilog2_below_one p q Hpq) as He.
  set (e := Z.max (ilog2 (Z.pos p) q) (-1022)) in *.
  assert (- 1022 <= e <= -1) as Hebound by lia.
  set (s := 52 - e).
  assert (53 <= s <= 1074) as Hs by (unfold s; lia).
  destruct (Z.leb_spec 0 s) as [_|?]; [|lia].
  set (m := half_even (Z.pos p * 2 ^ s) (Z.pos q)).
  assert (0 < 2 ^ s) as Hpow by (apply Z.pow_pos_nonneg; lia).
  assert (2 ^ 53 <= 2 ^ s) as Hpow53 by (apply Z.pow_le_mono_r; lia).
  assert (0 <= m <= 2 ^ s - 1) as Hm.
  { split.
    - apply half_even_nonneg; [lia|done].
    - pose proof (half_even_upper (Z.pos p * 2 ^ s) (Z.pos q) ltac:(done)) as Hup.
      fold m in Hup.
      assert (Z.pos p * 2 ^ s / Z.pos q < 2 ^ s - 1); [|lia].
      apply Z.div_lt_upper_bound; [done|].
      assert (Z.pos p * n * 2 ^ s < n * (Z.pos q * (2 ^ s - 1))); [|nia].
      rewrite Hcross. nia. }
  assert (pow2Q (- s) = (1 # Z.to_pos (2 ^ s))%Q) as Hpq2.
  { unfold pow2Q. destruct (Z.leb_spec 0 (- s)); [lia|]. by rewrite Z.opp_involutive. }
  rewrite Hpq2.
  assert ((m # 1) * (1 # Z.to_pos (2 ^ s)) < 1)%Q as Hlt1.
  { unfold Qlt, Qmult. simpl. rewrite Pos.mul_1_l, Z2Pos.id by done. lia. }
  assert (1 < pow2Q 1024)%Q as Hbig.
  { unfold pow2Q, Qlt. simpl Qnum. simpl Qden.
    change (0 <=? 1024) with true. cbv iota. simpl Qnum. simpl Qden.
    pose proof (Z.pow_gt_1 2 1024). lia. }
  destruct (Qcompare_spec (Qred ((m # 1) * (1 # Z.to_pos (2 ^ s)))) (pow2Q 1024))
    as [Heq|Hlt|Hgt].
  - rewrite Qred_correct in Heq. lra.
  - simpl.
    destruct (Qcompare_spec (Qred ((m # 1) * (1 # Z.to_pos (2 ^ s)))) 1)
      as [Heq'|Hlt'|Hgt']; [|done|].
    + rewrite Qred_correct in Heq'. lra.
    + rewrite Qred_correct in Hgt'. lra.
  - rewrite Qred_correct in Hgt. lra.
Qed.

(** Fewer matching positions than positions give a score below 1.0, for
    sequences of fewer than 2^53 tokens. *)
Lemma score_below_one (a n : Z) :
  0 <= a < n -> n < 2 ^ 53 ->
  ltb (F64.div (of_int a) (of_int n)) one = true.
Proof.
  intros Ha Hn.
  rewrite !of_int_exact by lia. unfold F64.div.
  assert (is_zero (n # 1) = false) as ->.
  { unfold is_zero. simpl. destruct n; try done; lia. }
  unfold round64, round_red.
  pose proof (Qred_correct ((a # 1) / (n # 1))) as Hred.
  destruct (Qred ((a # 1) / (n # 1))) as [num den] eqn:Hq.
  assert (num * n = a * Z.pos den) as Hcross.
  { unfold Qeq in Hred. simpl in Hred. destruct n as [|pn|pn]; try lia.
    simpl in Hred. lia. }
  simpl Qnum. simpl Qden.
  destruct num as [|p|p].
  - done.
  - apply (round_pos_below_one p den n); [nia|lia|].
    exists a. split; [lia|done].
  - nia.
Qed.

(** ** Perfect matches *)

Lemma matches_le_len param seq1 seq2 :
  literalMatches param seq1 seq2 + wildcards param seq1 seq2 <= len seq1.
Proof.
  unfold literalMatches, wildcards, len.
  revert seq2. induction seq1 as [|t1 seq1 IH]; intros [|t2 seq2]; simpl; try lia.
  specialize (IH seq2). rewrite !filter_cons. simpl.
  destruct (decide (t1 <> param /\ t1 = t2)) as [[? ?]|?];
    destruct (decide (t1 = param)); simpl length; try lia. done.
Qed.

(** All positions count as matches exactly when the template stands for
    the line. *)
Lemma matches_all_covers param seq1 seq2 :
  length seq1 = length seq2 ->
  literalMatches param seq1 seq2 + wildcards param seq1 seq2 = len seq1
  <-> covers param seq1 seq2.
Proof.
  unfold covers. revert seq2.
  induction seq1 as [|t1 seq1 IH]; intros [|t2 seq2] Hlen; try done.
  injection Hlen as Hlen. specialize (IH seq2 Hlen).
  pose proof (matches_le_len param seq1 seq2) as Hle.
  unfold literalMatches, wildcards, len in *. simpl. rewrite !filter_cons. simpl.
  destruct (decide (t1 <> param /\ t1 = t2)) as [[? ?]|Hn1];
    destruct (decide (t1 = param)) as [?|Hn2]; simpl length; try done.
  - rewrite Forall2_cons. split.
    + intros Hs. split; [by right|]. apply IH. lia.
    + intros [_ Hc]. apply IH in Hc. lia.
  - rewrite Forall2_cons. split.
    + intros Hs. split; [by left|]. apply IH. lia.
    + intros [_ Hc]. apply IH in Hc. lia.
  - split; [lia|]. intros [[?|?] _]%Forall2_cons; [done|].
    destruct Hn1. done.
Qed.

(** A score of at least 1.0 with the wildcards counted means that the
    template stands for the line. *)
Lemma score_one_covers cfg template tokens :
  tokens <> [] -> length template = length tokens -> len tokens < 2 ^ 53 ->
  geb (seqDistance cfg template tokens true).1 one = true ->
  covers (ParamString cfg) template tokens.
Proof.
  intros Hne Hlen Hsmall. rewrite seqDistance_spec. cbn [fst].
  pose proof (matches_le_len (ParamString cfg) template tokens) as Hle.
  pose proof (literalMatches_nonneg (ParamString cfg) template tokens).
  pose proof (wildcards_nonneg (ParamString cfg) template tokens).
  assert (len template = len tokens) as Hlen' by (unfold len; lia).
  assert (0 < len tokens) by (destruct tokens; [done|unfold len; simpl; lia]).
  intros Hge. apply matches_all_covers; [done|].
  destruct (Z.eq_dec (literalMatches (ParamString cfg) template tokens
                      + wildcards (ParamString cfg) template tokens)
              (len template)) as [|Hlt]; [done|].
  pose proof (score_below_one
                (literalMatches (ParamString cfg) template tokens
                 + wildcards (ParamString cfg) template tokens)
                (len template) ltac:(lia) ltac:(lia)) as Hbelow.
  unfold geb, leb in Hge.
  rewrite (ltb_asym _ _ Hbelow) in Hge.
  rewrite eqb_sym, (ltb_not_eqb _ _ Hbelow) in Hge. done.
Qed.

(** A template that stands for the line has the score 1.0 with the
    wildcards counted. *)
Lemma covers_score_one cfg template tokens :
  tokens <> [] -> covers (ParamString cfg) template tokens ->
  (seqDistance cfg template tokens true).1 = one.
Proof.
  intros Hne Hc. pose proof (Forall2_length _ _ _ Hc) as Hlen.
  rewrite seqDistance_spec. cbn [fst].
  apply matches_all_covers in Hc; [|done]. rewrite Hc.
  apply div_self. destruct tokens; [done|]. destruct template; [done|].
  unfold len. simpl. lia.
Qed.

Lemma elem_of_scored cfg tokens inc c ids e :
  e ∈ scored cfg tokens inc c ids ->
  exists id, id ∈ ids /\ resolve c id = Some e.1
             /\ e.2 = seqDistance cfg (Tokens e.1) tokens inc.
Proof.
  unfold scored. intros (id & Hid & He)%list_elem_of_omap.
  exists id. split; [done|]. destruct (resolve c id) as [m|]; [|done].
  injection He as <-. done.
Qed.

Lemma foldl_pick_from (l : list (LogCluster * (float64 * Z))) (b : best) (C : LogCluster) :
  maxCluster (foldl pick b l) = Some C ->
  (maxCluster b = Some C /\ maxSim (foldl pick b l) = maxSim b)
  \/ exists s, (C, s) ∈ l /\ maxSim (foldl pick b l) = s.1.
Proof.
  revert b. induction l as [|e l IH]; intros b; simpl; [intros ?; by left|].
  intros [[Hb Hs]|(s & Hin & Hs)]%IH.
  - unfold pick in Hb, Hs |- *. destruct (beats e.2 (maxSim b) (maxParamCount b)).
    + right. exists e.2. simpl in *. split; [|done].
      injection Hb as <-. destruct e. left.
    + by left.
  - right. exists s. split; [by right|done].
Qed.

(** The cluster [fastMatch] returns reaches the threshold. *)
Lemma fastMatch_reaches `{GoStdlib} d ids tokens simTh inc m d' :
  (forall id v, id ∈ ids -> resolve (idToCluster d) id = Some v ->
                length (Tokens v) = length tokens) ->
  fastMatch d ids tokens simTh inc = Ok (Some m, d') ->
  geb (seqDistance (config d) (Tokens m) tokens inc).1 simTh = true.
Proof.
  intros Hlen Hfm.
  pose proof (fastMatch_spec d ids tokens simTh inc Hlen) as Hspec.
  rewrite Hfm in Hspec. destruct Hspec as (_ & _ & _ & _ & Hm).
  destruct (Hm m eq_refl) as (id & Hid & Hres).
  assert (is_Some (cache (idToCluster d))) as Hc.
  { unfold resolve in Hres. destruct (cache (idToCluster d)); [eauto|done]. }
  unfold fastMatch in Hfm.
  destruct (fastMatch_loop_fold (config d) tokens inc ids (mkBest neg_one (-1) None)
              (idToCluster d) Hc Hlen) as (c' & _ & Hloop).
  rewrite Hloop in Hfm. simpl in Hfm.
  set (b := foldl pick _ _) in Hfm.
  destruct (geb (maxSim b) simTh) eqn:Hge; [|done].
  injection Hfm as Hmax _.
  apply foldl_pick_from in Hmax as [[? _]|(s & Hin & Hs)]; [done|].
  apply elem_of_scored in Hin as (_ & _ & _ & Heq). simpl in Heq. subst s.
  fold b in Hs. by rewrite <- Hs.
Qed.

Lemma treeSearch_reaches `{GoStdlib} G d tokens simTh inc m d' :
  Inv G d -> tokens <> [] ->
  treeSearch d (rootNode d) tokens simTh inc = Ok (Some m, d') ->
  geb (seqDistance (config d) (Tokens m) tokens inc).1 simTh = true.
Proof.
  intros HInv Hne. unfold treeSearch.
  destruct (keyToChildNode (rootNode d) !! Itoa (len tokens)) as [nd|] eqn:Hnd; [|done].
  destruct (inv_tree _ _ HInv _ _ Hnd) as (n & Hn & Hall).
  apply Itoa_inj in Hn. unfold len in Hn. apply Nat2Z.inj in Hn. subst n.
  rewrite len_nonempty by done.
  destruct (searchLoop (config d) (len tokens) tokens 1 nd) as [leaf|] eqn:Hs; [|done].
  apply (searchLoop_Forall _ _ _ _ _ _ _ Hall) in Hs.
  apply fastMatch_reaches. intros id v Hin Hv.
  apply Forall_nodes_here in Hs. specialize (Hs id Hin).
  destruct (inv_cache _ _ HInv id v Hv) as [? HG]. congruence.
Qed.

(** [Match] is exact: in any state reached by calls on a new engine, a
    cluster that [Match] returns is in the cache, its template has the
    token count of the line and stands for the line, position by position
    the token of the line or the wildcard marker (lines of fewer than 2^53
    tokens). *)
Theorem Match_is_exact `{GoStdlib} (cfg : Config) (d0 d d' : Drain)
    (calls : list call) (outs : list (option LogCluster))
    (content : string) (m : LogCluster) :
  New cfg = Ok d0 ->
  len calls <= max_int ->
  run d0 calls = Ok (outs, d) ->
  len (getContentAsTokens cfg content) < 2 ^ 53 ->
  Match d content = Ok (Some m, d') ->
  resolve (idToCluster d) (cluster_id m) = Some m
  /\ covers (ParamString cfg) (Tokens m) (getContentAsTokens cfg content).
Proof.
  intros HNew Hlen Hrun Hsmall HM.
  destruct (New_Inv _ _ HNew) as [HInv Hcnt].
  pose proof (New_Ok _ _ HNew) as [_ Hd0].
  destruct (run_Inv ∅ d0 calls outs d HInv ltac:(lia) Hrun)
    as (G & _ & HInvd & _ & Hcfg & _).
  assert (ParamString (config d) = ParamString cfg) as HP by (rewrite Hcfg; by subst d0).
  assert (getContentAsTokens (config d) content = getContentAsTokens cfg content)
    as HT by (rewrite Hcfg; by subst d0).
  destruct (Match_Inv G d content (Some m) d' HInvd HM) as (_ & _ & _ & _ & _ & Hm).
  destruct (Hm m eq_refl) as [HG Hres]. split; [done|].
  destruct (inv_cache _ _ HInvd _ _ Hres) as [_ HG'].
  unfold Match in HM. rewrite HT in *.
  apply (treeSearch_reaches G) in HM; [|done|apply getContentAsTokens_nonempty].
  rewrite <- HP. apply score_one_covers; [apply getContentAsTokens_nonempty| |done|done].
  congruence.
Qed.

(** ** A trained line is found again *)

Lemma beats_not_NaN (cur : float64 * Z) (sim : float64) (n : Z) :
  beats cur sim n = true -> cur.1 <> NaN.
Proof.
  unfold beats, gtb. intros [Hlt|[Heq _]%andb_true_iff]%orb_true_iff.
  - by apply ltb_not_NaN in Hlt as [_ ?].
  - intros Hn. rewrite Hn in Heq. done.
Qed.

Lemma beats_geb (cur : float64 * Z) (sim : float64) (n : Z) :
  beats cur sim n = true -> geb sim one = true -> geb cur.1 one = true.
Proof.
  unfold beats, gtb, geb, leb.
  intros [Hlt|[Heq _]%andb_true_iff]%orb_true_iff [H1|H1]%orb_true_iff;
    apply orb_true_iff.
  - left. by eapply ltb_trans.
  - left. by eapply eqb_ltb_trans.
  - left. rewrite eqb_sym in Heq. by eapply ltb_eqb_trans.
  - right. rewrite eqb_sym in Heq. by eapply eqb_trans.
Qed.

(** Once the scan has met a candidate with the score 1.0 its maximum is
    at least 1.0 and it holds a cluster. *)
Lemma foldl_pick_one (l : list (LogCluster * (float64 * Z))) (b : best)
    (e : LogCluster * (float64 * Z)) :
  maxSim b <> NaN ->
  (maxCluster b = None -> ltb (maxSim b) one = true) ->
  e ∈ l -> e.2.1 = one ->
  geb (maxSim (foldl pick b l)) one = true
  /\ is_Some (maxCluster (foldl pick b l)).
Proof.
  assert (forall l b, geb (maxSim b) one = true -> is_Some (maxCluster b) ->
            geb (maxSim (foldl pick b l)) one = true
            /\ is_Some (maxCluster (foldl pick b l))) as Hkeep.
  { clear. induction l as [|e l IH]; intros b Hge Hsome; [done|].
    simpl. apply IH; unfold pick; destruct (beats _ _ _) eqn:Hb; simpl; eauto.
    by eapply beats_geb. }
  revert b. induction l as [|e' l IH]; intros b Hnan Hnone Hin He.
  { by apply elem_of_nil in Hin. }
  simpl. apply elem_of_cons in Hin as [<-|Hin].
  - apply Hkeep; unfold pick; destruct (beats _ _ _) eqn:Hb; simpl.
    + by rewrite He.
    + unfold beats, gtb in Hb. rewrite He in Hb.
      apply orb_false_iff in Hb as [Hlt _].
      unfold geb, leb. apply orb_true_iff.
      destruct (float_trichotomy one (maxSim b)) as [?|[?|?]]; auto; congruence.
    + eauto.
    + unfold beats, gtb in Hb. rewrite He in Hb.
      apply orb_false_iff in Hb as [Hlt _].
      destruct (maxCluster b); [eauto|]. rewrite Hnone in Hlt; done.
  - apply IH; try done; unfold pick; destruct (beats _ _ _) eqn:Hb; simpl; try done.
    by eapply beats_not_NaN.
Qed.

(** A leaf that holds a cluster whose template stands for the line makes
    the exact search succeed. *)
Lemma treeSearch_finds `{GoStdlib} G d tokens nd leaf k c :
  Inv G d -> tokens <> [] ->
  keyToChildNode (rootNode d) !! Itoa (len tokens) = Some nd ->
  searchLoop (config d) (len tokens) tokens 1 nd = Some leaf ->
  k ∈ clusterIDs leaf ->
  resolve (idToCluster d) k = Some c ->
  covers (ParamString (config d)) (Tokens c) tokens ->
  exists m d', treeSearch d (rootNode d) tokens one true = Ok (Some m, d').
Proof.
  intros HInv Hne Hnd Hs Hk Hres Hcov. unfold treeSearch. rewrite Hnd.
  rewrite len_nonempty by done. rewrite Hs.
  destruct (inv_tree _ _ HInv _ _ Hnd) as (n & Hn & Hall).
  apply Itoa_inj in Hn. unfold len in Hn. apply Nat2Z.inj in Hn. subst n.
  apply (searchLoop_Forall _ _ _ _ _ _ _ Hall) in Hs.
  assert (forall id v, id ∈ clusterIDs leaf -> resolve (idToCluster d) id = Some v ->
                       length (Tokens v) = length tokens) as Hlen.
  { intros id v Hin Hv. apply Forall_nodes_here in Hs. specialize (Hs id Hin).
    destruct (inv_cache _ _ HInv id v Hv) as [? HG]. congruence. }
  assert (is_Some (cache (idToCluster d))) as Hc.
  { unfold resolve in Hres. destruct (cache (idToCluster d)); [eauto|done]. }
  unfold fastMatch.
  destruct (fastMatch_loop_fold (config d) tokens true (clusterIDs leaf)
              (mkBest neg_one (-1) None) (idToCluster d) Hc Hlen) as (c' & _ & ->).
  simpl.
  destruct (foldl_pick_one
              (scored (config d) tokens true (idToCluster d) (clusterIDs leaf))
              (mkBest neg_one (-1) None)
              (c, seqDistance (config d) (Tokens c) tokens true))
    as [Hge [m Hm]]; try done.
  { unfold scored. apply list_elem_of_omap. exists k. split; [done|]. by rewrite Hres. }
  { by apply covers_score_one. }
  rewrite Hge, Hm. eauto.
Qed.

(** The leaf that the search reaches for the tokens of a line after the
    line was trained holds the cluster that [Train] returned. *)
Lemma Train_leaf `{GoStdlib} G d content ts c d1 :
  Inv G d -> clustersCounter d < max_int ->
  Train d content ts = Ok (c, d1) ->
  exists nd leaf,
    keyToChildNode (rootNode d1)
      !! Itoa (len (getContentAsTokens (config d) content)) = Some nd
    /\ searchLoop (config d) (len (getContentAsTokens (config d) content))
         (getContentAsTokens (config d) content) 1 nd = Some leaf
    /\ cluster_id c ∈ clusterIDs leaf.
Proof.
  intros HInv Hmax. unfold Train.
  set (tokens := getContentAsTokens (config d) content).
  assert (tokens <> []) as Hne by apply getContentAsTokens_nonempty.
  pose proof (treeSearch_spec G d tokens (SimTh (config d)) false HInv) as Hts.
  destruct (treeSearch d (rootNode d) tokens (SimTh (config d)) false)
    as [[o d0]|p] eqn:Hsearch; [|done].
  destruct Hts as (Hcfg & Hroot & Hcnt & Ht & Hm). simpl.
  destruct o as [m|].
  - intros (r & Hr & Hrest)%bind_Ok.
    apply bind_Ok in Hrest as (m2 & Happ & Hrest).
    apply bind_Ok in Hrest as ([o3 c3] & Hget & [= <- <-]).
    unfold LogCluster_append in Happ.
    apply bind_Ok in Happ as (v & _ & [= <-]). cbn [rootNode cluster_id].
    rewrite Hroot.
    unfold treeSearch in Hsearch.
    destruct (keyToChildNode (rootNode d) !! Itoa (len tokens)) as [nd|] eqn:Hnd;
      [|done].
    rewrite len_nonempty in Hsearch by done.
    destruct (searchLoop (config d) (len tokens) tokens 1 nd) as [leaf|] eqn:Hs;
      [|done].
    exists nd, leaf. split; [done|]. split; [done|].
    pose proof (fastMatch_spec d (clusterIDs leaf) tokens (SimTh (config d)) false)
      as Hfm.
    rewrite Hsearch in Hfm. destruct Hfm as (_ & _ & _ & _ & Hin).
    { destruct (inv_tree _ _ HInv _ _ Hnd) as (n & Hn & Hall).
      apply Itoa_inj in Hn. unfold len in Hn. apply Nat2Z.inj in Hn. subst n.
      apply (searchLoop_Forall _ _ _ _ _ _ _ Hall) in Hs.
      intros id v' Hin Hv. apply Forall_nodes_here in Hs. specialize (Hs id Hin).
      destruct (inv_cache _ _ HInv id v' Hv) as [? HG]. congruence. }
    destruct (Hin m eq_refl) as (id & Hid & Hres).
    by destruct (inv_cache _ _ HInv id m Hres) as [-> _].
  - rewrite Hcfg, Hroot.
    intros (c1 & Hset & Hrest)%bind_Ok.
    apply bind_Ok in Hrest as (d2 & Hadd & [= <- <-]). cbn [cluster_id].
    unfold addSeqToPrefixTree in Hadd. cbn [Tokens config rootNode idToCluster] in Hadd.
    fold tokens in Hadd. rewrite len_nonempty in Hadd by done.
    apply bind_Ok in Hadd as ([n c2] & Hloop & [= <-]). cbn [rootNode keyToChildNode].
    rewrite lookup_insert_eq.
    apply searchLoop_after_addLoop in Hloop as (leaf & ids & Hs & _ & Hids);
      [|done|lia].
    exists n, leaf. split; [done|]. split; [done|].
    rewrite Hids. cbn [cluster_id]. apply elem_of_app. right. by left.
Qed.

(** A line that [Train] has just taken is matched by [Match]: in any
    state reached by calls on a new engine, after a [Train] of a line that
    returns, [Match] of the same line returns a cluster. *)
Theorem Match_finds_trained_line `{GoStdlib} (cfg : Config) (d0 d d1 : Drain)
    (calls : list call) (outs : list (option LogCluster))
    (content : string) (ts : Z) (c : LogCluster) :
  New cfg = Ok d0 ->
  len calls < max_int ->
  run d0 calls = Ok (outs, d) ->
  Train d content ts = Ok (c, d1) ->
  exists m d2, Match d1 content = Ok (Some m, d2).
Proof.
  intros HNew Hlen Hrun HT.
  destruct (New_Inv _ _ HNew) as [HInv Hcnt].
  destruct (run_Inv ∅ d0 calls outs d HInv ltac:(lia) Hrun)
    as (G & _ & HInvd & _ & Hcfg & Hcount & _).
  assert (clustersCounter d < max_int) as Hmax by lia.
  destruct (Train_Inv G d content ts c d1 HInvd Hmax HT)
    as (G1 & _ & HInv1 & _ & Hlen1 & Hcfg1 & _).
  destruct (Train_leaf G d content ts c d1 HInvd Hmax HT) as (nd & leaf & Hnd & Hs & Hin).
  destruct (Train_entries G d content ts c d1 HInvd Hmax HT) as (Hres & _ & Hcase).
  unfold Match. rewrite Hcfg1.
  apply (treeSearch_finds G1 d1 _ nd leaf (cluster_id c) c); try done.
  - apply getContentAsTokens_nonempty.
  - by rewrite Hcfg1.
  - rewrite Hcfg1.
    destruct (resolve (idToCluster d) (cluster_id c)) as [m|].
    + destruct Hcase as (_ & Htpl & _).
      unfold createTemplate in Htpl. case_bool_decide as Hl; [done|].
      injection Htpl as <-. apply covers_merge.
      destruct (decide (length (getContentAsTokens (config d) content)
                        = length (Tokens m))); [done|]. by destruct Hl.
    + destruct Hcase as (_ & ->). apply covers_refl.
Qed.

(** ** Configurations that make the engine fault *)

(** A negative [MaxClusters] leaves the engine without a cache
    ([simplelru.NewLRU] fails and its error is dropped).  On such an engine
    every [Train] faults on the nil cache, as does [Clusters]; [Match]
    returns no cluster and changes nothing.  So a run of calls returns
    exactly when it holds no [Train]. *)
Theorem negative_MaxClusters_nil_cache `{GoStdlib} (cfg : Config) (d0 : Drain) :
  New cfg = Ok d0 ->
  MaxClusters cfg < 0 ->
  cache (idToCluster d0) = None
  /\ Clusters d0 = Panic NilCache
  /\ (forall content ts, Train d0 content ts = Panic NilCache)
  /\ (forall content, Match d0 content = Ok (None, d0))
  /\ forall calls,
       run d0 calls
       = if forallb is_Match calls then Ok (map (fun _ => None) calls, d0)
         else Panic NilCache.
Proof.
  intros HNew Hneg. pose proof (New_Ok _ _ HNew) as [_ Hd0].
  assert (cache (idToCluster d0) = None) as Hc.
  { subst d0. cbn [idToCluster MaxClusters]. unfold createLogClusterCache, NewLRU.
    destruct (Z.eqb_spec (MaxClusters cfg) 0); [lia|].
    destruct (Z.leb_spec (MaxClusters cfg) 0); [done|lia]. }
  assert (rootNode d0 = createNode) as Hroot by by subst d0.
  assert (forall content ts, Train d0 content ts = Panic NilCache) as HT.
  { intros content ts. unfold Train, treeSearch. rewrite Hroot. unfold createNode. cbn [keyToChildNode].
    rewrite lookup_empty. simpl. unfold Cache_Set. by rewrite Hc. }
  assert (forall content, Match d0 content = Ok (None, d0)) as HM.
  { intros content. unfold Match, treeSearch. rewrite Hroot. unfold createNode. cbn [keyToChildNode].
    by rewrite lookup_empty. }
  split_and!; try done.
  - unfold Clusters, Cache_Values. by rewrite Hc.
  - induction calls as [|[content ts|content] calls IH]; [done|..]; simpl.
    + by rewrite HT.
    + rewrite HM. simpl. rewrite IH. by destruct (forallb is_Match calls).
Qed.


(** ** The range of a score *)

Lemma round_pos_nonneg n d : 0 < n -> leb (Fin 0) (round_pos n d) = true.
Proof.
  intros Hn. unfold round_pos.
  set (s := 52 - Z.max (ilog2 n d) (-1022)).
  set (m := if 0 <=? s then half_even (n * 2 ^ s) (Z.pos d)
            else half_even n (Z.pos d * 2 ^ (- s))).
  assert (0 <= m) as Hm.
  { unfold m. destruct (Z.leb_spec 0 s).
    - apply half_even_nonneg; [|lia].
      pose proof (Z.pow_pos_nonneg 2 s). nia.
    - apply half_even_nonneg; [lia|].
      pose proof (Z.pow_pos_nonneg 2 (- s)). nia. }
  destruct (Qcompare _ (pow2Q 1024)); try done. unfold leb. simpl.
  pose proof (pow2Q_pos (- s)).
  assert (0 <= (m # 1) * pow2Q (- s))%Q as Hnn.
  { apply Qmult_le_0_compat; [|lra]. unfold Qle. simpl. lia. }
  destruct (Qcompare_spec 0 (Qred ((m # 1) * pow2Q (- s)))) as [Heq|Hlt|Hgt];
    [done|done|].
  rewrite Qred_correct in Hgt. lra.
Qed.

Lemma score_nonneg a n : 0 <= a -> 0 < n ->
  leb (Fin 0) (F64.div (of_int a) (of_int n)) = true.
Proof.
  intros Ha Hn.
  destruct (of_int_nonneg a Ha) as (qa & -> & Hqa).
  destruct (of_int_pos n Hn) as (qn & -> & Hqn).
  unfold F64.div.
  assert (is_zero qn = false) as ->.
  { unfold is_zero. destruct qn as [[] ?]; done. }
  unfold round64, round_red.
  assert (0 <= Qred (qa / qn))%Q as Hq.
  { rewrite Qred_correct. apply Qle_shift_div_l; [done|]. lra. }
  destruct (Qred (qa / qn)) as [num den] eqn:Hred. simpl.
  destruct num as [|p|p]; simpl; [done| |].
  - by apply round_pos_nonneg.
  - unfold Qle in Hq. simpl in Hq. lia.
Qed.

Lemma score_one_iff a n :
  0 <= a <= n -> 0 < n < 2 ^ 53 ->
  F64.div (of_int a) (of_int n) = one <-> a = n.
Proof.
  intros Ha Hn. split.
  - intros Hone. destruct (Z.eq_dec a n) as [|Hne]; [done|].
    pose proof (score_below_one a n ltac:(lia) ltac:(lia)) as Hlt.
    rewrite Hone in Hlt. done.
  - intros ->. apply div_self. lia.
Qed.

(** [getSeqDistance] panics exactly on sequences of different lengths.
    On non-empty sequences of one length (below 2^53) the score is
    between 0.0 and 1.0 and the second result is the number of wildcard
    positions of the first sequence.  With the wildcards counted the score
    is 1.0 exactly when the first sequence stands for the second; without
    them, exactly when the sequences are equal and hold no wildcard.  On
    empty sequences the score is NaN. *)
Theorem getSeqDistance_range `{GoStdlib} (cfg : Config) (seq1 seq2 : list string)
    (includeParams : bool) :
  (length seq1 <> length seq2 ->
   getSeqDistance cfg seq1 seq2 includeParams = Panic LenMismatch)
  /\ (getSeqDistance cfg [] [] includeParams = Ok (NaN, 0))
  /\ (length seq1 = length seq2 -> seq1 <> [] -> len seq1 < 2 ^ 53 ->
      exists score,
        getSeqDistance cfg seq1 seq2 includeParams
        = Ok (score, wildcards (ParamString cfg) seq1 seq2)
        /\ leb (Fin 0) score = true /\ leb score one = true
        /\ 0 <= wildcards (ParamString cfg) seq1 seq2 <= len seq1
        /\ (score = one <->
            if includeParams then covers (ParamString cfg) seq1 seq2
            else seq1 = seq2 /\ ParamString cfg ∉ seq1)).
Proof.
  split_and!.
  - intros Hne. unfold getSeqDistance. by rewrite bool_decide_eq_true_2.
  - by destruct includeParams.
  - intros Hlen Hne Hsmall. unfold getSeqDistance.
    rewrite bool_decide_eq_false_2 by (intros ?; done).
    rewrite seqDistance_spec. eexists. split; [done|].
    set (lit := literalMatches (ParamString cfg) seq1 seq2).
    set (wild := wildcards (ParamString cfg) seq1 seq2).
    pose proof (matches_le_len (ParamString cfg) seq1 seq2) as Hle.
    pose proof (literalMatches_nonneg (ParamString cfg) seq1 seq2) as Hl0.
    pose proof (wildcards_nonneg (ParamString cfg) seq1 seq2) as Hw0.
    fold lit wild in Hle, Hl0, Hw0.
    assert (0 < len seq1) as Hpos by (destruct seq1; [done|unfold len; simpl; lia]).
    set (a := lit + (if includeParams then wild else 0)).
    assert (0 <= a <= len seq1) as Ha by (unfold a; destruct includeParams; lia).
    split_and!.
    + apply score_nonneg; lia.
    + destruct (Z.eq_dec a (len seq1)) as [->|Hlt].
      * rewrite div_self by done. done.
      * unfold leb. rewrite score_below_one by lia. done.
    + lia.
    + lia.
    + rewrite score_one_iff by lia. unfold a. destruct includeParams.
      * by apply matches_all_covers.
      * rewrite Z.add_0_r. unfold lit, literalMatches, len. clear -Hlen.
        revert seq2 Hlen. induction seq1 as [|t1 seq1 IH]; intros [|t2 seq2] Hlen;
          try done.
        { split; [|done]. intros _. split; [done|]. by intros ?%elem_of_nil. }
        injection Hlen as Hlen. specialize (IH seq2 Hlen). simpl.
        rewrite filter_cons. simpl.
        pose proof (length_filter (fun p : string * string =>
                      p.1 <> ParamString cfg /\ p.1 = p.2) (zip seq1 seq2)) as Hf.
        rewrite length_zip in Hf.
        destruct (decide (t1 <> ParamString cfg /\ t1 = t2)) as [[Hp ->]|Hn];
          simpl length.
        -- split.
           ++ intros Hs. destruct IH as [IH _].
              destruct IH as [-> Hnin]; [lia|]. split; [done|].
              by intros [?|?]%elem_of_cons.
           ++ intros [[= ->] Hnin]. destruct IH as [_ IH].
              assert (seq2 = seq2 /\ ParamString cfg ∉ seq2) as Hs.
              { split; [done|]. intros ?. apply Hnin. by right. }
              specialize (IH Hs). simpl length. lia.
        -- split; [lia|]. intros [[= -> ->] Hnin]. destruct Hn.
           split; [|done]. intros ->. apply Hnin. by left.
Qed.

(** ** Cluster identifiers *)

Lemma created_cons call o calls outs :
  created (call :: calls) (o :: outs) = created [call] [o] ++ created calls outs.
Proof.
  unfold created. simpl.
  destruct call as [content ts|content]; simpl; [|done].
  destruct o as [m|]; simpl; [|done]. by destruct (Size m =? 1).
Qed.

Lemma step_created `{GoStdlib} G d call o d' n lines :
  Inv G d -> clustersCounter d < max_int -> 0 <= n < max_int ->
  recorded (config d) n d lines ->
  step d call = Ok (o, d') ->
  created [call] [o]
  = seqZ (clustersCounter d + 1) (clustersCounter d' - clustersCounter d).
Proof.
  intros HInv Hmax Hn (Hfresh & Hbound & Hrec).
  destruct call as [content ts|content]; simpl.
  - intros ([c d1] & HT & [= <- <-])%bind_Ok.
    destruct (Train_entries G d content ts c d1 HInv Hmax HT) as (_ & _ & Hcase).
    unfold created. simpl.
    destruct (resolve (idToCluster d) (cluster_id c)) as [m|] eqn:Hres.
    + destruct Hcase as (-> & _ & Hsize & _).
      destruct (Hrec _ _ Hres) as (Hne & Hsz & _).
      specialize (Hbound (cluster_id c)).
      assert (0 < len (lines (cluster_id c))).
      { destruct (lines (cluster_id c)); [done|]. unfold len. simpl. lia. }
      rewrite Hsize, Hsz, add64_small by lia.
      destruct (Z.eqb_spec (len (lines (cluster_id c)) + 1) 1); [lia|].
      by rewrite Z.sub_diag.
    + destruct Hcase as (-> & ->). cbn [Size cluster_id]. simpl.
      replace (clustersCounter d + 1 - clustersCounter d) with 1 by lia. done.
  - intros HM.
    destruct (Match_Inv G d content o d' HInv HM) as (_ & _ & -> & _).
    by rewrite Z.sub_diag.
Qed.

Lemma run_created `{GoStdlib} G d calls outs d' n lines :
  Inv G d -> clustersCounter d + len calls <= max_int ->
  0 <= n -> n + len calls <= max_int ->
  recorded (config d) n d lines ->
  run d calls = Ok (outs, d') ->
  created calls outs
  = seqZ (clustersCounter d + 1) (clustersCounter d' - clustersCounter d).
Proof.
  revert G d outs n lines.
  induction calls as [|call calls IH]; intros G d outs n lines HInv Hmax Hn Hnmax Hrec.
  - intros [= <- <-]. by rewrite Z.sub_diag.
  - simpl. intros ([o d1] & Hstep & Hrest)%bind_Ok.
    apply bind_Ok in Hrest as ([os d2] & Hrun & [= <- <-]).
    unfold len in *. simpl length in *.
    assert (clustersCounter d < max_int) as Hm0 by lia.
    assert (0 <= n < max_int) as Hn0 by lia.
    destruct (step_Inv G d call o d1 HInv Hm0 Hstep)
      as (G1 & _ & HInv1 & _ & Hcfg & Hcnt & _).
    pose proof (step_recorded G d call o d1 n lines HInv Hm0 Hn0 Hrec Hstep) as Hrec1.
    rewrite <- Hcfg in Hrec1.
    assert (clustersCounter d1 + Z.of_nat (length calls) <= max_int) as Hm1 by lia.
    assert (0 <= n + 1) as Hn1 by lia.
    assert (n + 1 + Z.of_nat (length calls) <= max_int) as Hn2 by lia.
    pose proof (IH G1 d1 os (n + 1) _ HInv1 Hm1 Hn1 Hn2 Hrec1 Hrun) as Hrest.
    destruct (run_Inv G1 d1 calls os d2 HInv1 Hm1 Hrun) as (_ & _ & _ & _ & _ & Hcnt2 & _).
    rewrite created_cons, Hrest, (step_created G d call o d1 n lines) by done.
    replace (clustersCounter d2 - clustersCounter d)
      with ((clustersCounter d1 - clustersCounter d)
            + (clustersCounter d2 - clustersCounter d1)) by lia.
    rewrite seqZ_app by lia. do 2 f_equal. lia.
Qed.

(** Clusters are numbered from 1 in the order of their creation: in a run
    of calls on a new engine the [Train] calls that return a cluster of
    [Size] 1 (the line opened the cluster) return the identifiers 1, 2,
    ..., up to the cluster counter, in this order; every other call returns
    a cluster of an earlier identifier, or none. *)
Theorem clusters_numbered_in_order `{GoStdlib} (cfg : Config) (d0 d : Drain)
    (calls : list call) (outs : list (option LogCluster)) :
  New cfg = Ok d0 ->
  len calls <= max_int ->
  run d0 calls = Ok (outs, d) ->
  created calls outs = seqZ 1 (clustersCounter d)
  /\ 0 <= clustersCounter d <= len calls
  /\ forall i m, outs !! i = Some (Some m) -> 1 <= cluster_id m <= clustersCounter d.
Proof.
  intros HNew Hlen Hrun.
  destruct (New_Inv _ _ HNew) as [HInv Hcnt].
  pose proof (New_Ok _ _ HNew) as [_ Hd0].
  assert (recorded (config d0) 0 d0 (fun _ => [])) as Hrec0.
  { split_and!; [done|done|]. intros id' v'. subst d0. unfold resolve. simpl.
    unfold createLogClusterCache, NewLRU. by destruct (_ <=? 0). }
  assert (clustersCounter d0 + len calls <= max_int) as Hm by lia.
  assert (0 + len calls <= max_int) as Hn by lia.
  pose proof (run_created ∅ d0 calls outs d 0 _ HInv Hm (Z.le_refl 0) Hn Hrec0 Hrun)
    as Hcr.
  destruct (run_Inv ∅ d0 calls outs d HInv Hm Hrun)
    as (G & _ & HInvd & Hall & _ & Hcount & _).
  rewrite Hcnt in Hcr, Hcount. rewrite Z.sub_0_r in Hcr.
  split; [done|]. split; [lia|].
  intros i m Hi.
  destruct (Forall2_lookup_r _ _ _ _ _ Hall Hi) as (call & _ & Hm').
  specialize (Hm' m eq_refl). by apply (inv_ids _ _ HInvd) in Hm'.
Qed.

(** ** What the calls change *)

Lemma run_nil_cache `{GoStdlib} d calls outs d' :
  cache (idToCluster d) = None -> run d calls = Ok (outs, d') ->
  cache (idToCluster d') = None.
Proof.
  apply (run_keeps (fun c => cache c = None)).
  - intros c key o1 c1 Hc. unfold Cache_Get. by rewrite Hc.
  - intros c key v c1 Hc. unfold Cache_Set. by rewrite Hc.
  - intros c v Hc. unfold Cache_store. by rewrite Hc.
Qed.

(** [Match] creates and modifies nothing: in any state reached by calls
    on a new engine it leaves the configuration, the tree, the cluster
    counter and every cluster of the cache as they are (the order of
    recency apart), and a cluster it returns is a cluster of the cache. *)
Theorem Match_changes_only_recency `{GoStdlib} (cfg : Config) (d0 d d' : Drain)
    (calls : list call) (outs : list (option LogCluster))
    (content : string) (o : option LogCluster) :
  New cfg = Ok d0 ->
  len calls <= max_int ->
  run d0 calls = Ok (outs, d) ->
  Match d content = Ok (o, d') ->
  config d' = config d
  /\ rootNode d' = rootNode d
  /\ clustersCounter d' = clustersCounter d
  /\ (forall id, resolve (idToCluster d') id = resolve (idToCluster d) id)
  /\ (forall cs, Clusters d = Ok cs ->
        exists cs', Clusters d' = Ok cs' /\ cs' ≡ₚ cs)
  /\ (forall m, o = Some m -> resolve (idToCluster d) (cluster_id m) = Some m).
Proof.
  intros HNew Hlen Hrun HM.
  destruct (New_Inv _ _ HNew) as [HInv Hcnt].
  pose proof (New_Ok _ _ HNew) as [_ Hd0].
  destruct (run_Inv ∅ d0 calls outs d HInv ltac:(lia) Hrun) as (G & _ & HInvd & _).
  destruct (Match_Inv G d content o d' HInvd HM)
    as (_ & Hcfg & Hcount & Hroot & [Hres Hsize] & Hm).
  split_and!; try done.
  - intros cs Hcs. unfold Clusters, Cache_Values in *.
    destruct (cache (idToCluster d)) as [l|] eqn:Hl; [|done].
    destruct (cache (idToCluster d')) as [l'|] eqn:Hl'; [|done].
    injection Hcs as <-. eexists. split; [done|].
    assert (exists l0, cache (idToCluster d0) = Some l0 /\ wf_LRU l0) as Hwf0.
    { assert (idToCluster d0 = createLogClusterCache (MaxClusters cfg)) as Hid
        by by subst d0.
      destruct (createLogClusterCache_cases (MaxClusters cfg))
        as [[_ Hnil]|[_ (size & Hpos & Hsome)]]; rewrite <- Hid in *.
      - by rewrite (run_nil_cache _ _ _ _ Hnil Hrun) in Hl.
      - eexists. split; [done|].
        split_and!; [constructor|unfold len; simpl; lia|simpl; lia]. }
    destruct Hwf0 as (l0 & Hl0 & Hwf0).
    destruct (run_wf_LRU (lru_size l0) d0 calls outs d) as (l1 & Hl1 & Hwf & _);
      [by exists l0|done|].
    rewrite Hl in Hl1. injection Hl1 as <-.
    destruct (run_wf_LRU (lru_size l0) d0 (calls ++ [CallMatch content])
                (outs ++ [o]) d') as (l2 & Hl2 & Hwf' & _); [by exists l0| |].
    { clear -Hrun HM. revert d0 outs Hrun.
      induction calls as [|call calls IH]; intros d0 outs Hrun; simpl in *.
      - injection Hrun as <- <-. simpl. by rewrite HM.
      - apply bind_Ok in Hrun as ([o1 d1] & Hstep & Hrest).
        apply bind_Ok in Hrest as ([os d2] & Hrun & [= <- <-]).
        rewrite Hstep. simpl. by rewrite (IH d1 os Hrun). }
    rewrite Hl' in Hl2. injection Hl2 as <-.
    destruct Hwf as (Hnd & _). destruct Hwf' as (Hnd' & _).
    rewrite !Cache_Values_wf by done.
    rewrite <- !Permutation_rev.
    apply fmap_Permutation.
    apply NoDup_Permutation.
    + by apply NoDup_fmap_1 in Hnd'.
    + by apply NoDup_fmap_1 in Hnd.
    + intros [k v]. unfold resolve in Hres. specialize (Hres k).
      rewrite Hl, Hl' in Hres. split; intros Hin.
      * apply (items_NoDup _ _ Hnd') in Hin. simpl in Hin. rewrite Hres in Hin.
        by apply items_elem_of.
      * apply (items_NoDup _ _ Hnd) in Hin. simpl in Hin. rewrite <- Hres in Hin.
        by apply items_elem_of.
  - intros m Ho. by destruct (Hm m Ho).
Qed.

(** [Train] changes one cluster: in any state reached by calls on a new
    engine, the cluster it returns is afterwards the entry of the cache
    under its identifier, and every other entry is an entry that was there,
    unchanged.  The returned cluster is a new one, made of the line with
    the next identifier, [Size] 1, the line as its sample and one bucket
    for the timestamp as given; or it is the earlier entry with the line
    merged into the template by [createTemplate], [Size] up by one, the
    line added to the samples if there were fewer than ten, and the
    timestamp recorded by [Volume.Add]. *)
Theorem Train_changes_one_cluster `{GoStdlib} (cfg : Config) (d0 d d' : Drain)
    (calls : list call) (outs : list (option LogCluster))
    (content : string) (ts : Z) (c : LogCluster) :
  New cfg = Ok d0 ->
  len calls < max_int ->
  run d0 calls = Ok (outs, d) ->
  Train d content ts = Ok (c, d') ->
  resolve (idToCluster d') (cluster_id c) = Some c
  /\ (forall id v, id <> cluster_id c ->
        resolve (idToCluster d') id = Some v -> resolve (idToCluster d) id = Some v)
  /\ match resolve (idToCluster d) (cluster_id c) with
     | Some m =>
         clustersCounter d' = clustersCounter d
         /\ createTemplate cfg (getContentAsTokens cfg content) (Tokens m)
            = Ok (Tokens c)
         /\ Size c = Size m + 1
         /\ Samples c = (if len (Samples m) <? maxSamples
                         then Samples m ++ [content] else Samples m)
         /\ Add (cluster_Volume m) ts = Ok (cluster_Volume c)
     | None =>
         clustersCounter d' = clustersCounter d + 1
         /\ c = mkLogCluster (clustersCounter d + 1) 1
                  (getContentAsTokens cfg content) [content] (initVolume ts)
     end.
Proof.
  intros HNew Hlen Hrun HT.
  destruct (New_Inv _ _ HNew) as [HInv Hcnt].
  pose proof (New_Ok _ _ HNew) as [_ Hd0].
  assert (recorded (config d0) 0 d0 (fun _ => [])) as Hrec0.
  { split_and!; [done|done|]. intros id' v'. subst d0. unfold resolve. simpl.
    unfold createLogClusterCache, NewLRU. by destruct (_ <=? 0). }
  assert (clustersCounter d0 + len calls <= max_int) as Hm by lia.
  assert (0 + len calls <= max_int) as Hn by lia.
  pose proof (run_recorded ∅ d0 calls outs d 0 _ HInv Hm (Z.le_refl 0) Hn Hrec0 Hrun)
    as (_ & Hbound & Hrec).
  destruct (run_Inv ∅ d0 calls outs d HInv Hm Hrun)
    as (G & _ & HInvd & _ & Hcfg & Hcount & _).
  assert (clustersCounter d < max_int) as Hmax by lia.
  destruct (Train_entries G d content ts c d' HInvd Hmax HT) as (Hres & Hother & Hcase).
  assert (forall line, getContentAsTokens (config d) line = getContentAsTokens cfg line)
    as HTok by (intros; rewrite Hcfg; by subst d0).
  assert (forall a b, createTemplate (config d) a b = createTemplate cfg a b) as HCT.
  { intros a b. unfold createTemplate. rewrite Hcfg. by subst d0. }
  split; [done|]. split; [done|].
  destruct (resolve (idToCluster d) (cluster_id c)) as [m|] eqn:Hm'.
  - destruct Hcase as (? & Htpl & Hsize & ? & ?).
    rewrite HTok, HCT in Htpl. split_and!; try done.
    destruct (Hrec _ _ Hm') as (_ & Hsz & _). specialize (Hbound (cluster_id c)).
    rewrite Hsize, Hsz, add64_small; [done|]. unfold len in *. lia.
  - destruct Hcase as (? & ->). by rewrite HTok.
Qed.

(* ===================================================================== *)
(** ** The engine on concrete lines *)

Section Concrete.
#[local] Existing Instance AsciiStdlib.stdlib.
#[local] Open Scope string_scope.

(** Scenario A of the specification. *)
Example scenario_A :
  (d ← New DefaultConfig;
   '(out, _) ← run d [CallTrain "connection from 10.0.0.1 failed" 0;
                      CallTrain "connection from 10.0.0.2 failed" 0];
   Ok (map (option_map summary) out))
  = Ok [Some (1, 1, ["connection"; "from"; "10.0.0.1"; "failed"], 1);
        Some (1, 2, ["connection"; "from"; "<*>"; "failed"], 2)].
Proof. vm_compute. done. Qed.

(** Scenario B of the specification. *)
Example scenario_B :
  (d ← New DefaultConfig;
   '(out, _) ← run d [CallTrain "user login success" 0;
                      CallTrain "payment processed ok" 0];
   Ok (map (option_map summary) out))
  = Ok [Some (1, 1, ["user"; "login"; "success"], 1);
        Some (2, 1, ["payment"; "processed"; "ok"], 1)].
Proof. vm_compute. done. Qed.

(** C1. [fastMatch] resolves its candidates with [LogClusterCache.Get],
    which is [simplelru]'s recency-affecting [Get]: a [Match] that finds
    nothing still moves the candidate it tested to the front of the
    recency list.  Clusters 1 and 2 are trained in that order; matching the
    unknown line "zzz" tests cluster 1 and returns no cluster, and the keys
    from oldest to newest change from [1; 2] to [2; 1]. *)
Theorem Match_changes_recency :
  (d ← New DefaultConfig;
   '(_, d) ← run d [CallTrain "a" 0; CallTrain "b c" 0];
   before ← Cache_Keys (idToCluster d);
   '(m, d) ← Match d "zzz";
   after ← Cache_Keys (idToCluster d);
   Ok (before, option_map cluster_id m, after))
  = Ok ([1; 2], None, [2; 1]).
Proof. vm_compute. done. Qed.

(** C2. The binary search of [Volume.Add] reads the count ([x.Values[i][1]])
    where it means the timestamp: with buckets at 0 s and 20 s, recording
    10 s finds no count above 10^10 and inserts the new bucket at the end,
    after the bucket of 20 s. *)
Theorem Add_between_breaks_order :
  (v ← Add (initVolume 0) 20000000000;
   v ← Add v 10000000000;
   Ok (Values v))
  = Ok [(0, 1); (20000000000, 1); (10000000000, 1)].
Proof. vm_compute. done. Qed.

(** C2, the bucket that is already there: recording 10 s again in
    [(0 s, 10 s, 20 s)] adds a second bucket of 10 s at the end. *)
Example Add_existing_bucket_duplicates :
  (v ← Add (mkVolume [(0, 1); (10000000000, 1); (20000000000, 1)]) 10000000000;
   Ok (Values v))
  = Ok [(0, 1); (10000000000, 1); (20000000000, 1); (10000000000, 1)].
Proof. vm_compute. done. Qed.

(** C6. With [max_clusters = 2], cluster 1 is created first and never
    matched again, cluster 2 second.  Training the new line "z" tests
    cluster 1 as a candidate, which moves it to the front, so the
    insertion of cluster 3 evicts cluster 2: the live keys, oldest first,
    are [3; 1]. *)
Theorem eviction_follows_candidate_tests :
  (d ← New two_clusters;
   '(out, d) ← run d [CallTrain "a" 0; CallTrain "b c" 0; CallTrain "z" 0];
   keys ← Cache_Keys (idToCluster d);
   Ok (map (option_map cluster_id) out, keys))
  = Ok ([Some 1; Some 2; Some 3], [3; 1]).
Proof. vm_compute. done. Qed.

(** C9. The prepend branch of [Volume.Add] grows the capacity of the
    slice, not its length: the copy drops the last bucket and the new
    bucket overwrites the first.  Training a line at 20 s and again at
    10 s leaves one bucket with count 1 after two calls. *)
Theorem Train_earlier_timestamp_loses_a_bucket :
  (d ← New DefaultConfig;
   '(out, _) ← run d [CallTrain "a" 20000000000; CallTrain "a" 10000000000];
   Ok (option_map
         (fun c => (Size c, Values (cluster_Volume c), Matches (cluster_Volume c)))
         (default None (last out))))
  = Ok (Some (2, [(10000000000, 1)], 1)).
Proof. vm_compute. done. Qed.

(** C9, a timestamp that is not a multiple of the resolution: the first
    bucket holds the raw timestamp, so the same timestamp again is
    "earlier" than it and takes the prepend branch. *)
Example Train_same_timestamp_twice :
  (d ← New DefaultConfig;
   '(out, _) ← run d [CallTrain "a" 5; CallTrain "a" 5];
   Ok (option_map
         (fun c => (Size c, Values (cluster_Volume c), Matches (cluster_Volume c)))
         (default None (last out))))
  = Ok (Some (2, [(0, 1)], 1)).
Proof. vm_compute. done. Qed.

(** A line that is the wildcard marker: its template scores 0 against the
    same line, wildcard positions not counting as matches in [Train], so
    the second call opens a second cluster. *)
Example Train_wildcard_line_twice :
  (d ← New DefaultConfig;
   '(out, _) ← run d [CallTrain "<*>" 0; CallTrain "<*>" 0];
   Ok (map (option_map cluster_id) out))
  = Ok [Some 1; Some 2].
Proof. vm_compute. done. Qed.

(** Two candidates with the same score (3 of 5) and no wildcard: the one
    that comes first in the candidate list is returned. *)
Example fastMatch_tie_goes_to_first :
  (r1 ← fastMatch two_candidates [1; 2] ["x"; "a"; "b"; "g"; "h"] (lit (4 # 10)) false;
   r2 ← fastMatch two_candidates [2; 1] ["x"; "a"; "b"; "g"; "h"] (lit (4 # 10)) false;
   Ok (option_map cluster_id r1.1, option_map cluster_id r2.1))
  = Ok (Some 1, Some 2).
Proof. vm_compute. done. Qed.

Lemma Train_twice_same_cluster_witness :
  exists d0 c1 d1 c2 d2,
    New DefaultConfig = Ok d0
    /\ Train d0 "a b" 0 = Ok (c1, d1)
    /\ Train d1 "a b" 5 = Ok (c2, d2)
    /\ cluster_id c1 = 1 /\ cluster_id c2 = 1
    /\ Size c1 = 1 /\ Size c2 = 2.
Proof.
  apply (Train_twice_same_cluster DefaultConfig "a b" 0 5).
  - vm_compute. discriminate.
  - vm_compute. discriminate.
  - vm_compute. discriminate.
  - vm_compute. reflexivity.
  - vm_compute. intros Hin. 
    repeat (apply elem_of_cons in Hin as [Hin|Hin]; [discriminate Hin|]).
    by apply elem_of_nil in Hin.
Defined.

Lemma equal_length_comparisons_witness :
  run engine0 [CallTrain "a b" 0; CallMatch "a c"; CallTrain "a c" 0]
  <> Panic LenMismatch.
Proof.
  apply (equal_length_comparisons DefaultConfig engine0
           [CallTrain "a b" 0; CallMatch "a c"; CallTrain "a c" 0]).
  - reflexivity.
  - vm_compute. discriminate.
Defined.

Lemma children_capped_witness :
  run engine0 [CallTrain "a b c" 0; CallTrain "d e f" 0] <> Panic NilNode.
Proof.
  apply (children_capped DefaultConfig engine0
           [CallTrain "a b c" 0; CallTrain "d e f" 0]).
  - reflexivity.
  - vm_compute. discriminate.
Defined.

Lemma wildcards_persist_witness :
  exists m m',
    resolve (idToCluster (after [CallTrain "a b" 0; CallTrain "a c" 0]).2) 1 = Some m
    /\ resolve (idToCluster (after [CallTrain "a b" 0; CallTrain "a c" 0;
                                    CallTrain "d e" 0; CallTrain "a d" 0]).2) 1
       = Some m'
    /\ Tokens m = ["a"; "<*>"]
    /\ Tokens m' !! 1%nat = Some "<*>".
Proof.
  eexists _, _. split; [vm_compute; reflexivity|].
  split; [vm_compute; reflexivity|]. split; [reflexivity|].
  eapply (wildcards_persist DefaultConfig engine0
            (after [CallTrain "a b" 0; CallTrain "a c" 0]).2
            (after [CallTrain "a b" 0; CallTrain "a c" 0;
                    CallTrain "d e" 0; CallTrain "a d" 0]).2
            [CallTrain "a b" 0; CallTrain "a c" 0]
            [CallTrain "d e" 0; CallTrain "a d" 0]
            (after [CallTrain "a b" 0; CallTrain "a c" 0]).1
            (drop 2 (after [CallTrain "a b" 0; CallTrain "a c" 0;
                            CallTrain "d e" 0; CallTrain "a d" 0]).1)
            eq_refl) with (id := 1) (i := 1%nat).
  - vm_compute. discriminate.
  - vm_compute. reflexivity.
  - vm_compute. reflexivity.
  - vm_compute. reflexivity.
  - vm_compute. reflexivity.
  - reflexivity.
Defined.

Lemma fastMatch_returns_first_best_witness :
  exists o d',
    fastMatch two_candidates [1; 2] ["x"; "a"; "b"; "g"; "h"] (lit (4 # 10)) false
    = Ok (o, d').
Proof.
  destruct (fastMatch_returns_first_best two_candidates [1; 2]
              ["x"; "a"; "b"; "g"; "h"] (lit (4 # 10)) false)
    as (o & d' & Hfm & _).
  - by eexists.
  - discriminate.
  - intros id v Hid Hres.
    apply elem_of_cons in Hid as [->|Hid].
    { vm_compute in Hres. by injection Hres as <-. }
    apply elem_of_cons in Hid as [->|Hid].
    { vm_compute in Hres. by injection Hres as <-. }
    by apply elem_of_nil in Hid.
  - by exists o, d'.
Defined.

Lemma getTemplate_Split_witness :
  Split (LogCluster_String (mkLogCluster 1 2 ["a"; "<*>"] ["a b"; "a c"] (initVolume 0)))
    " "
  = ["a"; "<*>"].
Proof.
  apply (getTemplate_Split (mkLogCluster 1 2 ["a"; "<*>"] ["a b"; "a c"] (initVolume 0))).
  - discriminate.
  - repeat constructor; vm_compute; intros Hin;
      repeat (apply elem_of_cons in Hin as [Hin|Hin]; [discriminate Hin|]);
      by apply elem_of_nil in Hin.
Defined.

Lemma Add_in_order_witness :
  exists x',
    Add (mkVolume [(0, 1); (10000000000, 3)]) 25000000000 = Ok x'
    /\ Values x' = [(0, 1); (10000000000, 3); (20000000000, 1)]
    /\ ascending (Values x')
    /\ Matches x' = 5.
Proof.
  destruct (Add_in_order (mkVolume [(0, 1); (10000000000, 3)]) 25000000000
              [(0, 1)] (10000000000, 3)) as (x' & HAdd & HV & Hasc & HM).
  - repeat constructor.
  - reflexivity.
  - vm_compute. discriminate.
  - exists x'. split; [done|]. split; [by rewrite HV|]. split; [done|].
    by rewrite HM.
Defined.

Lemma ForRange_ascending_witness :
  ForRange (mkVolume [(0, 1); (10, 1); (20, 1); (30, 1)]) 5 20
  = Some (mkVolume [(10, 1)])
  /\ ForRange (mkVolume [(0, 1); (10, 1); (20, 1)]) 5 20
     = Some (mkVolume [(10, 1); (20, 1)]).
Proof.
  split.
  - rewrite (ForRange_ascending (mkVolume [(0, 1); (10, 1); (20, 1); (30, 1)]) 5 20
               (0, 1) (30, 1)); [reflexivity|repeat constructor|reflexivity..].
  - rewrite (ForRange_ascending (mkVolume [(0, 1); (10, 1); (20, 1)]) 5 20
               (0, 1) (20, 1)); [reflexivity|repeat constructor|reflexivity..].
Defined.

Lemma Cache_Set_newest_witness :
  exists l',
    Cache_Set (mkCache (Some full_cache)) 3
      (mkLogCluster 3 1 ["z"] ["z"] (initVolume 0))
    = Ok (mkCache (Some l'))
    /\ LRU_Keys full_cache = [1; 2] /\ LRU_Keys l' = [2; 3].
Proof.
  destruct (Cache_Set_newest (mkCache (Some full_cache)) full_cache 3
              (mkLogCluster 3 1 ["z"] ["z"] (initVolume 0)) eq_refl)
    as (l' & Hset & _ & _ & Hkeys & _).
  - split_and!; [|vm_compute; discriminate|reflexivity].
    repeat constructor; vm_compute; intros Hin;
      repeat (apply elem_of_cons in Hin as [Hin|Hin]; [discriminate Hin|]);
      by apply elem_of_nil in Hin.
  - exists l'. split; [done|]. split; [reflexivity|]. by rewrite Hkeys.
Defined.

Lemma Cache_Get_newest_witness :
  exists o l',
    Cache_Get (mkCache (Some full_cache)) 1 = Ok (o, mkCache (Some l'))
    /\ option_map Tokens o = Some ["a"]
    /\ LRU_Keys full_cache = [1; 2] /\ LRU_Keys l' = [2; 1].
Proof.
  destruct (Cache_Get_newest (mkCache (Some full_cache)) full_cache 1 eq_refl)
    as (l' & Hget & _ & _ & Hkeys & _).
  - split_and!; [|vm_compute; discriminate|reflexivity].
    repeat constructor; vm_compute; intros Hin;
      repeat (apply elem_of_cons in Hin as [Hin|Hin]; [discriminate Hin|]);
      by apply elem_of_nil in Hin.
  - eexists _, l'. split; [done|]. split; [reflexivity|].
    split; [reflexivity|]. by rewrite Hkeys.
Defined.

Lemma Clusters_bounded_witness :
  exists cs,
    Clusters (run_on (engine_of two_clusters)
                [CallTrain "a" 0; CallTrain "b c" 0; CallTrain "z" 0]).2 = Ok cs
    /\ len cs <= 2.
Proof.
  destruct (Clusters_bounded two_clusters (engine_of two_clusters)
              (run_on (engine_of two_clusters)
                 [CallTrain "a" 0; CallTrain "b c" 0; CallTrain "z" 0]).2
              [CallTrain "a" 0; CallTrain "b c" 0; CallTrain "z" 0]
              (run_on (engine_of two_clusters)
                 [CallTrain "a" 0; CallTrain "b c" 0; CallTrain "z" 0]).1)
    as (cs & Hcs & Hlen & _).
  - reflexivity.
  - vm_compute. discriminate.
  - vm_compute. discriminate.
  - vm_compute. reflexivity.
  - exists cs. split; [done|]. exact Hlen.
Defined.

Lemma clusters_record_their_lines_witness :
  exists v,
    resolve (idToCluster (after [CallTrain "a b" 0; CallTrain "x" 0;
                                 CallTrain "a c" 0]).2) 1 = Some v
    /\ Size v = 2 /\ Samples v = ["a b"; "a c"].
Proof.
  eexists. split; [vm_compute; reflexivity|].
  match goal with
  | |- Size ?v = _ /\ _ =>
      destruct (clusters_record_their_lines DefaultConfig engine0
                  (after [CallTrain "a b" 0; CallTrain "x" 0; CallTrain "a c" 0]).2
                  [CallTrain "a b" 0; CallTrain "x" 0; CallTrain "a c" 0]
                  (after [CallTrain "a b" 0; CallTrain "x" 0; CallTrain "a c" 0]).1
                  1 v) as (_ & HSize & HSamples & _)
  end.
  - reflexivity.
  - vm_compute. discriminate.
  - vm_compute. reflexivity.
  - vm_compute. reflexivity.
  - split; [by rewrite HSize|by rewrite HSamples].
Defined.

Lemma Match_is_exact_witness :
  exists m d',
    Match (after [CallTrain "a b" 0; CallTrain "a c" 0]).2 "a d" = Ok (Some m, d')
    /\ covers "<*>" (Tokens m) ["a"; "d"].
Proof.
  eexists _, _. split; [vm_compute; reflexivity|].
  match goal with
  | |- covers _ (Tokens ?m) _ =>
      destruct (Match_is_exact DefaultConfig engine0
                  (after [CallTrain "a b" 0; CallTrain "a c" 0]).2
                  (mkDrain (config engine0)
                     (rootNode (after [CallTrain "a b" 0; CallTrain "a c" 0]).2)
                     (idToCluster (after [CallTrain "a b" 0; CallTrain "a c" 0]).2) 1)
                  [CallTrain "a b" 0; CallTrain "a c" 0]
                  (after [CallTrain "a b" 0; CallTrain "a c" 0]).1 "a d" m)
        as [_ Hcov]
  end.
  - reflexivity.
  - vm_compute. discriminate.
  - vm_compute. reflexivity.
  - vm_compute. reflexivity.
  - vm_compute. reflexivity.
  - exact Hcov.
Defined.

Lemma Match_finds_trained_line_witness :
  exists m d2,
    Match (after [CallTrain "x y" 0; CallTrain "a b" 0]).2 "a b" = Ok (Some m, d2).
Proof.
  eapply (Match_finds_trained_line DefaultConfig engine0
            (after [CallTrain "x y" 0]).2
            (after [CallTrain "x y" 0; CallTrain "a b" 0]).2
            [CallTrain "x y" 0] (after [CallTrain "x y" 0]).1 "a b" 0).
  - reflexivity.
  - vm_compute. reflexivity.
  - vm_compute. reflexivity.
  - vm_compute. reflexivity.
Defined.

Lemma negative_MaxClusters_nil_cache_witness :
  Train (engine_of no_cache) "a" 0 = Panic NilCache
  /\ run (engine_of no_cache) [CallMatch "a"; CallMatch "b"]
     = Ok ([None; None], engine_of no_cache).
Proof.
  destruct (negative_MaxClusters_nil_cache no_cache (engine_of no_cache))
    as (_ & _ & HT & _ & Hrun).
  - reflexivity.
  - vm_compute. reflexivity.
  - split; [apply HT|]. by rewrite Hrun.
Defined.


Lemma clusters_numbered_in_order_witness :
  created [CallTrain "a b" 0; CallTrain "x" 0; CallTrain "a c" 0; CallTrain "y z w" 0]
    (after [CallTrain "a b" 0; CallTrain "x" 0; CallTrain "a c" 0;
            CallTrain "y z w" 0]).1
  = [1; 2; 3].
Proof.
  destruct (clusters_numbered_in_order DefaultConfig engine0
              (after [CallTrain "a b" 0; CallTrain "x" 0; CallTrain "a c" 0;
                      CallTrain "y z w" 0]).2
              [CallTrain "a b" 0; CallTrain "x" 0; CallTrain "a c" 0;
               CallTrain "y z w" 0]
              (after [CallTrain "a b" 0; CallTrain "x" 0; CallTrain "a c" 0;
                      CallTrain "y z w" 0]).1) as (Hcreated & _).
  - reflexivity.
  - vm_compute. discriminate.
  - vm_compute. reflexivity.
  - rewrite Hcreated. vm_compute. reflexivity.
Defined.

Lemma Match_changes_only_recency_witness :
  clustersCounter
    (run_on (after [CallTrain "a" 0; CallTrain "b c" 0]).2 [CallMatch "zzz"]).2
  = clustersCounter (after [CallTrain "a" 0; CallTrain "b c" 0]).2
  /\ rootNode
       (run_on (after [CallTrain "a" 0; CallTrain "b c" 0]).2 [CallMatch "zzz"]).2
     = rootNode (after [CallTrain "a" 0; CallTrain "b c" 0]).2.
Proof.
  destruct (Match_changes_only_recency DefaultConfig engine0
              (after [CallTrain "a" 0; CallTrain "b c" 0]).2
              (run_on (after [CallTrain "a" 0; CallTrain "b c" 0]).2
                 [CallMatch "zzz"]).2
              [CallTrain "a" 0; CallTrain "b c" 0]
              (after [CallTrain "a" 0; CallTrain "b c" 0]).1 "zzz" None)
    as (_ & Hroot & Hcount & _).
  - reflexivity.
  - vm_compute. discriminate.
  - vm_compute. reflexivity.
  - vm_compute. reflexivity.
  - by split.
Defined.

Lemma Train_changes_one_cluster_witness :
  exists c d',
    Train (after [CallTrain "a b" 0; CallTrain "x" 0]).2 "a c" 0 = Ok (c, d')
    /\ resolve (idToCluster d') 1 = Some c
    /\ Tokens c = ["a"; "<*>"] /\ Size c = 2.
Proof.
  eexists _, _. split; [vm_compute; reflexivity|].
  split; [|split; reflexivity].
  match goal with
  | |- resolve (idToCluster ?d') _ = Some ?c =>
      destruct (Train_changes_one_cluster DefaultConfig engine0
                  (after [CallTrain "a b" 0; CallTrain "x" 0]).2 d'
                  [CallTrain "a b" 0; CallTrain "x" 0]
                  (after [CallTrain "a b" 0; CallTrain "x" 0]).1 "a c" 0 c)
        as [Hres _]
  end.
  - reflexivity.
  - vm_compute. reflexivity.
  - vm_compute. reflexivity.
  - vm_compute. reflexivity.
  - exact Hres.
Defined.

End Concrete.
